(** * The machine-learning sync context and its worker pool

    A shallow embedding of [src/services/machineLearning/machineLearningFactory.ts]:
    the static registry [MLFactory], the class [LocalMLSyncContext] with its
    constructor, [getEnteWorker] and [dispose], and the file helpers that
    follow the class in the module; and of the helpers of
    [src/utils/collection/index.ts].

    JavaScript objects are mutable and every property may be [undefined], so
    the instance [this] is a record of optional fields threaded through a
    state-and-exception monad, next to the objects it references (the queue,
    the web workers, the Comlink remotes) and a trace of the effects
    performed.  On the single JavaScript thread a body runs without
    interruption up to an [await]: a call of [getEnteWorker], which has
    none, is one step; a call of [dispose] is suspended at its [await], the
    calls of the tasks still at work run in between, and the rest of its
    body runs once the queue has reported idle. *)

From Stdlib Require Import ZArith String Ascii.
From stdpp Require Import base option list gmap strings pretty.
From coqutil Require Import Datatypes.RecordSettersUsingExistingGetters.

Open Scope string_scope.
Open Scope list_scope.
Open Scope Z_scope.

(** A field update [r <| f := v |>] computes as soon as it is applied. *)
Arguments const {E} newValue _ /.

(** ** Values of the language *)

(** What a [throw] carries.  [Error] is the plain constructor the factory
    uses; the other two are raised by the runtime itself. *)
Inductive JsError : Type :=
| Error (message : string)
| TypeError (message : string)
| RangeError (message : string).

#[global] Instance JsError_eq_dec : EqDecision JsError.
Proof. solve_decision. Defined.

(** How a call ends: with a value, or with a thrown error (for an [async]
    function: a resolved or a rejected promise). *)
Inductive Completion (A : Type) : Type :=
| Normal (value : A)
| Throw (e : JsError).
Arguments Normal {A} value.
Arguments Throw {A} e.

Definition isNormal {A} (c : Completion A) : bool :=
  match c with Normal _ => true | Throw _ => false end.

(** [a || b] on numbers: [undefined] and [0] are falsy. *)
Definition js_or (a : option Z) (b : Z) : Z :=
  match a with
  | Some n => if n =? 0 then b else n
  | None => b
  end.

(** [a % b] on integers: the sign follows the dividend, and [% 0] is [NaN],
    written [None]. *)
Definition js_rem (a b : Z) : option Z :=
  if b =? 0 then None else Some (Z.rem a b).

(** *** Arrays

    An array is an object: the elements at indices [0 .. length-1], some of
    them holes, and whatever other properties were stored under a key that is
    not an index (a negative number, [NaN]). *)
Record JsArray (A : Type) : Type := mkArray {
  items : list (option A);
  props : gmap (option Z) A
}.
Arguments mkArray {A} items props.
Arguments items {A} _.
Arguments props {A} _.

Definition array_length {A} (arr : JsArray A) : Z := Z.of_nat (length (items arr)).

(** [new Array(n)]: [n] holes, or a [RangeError] when [n] is no array length. *)
Definition new_Array {A} (n : Z) : Completion (JsArray A) :=
  if (n <? 0) || (2 ^ 32 - 1 <? n)
  then Throw (RangeError "Invalid array length")
  else Normal (mkArray (replicate (Z.to_nat n) None) ∅).

(** [arr[key]]; a hole and a missing property both read as [undefined]. *)
Definition array_get {A} (arr : JsArray A) (key : option Z) : option A :=
  match key with
  | Some z => if 0 <=? z then mjoin (items arr !! Z.to_nat z) else props arr !! key
  | None => props arr !! key
  end.

(** [arr[key] = v]; writing past the end extends the array with holes. *)
Definition array_set {A} (arr : JsArray A) (key : option Z) (v : A) : JsArray A :=
  match key with
  | Some z =>
      if 0 <=? z then
        let n := Z.to_nat z in
        if (n <? length (items arr))%nat
        then mkArray (<[n := Some v]> (items arr)) (props arr)
        else mkArray (items arr ++ replicate (n - length (items arr)) None ++ [Some v])
                     (props arr)
      else mkArray (items arr) (<[key := v]> (props arr))
  | None => mkArray (items arr) (<[key := v]> (props arr))
  end.

(** The number of elements that are not holes. *)
Definition populated {A} (arr : JsArray A) : nat :=
  length (omap id (items arr)).

(** ** The objects a context refers to *)

(** Modelled from the spec: the bounded task queue is the [p-queue] package,
    not among the sources.  Of a queue the context relies on its limit, on
    the number of tasks queued or running ([onIdle] "resolves once no tasks
    are queued or running") and on the attached listeners. *)
Record PQueue : Type := {
  pq_concurrency : Z;
  pq_pending : nat;
  pq_listeners : list string
}.

(** [{ comlink, worker }]: a web worker and the Comlink proxy of the class it
    exposes; both are addresses in the heap of workers. *)
Record ComlinkWorker : Type := {
  comlink : nat;
  worker : nat
}.

(** The configuration: one record per pipeline stage, each naming a method.
    At run time a method is a string. *)
Record MethodConfig : Type := { method : string }.

Record MLSyncConfig : Type := {
  faceDetection : MethodConfig;
  faceCrop : MethodConfig;
  faceAlignment : MethodConfig;
  faceEmbedding : MethodConfig;
  faceClustering : MethodConfig
}.

(** The imported service singletons. *)
Inductive FaceDetectionService : Type := blazeFaceDetectionService.
Inductive FaceCropService : Type := arcfaceCropService.
Inductive FaceAlignmentService : Type := arcfaceAlignmentService.
Inductive FaceEmbeddingService : Type := mobileFaceNetEmbeddingService.
Inductive ClusteringService : Type :=
| hdbscanClusteringService
| dbscanClusteringService.

(** Modelled from the spec: the imports of the module that are not among the
    sources.  [utils/common/concurrency] gives the default concurrency; the
    spec makes the concurrency of a context a positive integer, "explicit
    argument or a derived default", whence [CONCURRENCY_pos].  The data
    types of [types/file] and [types/machineLearning] stay opaque; the
    statistics hook of [utils/machineLearning] and the check the queue's
    constructor makes on its options stay arbitrary. *)
Class Imports : Type := {
  EnteFile : Type;
  Face : Type;
  MLLibraryData : Type;
  Tsne : Type;
  CONCURRENCY : Z;
  CONCURRENCY_pos : 1 <= CONCURRENCY;
  logQueueStats : PQueue -> string -> PQueue;
  PQueue_rejects : Z -> option JsError
}.

(** ** MLFactory: the registry *)

Module MLFactory.

Definition getFaceDetectionService (method : string) : Completion FaceDetectionService :=
  if String.eqb method "BlazeFace" then Normal blazeFaceDetectionService
  else Throw (Error ("Unknon face detection method: " +:+ method)).

Definition getFaceCropService (method : string) : Completion FaceCropService :=
  if String.eqb method "ArcFace" then Normal arcfaceCropService
  else Throw (Error ("Unknon face crop method: " +:+ method)).

Definition getFaceAlignmentService (method : string) : Completion FaceAlignmentService :=
  if String.eqb method "ArcFace" then Normal arcfaceAlignmentService
  else Throw (Error ("Unknon face alignment method: " +:+ method)).

Definition getFaceEmbeddingService (method : string) : Completion FaceEmbeddingService :=
  if String.eqb method "MobileFaceNet" then Normal mobileFaceNetEmbeddingService
  else Throw (Error ("Unknon face embedding method: " +:+ method)).

Definition getClusteringService (method : string) : Completion ClusteringService :=
  if String.eqb method "Hdbscan" then Normal hdbscanClusteringService
  else if String.eqb method "Dbscan" then Normal dbscanClusteringService
  else Throw (Error ("Unknon clustering method: " +:+ method)).

End MLFactory.

(** The five stage categories, in the order the constructor resolves them. *)
Inductive Stage : Type :=
| FaceDetectionStage
| FaceCropStage
| FaceAlignmentStage
| FaceEmbeddingStage
| ClusteringStage.

Definition stage_method (config : MLSyncConfig) (st : Stage) : string :=
  match st with
  | FaceDetectionStage => method (faceDetection config)
  | FaceCropStage => method (faceCrop config)
  | FaceAlignmentStage => method (faceAlignment config)
  | FaceEmbeddingStage => method (faceEmbedding config)
  | ClusteringStage => method (faceClustering config)
  end.

(** A method is registered for a category when the category's lookup returns. *)
Definition registered (st : Stage) (m : string) : bool :=
  match st with
  | FaceDetectionStage => isNormal (MLFactory.getFaceDetectionService m)
  | FaceCropStage => isNormal (MLFactory.getFaceCropService m)
  | FaceAlignmentStage => isNormal (MLFactory.getFaceAlignmentService m)
  | FaceEmbeddingStage => isNormal (MLFactory.getFaceEmbeddingService m)
  | ClusteringStage => isNormal (MLFactory.getClusteringService m)
  end.

(** The words by which an error message names the category. *)
Definition stage_words (st : Stage) : string :=
  match st with
  | FaceDetectionStage => "face detection"
  | FaceCropStage => "face crop"
  | FaceAlignmentStage => "face alignment"
  | FaceEmbeddingStage => "face embedding"
  | ClusteringStage => "clustering"
  end.

(** ** The state: the instance, the heap and the trace *)

(** The objects that live outside the instance.  [workers] holds one flag per
    web worker ever spawned ([true] while it runs), [remotes] the worker behind
    each Comlink remote instance, and [spawnOutcomes] what the next calls of
    [getDedicatedCryptoWorker] will meet: [Some e] for a failure with [e]. *)
Record World : Type := {
  queues : list PQueue;
  workers : list bool;
  remotes : list nat;
  spawnOutcomes : list (option JsError)
}.

(** The effects of a run, in the order they happen. *)
Inductive Event : Type :=
| Assign (field : string)
| Store (field : string) (key : option Z)
| ConsoleLog (text : string) (n : Z)
| NewPQueue (q : nat)
| LogQueueStats (q : nat) (name : string)
| SpawnWorker (w : nat)
| SpawnFailed (e : JsError)
| NewRemote (w h : nat)
| AwaitIdle (q : nat)
| QueueIdle (q : nat)
| RemoveAllListeners (q : nat)
| Terminate (w : nat)
| TaskAdded (q : nat)
| TaskFinished (q : nat).

#[global] Instance Event_eq_dec : EqDecision Event.
Proof. solve_decision. Defined.

Section LocalMLSyncContext.
Context `{Imports}.

(** The fields of the class; [None] is [undefined]. *)
Record LocalMLSyncContext : Type := {
  token : option string;
  config : option MLSyncConfig;
  shouldUpdateMLVersion : option bool;
  faceDetectionService : option FaceDetectionService;
  faceCropService : option FaceCropService;
  faceAlignmentService : option FaceAlignmentService;
  faceEmbeddingService : option FaceEmbeddingService;
  faceClusteringService : option ClusteringService;
  localFilesMap : option (gmap Z EnteFile);
  outOfSyncFiles : option (list EnteFile);
  nSyncedFiles : option Z;
  nSyncedFaces : option Z;
  allSyncedFacesMap : option (gmap Z (list Face));
  tsne : option Tsne;
  error : option JsError;
  mlLibraryData : option MLLibraryData;
  syncQueue : option nat;
  concurrency : option Z;
  enteComlinkWorkers : option (JsArray ComlinkWorker);
  enteWorkers : option (JsArray nat)
}.

(** The object [new] hands to the constructor. *)
Definition fresh_object : LocalMLSyncContext :=
  {| token := None; config := None; shouldUpdateMLVersion := None;
     faceDetectionService := None; faceCropService := None;
     faceAlignmentService := None; faceEmbeddingService := None;
     faceClusteringService := None; localFilesMap := None;
     outOfSyncFiles := None; nSyncedFiles := None; nSyncedFaces := None;
     allSyncedFacesMap := None; tsne := None; error := None;
     mlLibraryData := None; syncQueue := None; concurrency := None;
     enteComlinkWorkers := None; enteWorkers := None |}.

Record St : Type := {
  this : LocalMLSyncContext;
  world : World;
  trace : list Event
}.

(** *** The monad of method bodies *)

Definition Js (A : Type) : Type := St -> Completion A * St.

Definition ret {A} (a : A) : Js A := fun s => (Normal a, s).

Definition throw {A} (e : JsError) : Js A := fun s => (Throw e, s).

Definition bind {A B} (m : Js A) (k : A -> Js B) : Js B :=
  fun s =>
    match m s with
    | (Normal a, s') => k a s'
    | (Throw e, s') => (Throw e, s')
    end.

Definition lift {A} (c : Completion A) : Js A :=
  match c with Normal a => ret a | Throw e => throw e end.

(** *** Suspension

    A promise is modelled by the step that settles it.  In a state where
    the promise is still pending there is no such step ([None]); where it
    can settle, the step ends with the value the promise is fulfilled with
    or with the error it is rejected with. *)
Definition Promise (A : Type) : Type := St -> option (Completion A * St).

(** The promise that settles once [p] is fulfilled, by running [rest] in
    the state of that moment; a rejection of [p] is passed on. *)
Definition and_then {A B} (p : Promise A) (rest : A -> Js B) : Promise B :=
  fun s =>
    match p s with
    | Some (Normal a, s') => Some (rest a s')
    | Some (Throw e, s') => Some (Throw e, s')
    | None => None
    end.

(** [await p] followed by the [rest] of an [async] body.  The body is
    suspended here: the call returns to its caller with the promise of its
    outcome, other jobs run, and the rest of the body runs when [p] has
    been fulfilled. *)
Definition await_promise {A B} (p : Promise A) (rest : A -> Js B) : Js (Promise B) :=
  ret (and_then p rest).

(** A call of an [async] method from the call to its end, where
    [meanwhile] is what the other jobs do to the state while the body is
    suspended.  [None]: the call is still suspended when they are done. *)
Definition run_async {A} (call : Js (Promise A)) (meanwhile : St -> St) (s : St)
    : option (Completion A * St) :=
  match call s with
  | (Normal p, s1) => p (meanwhile s1)
  | (Throw e, s1) => Some (Throw e, s1)
  end.

End LocalMLSyncContext.

Declare Scope js_scope.
Delimit Scope js_scope with js.
Notation "'let*' x := m 'in' k" := (bind m (fun x => k))
  (at level 10, x name, m at level 100, k at level 200) : js_scope.
Notation "m ';;;' k" := (bind m (fun _ => k))
  (at level 100, k at level 200, right associativity) : js_scope.

Section Methods.
Context `{Imports}.
Open Scope js_scope.

(** *** Primitive steps *)

Definition emit (e : Event) : Js unit :=
  fun s => (Normal tt, {| this := this s; world := world s; trace := trace s ++ [e] |}).

(** [this.f = v] *)
Definition assign (f : string) (upd : LocalMLSyncContext -> LocalMLSyncContext) : Js unit :=
  fun s =>
    (Normal tt,
     {| this := upd (this s); world := world s; trace := trace s ++ [Assign f] |}).

(** Reading [this.f] where the value is used as an object or a number right
    away: [undefined] there raises a [TypeError]. *)
Definition read {A} (f : string) (get : LocalMLSyncContext -> option A) : Js A :=
  fun s =>
    match get (this s) with
    | Some a => (Normal a, s)
    | None => (Throw (TypeError ("Cannot read properties of undefined: " +:+ f)), s)
    end.

Definition console_log (text : string) (n : Z) : Js unit := emit (ConsoleLog text n).

(** [new PQueue({ concurrency })]: the constructor may reject its options;
    otherwise a queue with no task and no listener is allocated. *)
Definition new_PQueue (c : Z) : Js nat :=
  match PQueue_rejects c with
  | Some e => throw e
  | None =>
      fun s =>
        let q := length (queues (world s)) in
        (Normal q,
         {| this := this s;
            world := (world s) <| queues :=
              queues (world s)
              ++ [{| pq_concurrency := c; pq_pending := 0; pq_listeners := [] |}] |>;
            trace := trace s ++ [NewPQueue q] |})
  end.

Definition with_queue (q : nat) (g : PQueue -> PQueue) (e : Event) : Js unit :=
  fun s =>
    match queues (world s) !! q with
    | Some pq =>
        (Normal tt,
         {| this := this s;
            world := (world s) <| queues := <[q := g pq]> (queues (world s)) |>;
            trace := trace s ++ [e] |})
    | None => (Throw (TypeError "not a queue"), s)
    end.

(** [logQueueStats(queue, name)] *)
Definition log_queue_stats (q : nat) (name : string) : Js unit :=
  with_queue q (fun pq => logQueueStats pq name) (LogQueueStats q name).

(** Modelled from the spec: the promise of [queue.onIdle()] "resolves
    once no tasks are queued or running", and is pending as long as one
    is.  The tasks are closures of the callers of this module; the model
    keeps their number, and the calls they make on the context are the
    steps that run while a caller waits for this promise. *)
Definition queue_idle (q : nat) : Promise unit :=
  fun s =>
    match queues (world s) !! q with
    | Some pq =>
        match pq_pending pq with
        | O => Some (emit (QueueIdle q) s)
        | S _ => None
        end
    | None => None
    end.

(** [queue.onIdle()]: the call hands back that promise. *)
Definition onIdle (q : nat) : Js (Promise unit) :=
  fun s =>
    match queues (world s) !! q with
    | Some _ =>
        (Normal (queue_idle q),
         {| this := this s; world := world s; trace := trace s ++ [AwaitIdle q] |})
    | None => (Throw (TypeError "not a queue"), s)
    end.

(** [queue.removeAllListeners()] *)
Definition removeAllListeners (q : nat) : Js unit :=
  with_queue q (fun pq => pq <| pq_listeners := [] |>) (RemoveAllListeners q).

(** [worker.terminate()]; terminating a terminated worker changes nothing. *)
Definition terminate (w : nat) : Js unit :=
  fun s =>
    (Normal tt,
     {| this := this s;
        world := (world s) <| workers := <[w := false]> (workers (world s)) |>;
        trace := trace s ++ [Terminate w] |}).

(** Modelled from the spec: [utils/crypto.getDedicatedCryptoWorker] is not
    among the sources.  It "creates the backing context", a fresh web
    worker with its Comlink proxy, and "context creation" may fail. *)
Definition getDedicatedCryptoWorker : Js ComlinkWorker :=
  fun s =>
    match spawnOutcomes (world s) with
    | Some e :: rest =>
        (Throw e,
         {| this := this s;
            world := (world s) <| spawnOutcomes := rest |>;
            trace := trace s ++ [SpawnFailed e] |})
    | outcomes =>
        let w := length (workers (world s)) in
        (Normal {| comlink := w; worker := w |},
         {| this := this s;
            world := (world s) <| workers := workers (world s) ++ [true] |>
                               <| spawnOutcomes := tail outcomes |>;
            trace := trace s ++ [SpawnWorker w] |})
    end.

(** [new cw.comlink()]: a fresh remote instance served by the worker of the
    proxy.  It is an object, hence truthy. *)
Definition new_comlink (cw : ComlinkWorker) : Js nat :=
  fun s =>
    let h := length (remotes (world s)) in
    (Normal h,
     {| this := this s;
        world := (world s) <| remotes := remotes (world s) ++ [comlink cw] |>;
        trace := trace s ++ [NewRemote (comlink cw) h] |}).

(** [for (const x of xs) body(x)] *)
Fixpoint for_of {A} (xs : list A) (body : A -> Js unit) : Js unit :=
  match xs with
  | [] => ret tt
  | x :: rest => body x ;;; for_of rest body
  end.

(** *** The constructor *)

Definition new_LocalMLSyncContext
    (token_ : string) (config_ : MLSyncConfig)
    (shouldUpdateMLVersion_ : option bool) (concurrency_ : option Z) : Js unit :=
  let shouldUpdate := default true shouldUpdateMLVersion_ in
  assign "token" (fun c => c <| token := Some token_ |>) ;;;
  assign "config" (fun c => c <| config := Some config_ |>) ;;;
  assign "shouldUpdateMLVersion"
    (fun c => c <| shouldUpdateMLVersion := Some shouldUpdate |>) ;;;

  let* cfg := read "config" config in
  let* detection := lift (MLFactory.getFaceDetectionService (method (faceDetection cfg))) in
  assign "faceDetectionService" (fun c => c <| faceDetectionService := Some detection |>) ;;;
  let* cfg := read "config" config in
  let* crop := lift (MLFactory.getFaceCropService (method (faceCrop cfg))) in
  assign "faceCropService" (fun c => c <| faceCropService := Some crop |>) ;;;
  let* cfg := read "config" config in
  let* alignment := lift (MLFactory.getFaceAlignmentService (method (faceAlignment cfg))) in
  assign "faceAlignmentService" (fun c => c <| faceAlignmentService := Some alignment |>) ;;;
  let* cfg := read "config" config in
  let* embedding := lift (MLFactory.getFaceEmbeddingService (method (faceEmbedding cfg))) in
  assign "faceEmbeddingService" (fun c => c <| faceEmbeddingService := Some embedding |>) ;;;
  let* cfg := read "config" config in
  let* clustering := lift (MLFactory.getClusteringService (method (faceClustering cfg))) in
  assign "faceClusteringService" (fun c => c <| faceClusteringService := Some clustering |>) ;;;

  assign "outOfSyncFiles" (fun c => c <| outOfSyncFiles := Some [] |>) ;;;
  assign "nSyncedFiles" (fun c => c <| nSyncedFiles := Some 0 |>) ;;;
  assign "nSyncedFaces" (fun c => c <| nSyncedFaces := Some 0 |>) ;;;

  assign "concurrency"
    (fun c => c <| concurrency := Some (js_or concurrency_ CONCURRENCY) |>) ;;;

  let* n := read "concurrency" concurrency in
  console_log "Using concurrency: " n ;;;
  let* n := read "concurrency" concurrency in
  let* q := new_PQueue n in
  assign "syncQueue" (fun c => c <| syncQueue := Some q |>) ;;;
  let* q := read "syncQueue" syncQueue in
  log_queue_stats q "sync" ;;;

  let* n := read "concurrency" concurrency in
  let* arr := lift (new_Array n) in
  assign "enteComlinkWorkers" (fun c => c <| enteComlinkWorkers := Some arr |>) ;;;
  let* n := read "concurrency" concurrency in
  let* arr := lift (new_Array n) in
  assign "enteWorkers" (fun c => c <| enteWorkers := Some arr |>).

(** [new LocalMLSyncContext(...)] in a given world: the constructor runs on
    a fresh object. *)
Definition construct
    (token_ : string) (config_ : MLSyncConfig)
    (shouldUpdateMLVersion_ : option bool) (concurrency_ : option Z)
    (w : World) : Completion unit * St :=
  new_LocalMLSyncContext token_ config_ shouldUpdateMLVersion_ concurrency_
    {| this := fresh_object; world := w; trace := [] |}.

(** [MLFactory.getMLSyncContext] *)
Definition getMLSyncContext
    (token_ : string) (config_ : MLSyncConfig)
    (shouldUpdateMLVersion_ : option bool) (w : World) : Completion unit * St :=
  construct token_ config_ (Some (default true shouldUpdateMLVersion_)) None w.

(** *** getEnteWorker *)

(** [this.f[key] = v] for one of the two pool arrays. *)
Definition store {A} (f : string)
    (get : LocalMLSyncContext -> option (JsArray A))
    (put : JsArray A -> LocalMLSyncContext -> LocalMLSyncContext)
    (key : option Z) (v : A) : Js unit :=
  let* arr := read f get in
  fun s =>
    (Normal tt,
     {| this := put (array_set arr key v) (this s);
        world := world s;
        trace := trace s ++ [Store f key] |}).

Definition getEnteWorker (id : Z) : Js (option nat) :=
  let* ws := read "enteWorkers" enteWorkers in
  let wid := js_rem id (array_length ws) in
  (if array_get ws wid is Some _ then ret tt
   else
     let* cw := getDedicatedCryptoWorker in
     store "enteComlinkWorkers" enteComlinkWorkers
       (fun a c => c <| enteComlinkWorkers := Some a |>) wid cw ;;;
     let* cws := read "enteComlinkWorkers" enteComlinkWorkers in
     let* cw := lift (match array_get cws wid with
                      | Some cw => Normal cw
                      | None => Throw (TypeError "Cannot read properties of undefined: comlink")
                      end) in
     let* h := new_comlink cw in
     store "enteWorkers" enteWorkers (fun a c => c <| enteWorkers := Some a |>) wid h) ;;;
  let* ws := read "enteWorkers" enteWorkers in
  ret (array_get ws wid).

(** *** dispose *)

(** The body has one [await].  A call clears [localFilesMap], asks the
    queue for the promise of its idleness and is suspended on it; the
    statements after the [await] run when that promise is fulfilled, on the
    instance and the pool as they are then. *)
Definition dispose : Js (Promise unit) :=
  assign "localFilesMap" (fun c => c <| localFilesMap := None |>) ;;;
  let* q := read "syncQueue" syncQueue in
  let* idle := onIdle q in
  await_promise idle (fun _ =>
    let* q := read "syncQueue" syncQueue in
    removeAllListeners q ;;;
    let* cws := read "enteComlinkWorkers" enteComlinkWorkers in
    for_of (items cws)
      (fun enteComlinkWorker =>
         match enteComlinkWorker with
         | Some cw => terminate (worker cw)
         | None => ret tt
         end)).

End Methods.

(** ** Runs of a context, and the vocabulary of the properties *)

Section Vocabulary.
Context `{Imports}.

(** The properties of the instance the constructor sets after it has
    resolved the five services. *)
Definition nothing_set_up (c : LocalMLSyncContext) : Prop :=
  outOfSyncFiles c = None /\ nSyncedFiles c = None /\ nSyncedFaces c = None
  /\ concurrency c = None /\ syncQueue c = None
  /\ enteComlinkWorkers c = None /\ enteWorkers c = None.

(** Modelled from the spec: the callers that drive the pipeline are not
    among the sources; they "enqueue per-file pipeline tasks onto the bounded
    queue", [this.syncQueue.add(task)]: one more task is queued or running. *)
Definition add_task : Js unit :=
  (let* q := read "syncQueue" syncQueue in
   with_queue q (fun pq => pq <| pq_pending := S (pq_pending pq) |>) (TaskAdded q))%js.

(** Modelled from the spec: a task "completes or fails" and then is
    neither queued nor running: the queue holds one task less. *)
Definition finish_task : Js unit :=
  (let* q := read "syncQueue" syncQueue in
   with_queue q (fun pq => pq <| pq_pending := pred (pq_pending pq) |>) (TaskFinished q))%js.

(** Modelled from the spec: the sync state of a context is written from
    outside the class, by code that is not among the sources.
    [localFilesMap] is "populated before sync", the tasks "update shared
    counters/result maps", and a fatal error is recorded in [error].  Each
    write is an assignment [context.f = v] to one of these fields. *)
Inductive FieldWrite : Type :=
| Set_localFilesMap (v : option (gmap Z EnteFile))
| Set_outOfSyncFiles (v : option (list EnteFile))
| Set_nSyncedFiles (v : option Z)
| Set_nSyncedFaces (v : option Z)
| Set_allSyncedFacesMap (v : option (gmap Z (list Face)))
| Set_tsne (v : option Tsne)
| Set_error (v : option JsError)
| Set_mlLibraryData (v : option MLLibraryData).

Definition write_field (w : FieldWrite) : Js unit :=
  match w with
  | Set_localFilesMap v => assign "localFilesMap" (fun c => c <| localFilesMap := v |>)
  | Set_outOfSyncFiles v => assign "outOfSyncFiles" (fun c => c <| outOfSyncFiles := v |>)
  | Set_nSyncedFiles v => assign "nSyncedFiles" (fun c => c <| nSyncedFiles := v |>)
  | Set_nSyncedFaces v => assign "nSyncedFaces" (fun c => c <| nSyncedFaces := v |>)
  | Set_allSyncedFacesMap v =>
      assign "allSyncedFacesMap" (fun c => c <| allSyncedFacesMap := v |>)
  | Set_tsne v => assign "tsne" (fun c => c <| tsne := v |>)
  | Set_error v => assign "error" (fun c => c <| error := v |>)
  | Set_mlLibraryData v => assign "mlLibraryData" (fun c => c <| mlLibraryData := v |>)
  end.

(** What the holders of a context do with it, in the order in which their
    jobs run on the JavaScript thread.  A call of [getEnteWorker], a task
    added or finished and a write of a field are one step each, whatever the
    order in which the callers were scheduled.  A call of [dispose] runs up
    to its [await]; [during] is what is done while it is suspended, other
    calls of [dispose] included; after that its promise settles, if the
    queue is idle by then, and otherwise the call is left suspended.  Every
    run of the program is among these: a call that resumes has in [during]
    the steps made up to the moment the queue reports idle. *)
#[warnings="-register-all"] Inductive Op : Type :=
| GetEnteWorker (id : Z)
| Dispose (during : list Op)
| AddTask
| FinishTask
| SetField (w : FieldWrite).

Fixpoint run_op (op : Op) (s : St) : St :=
  match op with
  | GetEnteWorker id => snd (getEnteWorker id s)
  | Dispose during =>
      match dispose s with
      | (Normal p, s1) =>
          let s2 := fold_left (fun s op => run_op op s) during s1 in
          match p s2 with
          | Some (_, s3) => s3
          | None => s2
          end
      | (Throw _, s1) => s1
      end
  | AddTask => snd (add_task s)
  | FinishTask => snd (finish_task s)
  | SetField w => snd (write_field w s)
  end.

Definition run_ops (ops : list Op) (s : St) : St :=
  fold_left (fun s op => run_op op s) ops s.

(** The task ids for which a run asks for a worker, those of the calls made
    while a [dispose] is suspended included. *)
Fixpoint task_ids (op : Op) : list Z :=
  match op with
  | GetEnteWorker id => [id]
  | Dispose during => flat_map task_ids during
  | _ => []
  end.

(** The number of tasks queued or running in the queue of the context. *)
Definition pending_tasks (s : St) : option nat :=
  match syncQueue (this s) with
  | Some q => pq_pending <$> queues (world s) !! q
  | None => None
  end.

(** [s0] is what a constructor returned, with concurrency [C]. *)
Definition constructed (C : Z) (s0 : St) : Prop :=
  exists token_ config_ shouldUpdate_ concurrency_ w,
    construct token_ config_ shouldUpdate_ concurrency_ w = (Normal tt, s0)
    /\ concurrency (this s0) = Some C.

(** The fields that are set once, by the constructor. *)
Definition immutable_part (c : LocalMLSyncContext) :=
  (token c, config c, shouldUpdateMLVersion c,
   (faceDetectionService c, faceCropService c, faceAlignmentService c,
    faceEmbeddingService c, faceClusteringService c),
   concurrency c).


(** The key [id % this.enteWorkers.length] under which a task id is served. *)
Definition slot_of (s : St) (id : Z) : option Z :=
  match enteWorkers (this s) with
  | Some ws => js_rem id (array_length ws)
  | None => None
  end.

(** [this.enteWorkers[key]] and [this.enteComlinkWorkers[key]] *)
Definition slot_handle (s : St) (key : option Z) : option nat :=
  match enteWorkers (this s) with
  | Some ws => array_get ws key
  | None => None
  end.

Definition slot_worker (s : St) (key : option Z) : option ComlinkWorker :=
  match enteComlinkWorkers (this s) with
  | Some cws => array_get cws key
  | None => None
  end.

(** The error the next call of [getDedicatedCryptoWorker] fails with, if it
    fails. *)
Definition next_spawn_error (w : World) : option JsError :=
  match spawnOutcomes w with
  | Some e :: _ => Some e
  | _ => None
  end.

(** The number of web workers that exist in [s'] and did not in [s]. *)
Definition spawned_between (s s' : St) : nat :=
  (length (workers (world s')) - length (workers (world s)))%nat.

(** The number of web workers created, along a run, by the calls served
    under [key]; the calls made while a [dispose] is suspended count as
    the others. *)
Fixpoint op_spawns (key : option Z) (op : Op) (s : St) : nat :=
  match op with
  | GetEnteWorker id =>
      if decide (slot_of s id = key) then spawned_between s (run_op op s) else 0%nat
  | Dispose during =>
      match dispose s with
      | (Normal _, s1) =>
          (fix spawns (ops : list Op) (s : St) : nat :=
             match ops with
             | [] => 0%nat
             | op :: rest => (op_spawns key op s + spawns rest (run_op op s))%nat
             end) during s1
      | (Throw _, _) => 0%nat
      end
  | _ => 0%nat
  end.

Fixpoint slot_spawns (key : option Z) (ops : list Op) (s : St) : nat :=
  match ops with
  | [] => 0%nat
  | op :: rest => (op_spawns key op s + slot_spawns key rest (run_op op s))%nat
  end.

(** The workers of the populated elements of a pool array, in index order. *)
Definition pool_workers (cws : JsArray ComlinkWorker) : list nat :=
  worker <$> omap id (items cws).

(** What holds of the pool of every context from its construction on. *)
Definition pool_inv (C : Z) (s : St) : Prop :=
  1 <= C
  /\ concurrency (this s) = Some C
  /\ (exists ws cws,
        enteWorkers (this s) = Some ws /\ enteComlinkWorkers (this s) = Some cws
        /\ array_length ws = C /\ array_length cws = C
        /\ forall key,
             match array_get ws key with
             | Some h =>
                 exists cw, array_get cws key = Some cw
                            /\ remotes (world s) !! h = Some (worker cw)
                            /\ (worker cw < length (workers (world s)))%nat
             | None => array_get cws key = None
             end)
  /\ (exists q, syncQueue (this s) = Some q /\ (q < length (queues (world s)))%nat).

(** *** What one call does

    The five ways a call of [getEnteWorker] can go, read off its body. *)

(** The world after [getDedicatedCryptoWorker] has returned a worker. *)
Definition spawn_world (w : World) : World :=
  w <| workers := workers w ++ [true] |> <| spawnOutcomes := tail (spawnOutcomes w) |>.

Inductive getEnteWorker_run (id : Z) (s : St) : Completion (option nat) -> St -> Prop :=
| gew_no_array :
    enteWorkers (this s) = None ->
    getEnteWorker_run id s
      (Throw (TypeError "Cannot read properties of undefined: enteWorkers")) s
| gew_hit ws h :
    enteWorkers (this s) = Some ws ->
    array_get ws (js_rem id (array_length ws)) = Some h ->
    getEnteWorker_run id s (Normal (Some h)) s
| gew_spawn_fails ws e rest :
    enteWorkers (this s) = Some ws ->
    array_get ws (js_rem id (array_length ws)) = None ->
    spawnOutcomes (world s) = Some e :: rest ->
    getEnteWorker_run id s (Throw e)
      {| this := this s;
         world := (world s) <| spawnOutcomes := rest |>;
         trace := trace s ++ [SpawnFailed e] |}
| gew_no_pool ws :
    enteWorkers (this s) = Some ws ->
    array_get ws (js_rem id (array_length ws)) = None ->
    next_spawn_error (world s) = None ->
    enteComlinkWorkers (this s) = None ->
    getEnteWorker_run id s
      (Throw (TypeError "Cannot read properties of undefined: enteComlinkWorkers"))
      {| this := this s;
         world := spawn_world (world s);
         trace := trace s ++ [SpawnWorker (length (workers (world s)))] |}
| gew_creates ws cws :
    enteWorkers (this s) = Some ws ->
    array_get ws (js_rem id (array_length ws)) = None ->
    next_spawn_error (world s) = None ->
    enteComlinkWorkers (this s) = Some cws ->
    getEnteWorker_run id s (Normal (Some (length (remotes (world s)))))
      {| this := (this s)
           <| enteComlinkWorkers :=
                Some (array_set cws (js_rem id (array_length ws))
                        {| comlink := length (workers (world s));
                           worker := length (workers (world s)) |}) |>
           <| enteWorkers :=
                Some (array_set ws (js_rem id (array_length ws))
                        (length (remotes (world s)))) |>;
         world := (spawn_world (world s))
           <| remotes := remotes (world s) ++ [length (workers (world s))] |>;
         trace := trace s
                  ++ [SpawnWorker (length (workers (world s)));
                      Store "enteComlinkWorkers" (js_rem id (array_length ws));
                      NewRemote (length (workers (world s))) (length (remotes (world s)));
                      Store "enteWorkers" (js_rem id (array_length ws))] |}.

(** *** What [dispose] does *)

(** [terminate()] on each of the workers [ws], in order. *)
Definition terminate_all (ws : list nat) (running : list bool) : list bool :=
  fold_left (fun running w => <[w := false]> running) ws running.

(** The state a call of [dispose] leaves when it returns to its caller:
    [localFilesMap] is cleared, and [events] is what else the call did. *)
Definition cleared (s : St) (events : list Event) : St :=
  {| this := (this s) <| localFilesMap := None |>;
     world := world s;
     trace := trace s ++ Assign "localFilesMap" :: events |}.

(** The statements of [dispose] after its [await]. *)
Definition teardown : Js unit :=
  (let* q := read "syncQueue" syncQueue in
   removeAllListeners q ;;;
   let* cws := read "enteComlinkWorkers" enteComlinkWorkers in
   for_of (items cws)
     (fun enteComlinkWorker =>
        match enteComlinkWorker with
        | Some cw => terminate (worker cw)
        | None => ret tt
        end))%js.

(** The promise of a call of [dispose] that was suspended on the queue
    [q]: it settles when the queue is idle, by these statements. *)
Definition dispose_rest (q : nat) : Promise unit :=
  and_then (queue_idle q) (fun _ => teardown).

(** The three ways a call of [dispose] can go up to its [await], read off
    its body. *)
Inductive dispose_run (s : St) : Completion (Promise unit) -> St -> Prop :=
| dis_no_queue :
    syncQueue (this s) = None ->
    dispose_run s (Throw (TypeError "Cannot read properties of undefined: syncQueue"))
      (cleared s [])
| dis_not_a_queue q :
    syncQueue (this s) = Some q ->
    queues (world s) !! q = None ->
    dispose_run s (Throw (TypeError "not a queue")) (cleared s [])
| dis_suspended q pq :
    syncQueue (this s) = Some q ->
    queues (world s) !! q = Some pq ->
    dispose_run s (Normal (dispose_rest q)) (cleared s [AwaitIdle q]).

(** A queue after [removeAllListeners]. *)
Definition silenced (pq : PQueue) : PQueue := pq <| pq_listeners := [] |>.

(** The four ways the statements after the [await] can go. *)
Inductive teardown_run (s : St) : Completion unit -> St -> Prop :=
| td_no_queue :
    syncQueue (this s) = None ->
    teardown_run s (Throw (TypeError "Cannot read properties of undefined: syncQueue")) s
| td_not_a_queue q :
    syncQueue (this s) = Some q ->
    queues (world s) !! q = None ->
    teardown_run s (Throw (TypeError "not a queue")) s
| td_no_pool q pq :
    syncQueue (this s) = Some q ->
    queues (world s) !! q = Some pq ->
    enteComlinkWorkers (this s) = None ->
    teardown_run s
      (Throw (TypeError "Cannot read properties of undefined: enteComlinkWorkers"))
      {| this := this s;
         world := (world s) <| queues := <[q := silenced pq]> (queues (world s)) |>;
         trace := trace s ++ [RemoveAllListeners q] |}
| td_done q pq cws :
    syncQueue (this s) = Some q ->
    queues (world s) !! q = Some pq ->
    enteComlinkWorkers (this s) = Some cws ->
    teardown_run s (Normal tt)
      {| this := this s;
         world := (world s)
           <| queues := <[q := silenced pq]> (queues (world s)) |>
           <| workers := terminate_all (pool_workers cws) (workers (world s)) |>;
         trace := trace s ++ [RemoveAllListeners q] ++ (Terminate <$> pool_workers cws) |}.

(** The state in which a promise of [dispose] finds the queue [q] idle. *)
Definition idled (q : nat) (s : St) : St :=
  {| this := this s; world := world s; trace := trace s ++ [QueueIdle q] |}.

(** The queue a constructor leaves behind: created empty, then handed to
    the statistics hook. *)
Definition fresh_queue (c : Z) : PQueue :=
  logQueueStats {| pq_concurrency := c; pq_pending := 0; pq_listeners := [] |} "sync".

(** The effects of a constructor that returns, where [q] is its queue. *)
Definition constructor_trace (c : Z) (q : nat) : list Event :=
  [Assign "token"; Assign "config"; Assign "shouldUpdateMLVersion";
   Assign "faceDetectionService"; Assign "faceCropService";
   Assign "faceAlignmentService"; Assign "faceEmbeddingService";
   Assign "faceClusteringService"; Assign "outOfSyncFiles";
   Assign "nSyncedFiles"; Assign "nSyncedFaces"; Assign "concurrency";
   ConsoleLog "Using concurrency: " c; NewPQueue q; Assign "syncQueue";
   LogQueueStats q "sync"; Assign "enteComlinkWorkers"; Assign "enteWorkers"].

End Vocabulary.

(** ** The file helpers of the module

    The second half of [machineLearningFactory.ts] names, classifies and
    reads a [File] picked for upload.  The helpers keep no state: an
    [async] helper is a function to a [Completion].  Their [reader]
    argument is handed from one helper to the next and used by none of
    those modelled here; the model leaves it out. *)

(** [await c] followed by the rest of the body. *)
Definition await {A B} (c : Completion A) (k : A -> Completion B) : Completion B :=
  match c with
  | Normal a => k a
  | Throw e => Throw e
  end.

Declare Scope async_scope.
Delimit Scope async_scope with async.
Notation "'let!' x := c 'in' k" := (await c (fun x => k))
  (at level 10, x name, c at level 100, k at level 200) : async_scope.

(** *** Slices, strings *)

(** The [start] or [end] of a [slice], made relative to a length: a negative
    index counts from the end, and the result is clamped to [0 .. len]. *)
Definition slice_index (len i : Z) : Z :=
  if i <? 0 then Z.max (len + i) 0 else Z.min i len.

(** [xs.slice(start, end)], of a string and of a [Blob] alike. *)
Definition js_slice {A} (xs : list A) (start end_ : Z) : list A :=
  let len := Z.of_nat (length xs) in
  let from := slice_index len start in
  let to := slice_index len end_ in
  take (Z.to_nat (to - from)) (drop (Z.to_nat from) xs).

(** A string is its sequence of code units; the code units of this model
    are those below 256. *)
Definition string_slice (s : string) (start end_ : Z) : string :=
  string_of_list_ascii (js_slice (list_ascii_of_string s) start end_).

(** [s.endsWith(suffix)] *)
Definition endsWith (s suffix : string) : bool :=
  let l := list_ascii_of_string s in
  let x := list_ascii_of_string suffix in
  (length x <=? length l)%nat && bool_decide (drop (length l - length x) l = x).

(** [s.split(sep)[0]] for a separator of one code unit: what comes before
    its first occurrence, or all of [s]. *)
Fixpoint split_head (sep : ascii) (s : string) : string :=
  match s with
  | EmptyString => EmptyString
  | String c rest => if Ascii.eqb c sep then EmptyString else String c (split_head sep rest)
  end.

(** [toLowerCase] on one code unit below 256: the letters [A-Z] and the
    capital letters of Latin-1 ([U+00C0 .. U+00DE] without the
    multiplication sign [U+00D7]) move up by 32, the rest stays. *)
Definition lower_code_unit (c : ascii) : ascii :=
  let n := N_of_ascii c in
  if ((65 <=? n) && (n <=? 90) || (192 <=? n) && (n <=? 214)
      || (216 <=? n) && (n <=? 222))%N
  then ascii_of_N (n + 32)
  else c.

Fixpoint toLowerCase (s : string) : string :=
  match s with
  | EmptyString => EmptyString
  | String c rest => String (lower_code_unit c) (toLowerCase rest)
  end.

(** The capital of a lower-case letter. *)
Definition upper_of (l : ascii) : ascii := ascii_of_N (N_of_ascii l - 32).

(** [s] spells the lower-case [word], each letter in either case. *)
Fixpoint spells (word s : string) : Prop :=
  match word, s with
  | EmptyString, EmptyString => True
  | String l word', String c s' => (c = l \/ c = upper_of l) /\ spells word' s'
  | _, _ => False
  end.

(** The words made of the letters [a] to [z]. *)
Fixpoint lower_case_word (word : string) : Prop :=
  match word with
  | EmptyString => True
  | String l word' => (97 <= N_of_ascii l <= 122)%N /\ lower_case_word word'
  end.

(** [Math.ceil(a / b)] on integers.  A division by zero gives [Infinity] or
    [NaN], written [None].  For integers below [2 ^ 53] the division of
    doubles rounds the quotient without crossing an integer, so the result
    is the ceiling of the exact quotient. *)
Definition ceil_div (a b : Z) : option Z :=
  if b =? 0 then None else Some (- ((- a) / b)).

(** *** Files, workers and the imports of the helpers *)

(** A [File]: of a file the helpers read the name, the size and the
    contents.  A [Blob] is a sequence of bytes. *)
Record File : Type := {
  name : string;
  bytes : list Byte.byte
}.

(** [file.size] *)
Definition file_size (file : File) : Z := Z.of_nat (length (bytes file)).

(** The [worker] argument of the helpers, an object they call one method
    of: [worker.getUint8ArrayView(blob)] resolves to the bytes the worker
    read from the blob, or rejects. *)
Record FileWorker : Type := {
  getUint8ArrayView : list Byte.byte -> Completion (list Byte.byte)
}.

(** Modelled from the spec: the enum [FILE_TYPE] of [services/fileService]
    is not among the sources; these are the three members this module
    names. *)
Inductive FILE_TYPE : Type := IMAGE | VIDEO | OTHERS.

#[global] Instance FILE_TYPE_eq_dec : EqDecision FILE_TYPE.
Proof. solve_decision. Defined.

(** What [FileType.fromBuffer] resolves to when it recognises the bytes. *)
Record FileTypeResult : Type := {
  ext : string;
  mime : string
}.

(** Modelled from the spec: the spec leaves "generic file-type sniffing and
    chunked file reading" to external collaborators.  The two size limits of
    [./uploadService] and the sniffer of the [file-type] package are not
    among the sources and stay arbitrary. *)
Class UploadImports : Type := {
  MULTIPART_PART_SIZE : Z;
  FILE_READER_CHUNK_SIZE : Z;
  FileType_fromBuffer : list Byte.byte -> Completion (option FileTypeResult)
}.

Definition TYPE_VIDEO : string := "video".

Definition TYPE_IMAGE : string := "image".

Definition EDITED_FILE_SUFFIX : string := "-edited".

Definition CHUNK_SIZE_FOR_TYPE_DETECTION : Z := 4100.

(** [{ fileType, mimeType }] *)
Record FileTypeInfo : Type := {
  fileType : FILE_TYPE;
  mimeType : option string
}.

(** *** The chunk reader

    The generator object made by [fileChunkReaderMaker]: its arguments and
    its local [offset], and whether its body has finished, by a [return] or
    by an error. *)
Record ChunkReader : Type := {
  cr_worker : FileWorker;
  cr_file : File;
  cr_chunkSize : Z;
  cr_offset : Z;
  cr_finished : bool
}.

Definition fileChunkReaderMaker (worker : FileWorker) (file : File) (chunkSize : Z)
  : ChunkReader :=
  {| cr_worker := worker; cr_file := file; cr_chunkSize := chunkSize;
     cr_offset := 0; cr_finished := false |}.

(** One call of [next()]: the body runs up to its next [yield] ([Some], the
    chunk), to its [return] ([None], [done]) or to an error.  The statement
    [offset += chunkSize] after the [yield] runs when the generator is
    resumed; the model runs it with the [yield], which no caller can tell
    apart. *)
Definition next (g : ChunkReader) : Completion (option (list Byte.byte)) * ChunkReader :=
  let finished :=
    {| cr_worker := cr_worker g; cr_file := cr_file g; cr_chunkSize := cr_chunkSize g;
       cr_offset := cr_offset g; cr_finished := true |} in
  if cr_finished g then (Normal None, g)
  else if cr_offset g <? file_size (cr_file g) then
    let blob := js_slice (bytes (cr_file g)) (cr_offset g) (cr_chunkSize g + cr_offset g) in
    match getUint8ArrayView (cr_worker g) blob with
    | Normal fileChunk =>
        (Normal (Some fileChunk),
         {| cr_worker := cr_worker g; cr_file := cr_file g; cr_chunkSize := cr_chunkSize g;
            cr_offset := cr_offset g + cr_chunkSize g; cr_finished := false |})
    | Throw e => (Throw e, finished)
    end
  else (Normal None, finished).

(** [{ stream, chunkCount }]: a [ReadableStream] is its underlying source,
    here the generator its [pull] draws from. *)
Record FileStream : Type := {
  stream : ChunkReader;
  chunkCount : option Z
}.

(** How a stream ends for its consumer; [StillOpen] is a stream that has
    neither closed nor failed after the given number of reads. *)
Inductive StreamEnd : Type :=
| Closed
| Errored (e : JsError)
| StillOpen.

(** What a consumer gets that reads the stream until it closes or fails, in
    at most [reads] reads.  Each read makes the stream [pull]: one [next()]
    of the generator, whose chunk is enqueued and read, whose [done] closes
    the stream and whose error fails it. *)
Fixpoint read_stream (reads : nat) (g : ChunkReader) : list (list Byte.byte) * StreamEnd :=
  match reads with
  | O => ([], StillOpen)
  | S reads' =>
      match next g with
      | (Normal (Some chunk), g') =>
          let (chunks, fin) := read_stream reads' g' in (chunk :: chunks, fin)
      | (Normal None, _) => ([], Closed)
      | (Throw e, _) => ([], Errored e)
      end
  end.

(** The generator after some [next()] calls, at [offset]. *)
Definition reader_at (worker : FileWorker) (file : File) (chunkSize offset : Z)
  : ChunkReader :=
  {| cr_worker := worker; cr_file := file; cr_chunkSize := chunkSize;
     cr_offset := offset; cr_finished := false |}.

(** A worker that reads every blob: it resolves to the bytes of the blob. *)
Definition reads_every_blob (worker : FileWorker) : Prop :=
  forall blob, getUint8ArrayView worker blob = Normal blob.

(** A worker that may fail, and reads the bytes of the blob when it does
    not. *)
Definition reads_truly (worker : FileWorker) : Prop :=
  forall blob data, getUint8ArrayView worker blob = Normal data -> data = blob.

(** What [getFileData] resolves to. *)
Inductive FileData : Type :=
| Whole (data : list Byte.byte)
| Streamed (s : FileStream).

Section FileHelpers.
Context `{UploadImports}.
Open Scope async_scope.

Definition getFileStream (worker : FileWorker) (file : File) (chunkSize : Z) : FileStream :=
  let fileChunkReader := fileChunkReaderMaker worker file chunkSize in
  {| stream := fileChunkReader;
     chunkCount := ceil_div (file_size file) chunkSize |}.

Definition getFileData (worker : FileWorker) (file : File) : Completion FileData :=
  if MULTIPART_PART_SIZE <? file_size file
  then Normal (Streamed (getFileStream worker file FILE_READER_CHUNK_SIZE))
  else
    let! data := getUint8ArrayView worker (bytes file) in
    Normal (Whole data).

Definition getMimeTypeFromBlob (worker : FileWorker) (fileBlob : list Byte.byte)
  : Completion (option string) :=
  let! initialFiledata := getUint8ArrayView worker fileBlob in
  let! result := FileType_fromBuffer initialFiledata in
  Normal (mime <$> result).

Definition getMimeType (worker : FileWorker) (file : File) : Completion (option string) :=
  let fileChunkBlob := js_slice (bytes file) 0 CHUNK_SIZE_FOR_TYPE_DETECTION in
  getMimeTypeFromBlob worker fileChunkBlob.

Definition getFileType (worker : FileWorker) (receivedFile : File)
  : Completion FileTypeInfo :=
  let! mimeType := getMimeType worker receivedFile in
  let majorType := (fun m => toLowerCase (split_head "/" m)) <$> mimeType in
  let fileType :=
    match majorType with
    | Some t =>
        if String.eqb t TYPE_IMAGE then IMAGE
        else if String.eqb t TYPE_VIDEO then VIDEO
        else OTHERS
    | None => OTHERS
    end in
  Normal {| fileType := fileType; mimeType := mimeType |}.

End FileHelpers.

Definition getFileOriginalName (file : File) : string :=
  let isEditedFile := endsWith (name file) EDITED_FILE_SUFFIX in
  if isEditedFile
  then string_slice (name file) 0 (-1 * Z.of_nat (String.length EDITED_FILE_SUFFIX))
  else name file.

(** ** More vocabulary for the pool *)

Section PoolVocabulary.
Context `{Imports}.

(** The keys that are indices of an array; under any other key a value is
    kept as a property of the array object, outside its elements. *)
Definition is_index (key : option Z) : bool :=
  match key with
  | Some z => 0 <=? z
  | None => false
  end.

(** The number of values an array object holds: its populated elements and
    its other properties. *)
Definition stored {A} (arr : JsArray A) : nat :=
  (populated arr + size (props arr))%nat.

(** No two keys of the pool hold the same handle, or workers that are the
    same. *)
Definition pool_distinct (s : St) : Prop :=
  (forall key key' h,
     slot_handle s key = Some h -> slot_handle s key' = Some h -> key = key')
  /\ (forall key key' cw cw',
        slot_worker s key = Some cw -> slot_worker s key' = Some cw' ->
        worker cw = worker cw' -> key = key').

(** The workers kept outside the elements of the pool array are running. *)
Definition outside_running (s : St) : Prop :=
  forall key cw,
    is_index key = false -> slot_worker s key = Some cw ->
    workers (world s) !! worker cw = Some true.

(** The pool holds [stored] workers on top of the [base] that existed
    before it; with [indexed], all of them are elements of the array. *)
Definition pool_counted (base : nat) (indexed : bool) (s : St) : Prop :=
  exists cws,
    enteComlinkWorkers (this s) = Some cws
    /\ length (workers (world s)) = (base + stored cws)%nat
    /\ (indexed = true -> props cws = ∅).

(** What holds of the pool of every context from its construction on, put
    together. *)
Definition pool_facts (C : Z) (base : nat) (indexed : bool) (s : St) : Prop :=
  pool_inv C s /\ pool_distinct s /\ outside_running s /\ pool_counted base indexed s.

(** The runs whose task ids are not negative. *)
Definition nonneg_ids (ops : list Op) : Prop :=
  Forall (fun id => 0 <= id) (flat_map task_ids ops).

(** The state in which a call of [dispose] made in [s] finds the context
    once the steps [during], made while it was suspended, are done. *)
Definition after_await (during : list Op) (s : St) : St :=
  run_ops during (snd (dispose s)).

(** The fields of the instance other than the two pool arrays. *)
Definition outside_pool (c : LocalMLSyncContext) :=
  (immutable_part c, localFilesMap c, outOfSyncFiles c, nSyncedFiles c, nSyncedFaces c,
   allSyncedFacesMap c, tsne c, error c, mlLibraryData c, syncQueue c).

(** The workers of the pool were created after the first [base] workers of
    the world. *)
Definition pool_owned (base : nat) (s : St) : Prop :=
  (base <= length (workers (world s)))%nat
  /\ forall key cw, slot_worker s key = Some cw -> (base <= worker cw)%nat.

(** What of the world is the same in [s'] as in [s]: the first [base]
    workers, the remotes of [s], and every queue but [queue]. *)
Definition untouched (base queue : nat) (s s' : St) : Prop :=
  (forall w, (w < base)%nat -> workers (world s') !! w = workers (world s) !! w)
  /\ (forall h, (h < length (remotes (world s)))%nat ->
        remotes (world s') !! h = remotes (world s) !! h)
  /\ (forall q', q' <> queue -> queues (world s') !! q' = queues (world s) !! q').

End PoolVocabulary.

(** ** The collection helpers

    The pure helpers of [src/utils/collection/index.ts]. *)

Module Collections.

(** Modelled from the spec: [types/collection], [types/user] and
    [constants/collection] are not among the sources, the spec leaves
    "collection CRUD operations" to external collaborators.  Of a
    collection the helpers read the id, the id of the owner and the type;
    of the types they name [favorites] only. *)
Inductive CollectionType : Type :=
| favorites
| other (name : string).

#[global] Instance CollectionType_eq_dec : EqDecision CollectionType.
Proof. solve_decision. Defined.

Record User : Type := { user_id : Z }.

Record Collection : Type := {
  id : Z;
  owner : User;
  type : CollectionType
}.

(** [{ label, value }] *)
Record SelectOption : Type := {
  label : string;
  value : Z
}.

Definition getSelectedCollection (collectionID : Z) (collections : list Collection)
  : option Collection :=
  List.find (fun collection => id collection =? collectionID) collections.

(** [user] is what [getData(LS_KEYS.USER)] returns from the local storage,
    [None] when it holds no user. *)
Definition isSharedCollection (user : option User)
    (collectionID : Z) (collections : list Collection) : Completion bool :=
  let collection := getSelectedCollection collectionID collections in
  match collection with
  | None => Normal false
  | Some collection =>
      match user with
      | Some user => Normal (negb (user_id (owner collection) =? user_id user))
      | None => Throw (TypeError "Cannot read properties of null: id")
      end
  end.

Definition isFavoriteCollection (collectionID : Z) (collections : list Collection) : bool :=
  let collection := getSelectedCollection collectionID collections in
  match collection with
  | None => false
  | Some collection => bool_decide (type collection = favorites)
  end.

(** [i.toString()] of an integer is its decimal numeral. *)
Definition _intSelectOption (i : Z) : SelectOption :=
  {| label := pretty i; value := i |}.

(** [[...Array(upperLimit).reverse().keys()].map(...)]: the array of holes
    is reversed in place, and [keys()] runs over its indices. *)
Definition selectIntOptions (upperLimit : Z) : Completion (list SelectOption) :=
  match @new_Array unit upperLimit with
  | Normal arr =>
      let reversed := mkArray (reverse (items arr)) (props arr) in
      let keys := seqZ 0 (array_length reversed) in
      Normal ((fun i => _intSelectOption (i + 1)) <$> keys)
  | Throw e => Throw e
  end.

(** [IsArchived] is a helper of [utils/magicMetadata], not among the
    sources. *)
Definition getArchivedCollections (IsArchived : Collection -> bool)
    (collections : list Collection) : list Z :=
  id <$> filter (fun collection => IsArchived collection = true) collections.

End Collections.

(** ** The collection operations

    The helpers of [src/utils/collection/index.ts] that call out: to the
    collection service, to the file service, and to the callbacks of the
    gallery. *)

Module CollectionOps.

(** Modelled from the spec: the spec leaves "collection CRUD operations"
    and "remote file listing/download" to external collaborators, and the
    types of files, selections and magic metadata, the error names and
    codes and the texts of the dialogs are not among the sources.  Of a
    file the helpers read [collectionID]; of a selection [collectionID]
    and, through [getSelectedFiles], the files it selects; of a collection
    its [key] and its [magicMetadata], [None] when it has none, and of that
    the [visibility]; of an error its [status] as a string, [None] when it
    has none. *)
Class Imports : Type := {
  EnteFile : Type;
  SelectedState : Type;
  MagicMetadata : Type;
  file_collectionID : EnteFile -> Z;
  selected_collectionID : SelectedState -> Z;
  getSelectedFiles : SelectedState -> list EnteFile -> list EnteFile;
  collection_key : Collections.Collection -> string;
  collection_magicMetadata : Collections.Collection -> option MagicMetadata;
  data_visibility : MagicMetadata -> Z;
  error_status : JsError -> option string;
  NEW_COLLECTION_MAGIC_METADATA : MagicMetadata;
  VISIBLE : Z;
  ARCHIVED : Z;
  FORBIDDEN : string;
  INVALID_COLLECTION_OPERATION : string;
  ERROR : string;
  DELETE_COLLECTION_FAILED : string;
  NOT_FILE_OWNER : string;
  UNKNOWN_ERROR : string
}.

(** [enum COLLECTION_OPS_TYPE]: a numeric enum, numbered from zero. *)
Module COLLECTION_OPS_TYPE.

Definition ADD : Z := 0.

Definition MOVE : Z := 1.

Definition REMOVE : Z := 2.

Definition RESTORE : Z := 3.

End COLLECTION_OPS_TYPE.

Section Calls.
Context `{Imports}.

(** [{ title, staticBackdrop, close: { variant }, content }]; a dialog
    without [staticBackdrop] has [None] there. *)
Record DialogMessage : Type := {
  title : string;
  staticBackdrop : option bool;
  close_variant : string;
  content : string
}.

(** The calls the helpers make, in the order they are made. *)
Inductive Call : Type :=
| SetCollectionSelectorView (value : bool)
| AddToCollection (collection : Collections.Collection) (files : list EnteFile)
| MoveToCollection (fromCollection : Z) (collection : Collections.Collection)
    (files : list EnteFile)
| RemoveFromCollection (collection : Collections.Collection) (files : list EnteFile)
| RestoreToCollection (collection : Collections.Collection) (files : list EnteFile)
| SetActiveCollection (id : Z)
| GetLocalFiles
| DownloadFiles (files : list EnteFile)
| LogError (e : JsError) (msg : string)
| SetDialogMessage (message : DialogMessage)
| StartLoading
| FinishLoading
| SyncWithRemote
| UpdateMagicMetadataProps (metadata : MagicMetadata) (key : string) (visibility : Z)
| UpdateCollectionMagicMetadata (collection : Collections.Collection)
    (magicMetadata : MagicMetadata).

(** How the collaborators answer: whether a call of a service, a download
    or [syncWithRemote] resolves or rejects, and what [getLocalFiles] and
    [updateMagicMetadataProps] resolve to.  The callbacks of the gallery
    and [logError] return. *)
Record Answers : Type := {
  answer : Call -> Completion unit;
  localFiles : Completion (list EnteFile);
  updatedMetadata : MagicMetadata -> string -> Z -> Completion MagicMetadata
}.

(** A helper makes calls and ends with a value or an error. *)
Definition Eff (A : Type) : Type := list Call -> Completion A * list Call.

Definition eff_ret {A} (a : A) : Eff A := fun calls => (Normal a, calls).

Definition eff_throw {A} (e : JsError) : Eff A := fun calls => (Throw e, calls).

Definition eff_bind {A B} (m : Eff A) (k : A -> Eff B) : Eff B :=
  fun calls =>
    match m calls with
    | (Normal a, calls') => k a calls'
    | (Throw e, calls') => (Throw e, calls')
    end.

(** [try { body } catch (e) { handler(e) }] *)
Definition try_catch {A} (body : Eff A) (handler : JsError -> Eff A) : Eff A :=
  fun calls =>
    match body calls with
    | (Normal a, calls') => (Normal a, calls')
    | (Throw e, calls') => handler e calls'
    end.

(** [try { body } finally { finalizer }]: the finalizer runs however the
    body ends, also by a [return]; when it fails, its error replaces the
    outcome of the body. *)
Definition try_finally {A} (body : Eff A) (finalizer : Eff unit) : Eff A :=
  fun calls =>
    match body calls with
    | (outcome, calls') =>
        match finalizer calls' with
        | (Normal _, calls'') => (outcome, calls'')
        | (Throw e, calls'') => (Throw e, calls'')
        end
    end.

(** A call of a callback, which returns. *)
Definition call (c : Call) : Eff unit := fun calls => (Normal tt, calls ++ [c]).

(** [await] of a call of a collaborator, which may reject. *)
Definition await_call (answers : Answers) (c : Call) : Eff unit :=
  fun calls => (answer answers c, calls ++ [c]).

(** [await] of a call that resolves to a value. *)
Definition await_value {A} (c : Call) (outcome : Completion A) : Eff A :=
  fun calls => (outcome, calls ++ [c]).

Definition handleCollectionOps (answers : Answers)
    (type : Z) (selected : SelectedState) (files : list EnteFile)
    (collection : Collections.Collection) : Eff unit :=
  eff_bind (call (SetCollectionSelectorView false)) (fun _ =>
  let selectedFiles := getSelectedFiles selected files in
  eff_bind
    (if type =? COLLECTION_OPS_TYPE.ADD then
       await_call answers (AddToCollection collection selectedFiles)
     else if type =? COLLECTION_OPS_TYPE.MOVE then
       await_call answers
         (MoveToCollection (selected_collectionID selected) collection selectedFiles)
     else if type =? COLLECTION_OPS_TYPE.REMOVE then
       await_call answers (RemoveFromCollection collection selectedFiles)
     else if type =? COLLECTION_OPS_TYPE.RESTORE then
       await_call answers (RestoreToCollection collection selectedFiles)
     else eff_throw (Error INVALID_COLLECTION_OPERATION)) (fun _ =>
  call (SetActiveCollection (Collections.id collection)))).

Definition downloadCollection (answers : Answers) (collectionID : Z) : Eff unit :=
  try_catch
    (eff_bind (await_value GetLocalFiles (localFiles answers)) (fun allFiles =>
     let collectionFiles :=
       filter (fun file => file_collectionID file = collectionID) allFiles in
     await_call answers (DownloadFiles collectionFiles)))
    (fun e =>
       eff_bind (call (LogError e "download collection failed ")) (fun _ =>
       call (SetDialogMessage
               {| title := ERROR; staticBackdrop := None; close_variant := "danger";
                  content := DELETE_COLLECTION_FAILED |}))).

(** The visibility the helper asks for: [VISIBLE] when the collection has
    a visibility that is truthy, that is not zero, and [ARCHIVED] when the
    visibility is zero or the collection has no magic metadata. *)
Definition toggled_visibility (collection : Collections.Collection) : Z :=
  match collection_magicMetadata collection with
  | Some metadata => if data_visibility metadata =? 0 then ARCHIVED else VISIBLE
  | None => ARCHIVED
  end.

Definition changeCollectionVisibilityHelper (answers : Answers)
    (collection : Collections.Collection) : Eff unit :=
  eff_bind (call StartLoading) (fun _ =>
  try_finally
    (try_catch
       (let visibility := toggled_visibility collection in
        let metadata :=
          default NEW_COLLECTION_MAGIC_METADATA (collection_magicMetadata collection) in
        eff_bind
          (await_value
             (UpdateMagicMetadataProps metadata (collection_key collection) visibility)
             (updatedMetadata answers metadata (collection_key collection) visibility))
          (fun magicMetadata =>
             await_call answers (UpdateCollectionMagicMetadata collection magicMetadata)))
       (fun e =>
          eff_bind (call (LogError e "change file visibility failed")) (fun _ =>
          if bool_decide (error_status e = Some FORBIDDEN) then
            call (SetDialogMessage
                    {| title := ERROR; staticBackdrop := Some true;
                       close_variant := "danger"; content := NOT_FILE_OWNER |})
          else
            call (SetDialogMessage
                    {| title := ERROR; staticBackdrop := Some true;
                       close_variant := "danger"; content := UNKNOWN_ERROR |}))))
    (eff_bind (await_call answers SyncWithRemote) (fun _ => call FinishLoading))).

(** The collection a call of the collection service changes, and the
    files it is given. *)
Definition service_target (c : Call) : option (Collections.Collection * list EnteFile) :=
  match c with
  | AddToCollection collection files
  | MoveToCollection _ collection files
  | RemoveFromCollection collection files
  | RestoreToCollection collection files => Some (collection, files)
  | _ => None
  end.

(** The dialogs among some calls. *)
Definition dialogs (calls : list Call) : list DialogMessage :=
  omap (fun c => match c with SetDialogMessage message => Some message | _ => None end) calls.

End Calls.

End CollectionOps.

(** ** A concrete setting

    An instance of the imports, a configuration and a world to run the model
    in: three workers' worth of default concurrency, a statistics hook that
    attaches one listener, and a queue that wants a concurrency of at least
    one. *)

Definition demo_imports : Imports :=
  {| EnteFile := string;
     Face := Z;
     MLLibraryData := string;
     Tsne := unit;
     CONCURRENCY := 3;
     CONCURRENCY_pos := ltac:(done);
     logQueueStats := fun pq name =>
       {| pq_concurrency := pq_concurrency pq;
          pq_pending := pq_pending pq;
          pq_listeners := name :: pq_listeners pq |};
     PQueue_rejects := fun c =>
       if c <? 1 then Some (TypeError "Expected `concurrency` to be a number from 1 and up")
       else None |}.

Definition demo_config : MLSyncConfig :=
  {| faceDetection := {| method := "BlazeFace" |};
     faceCrop := {| method := "ArcFace" |};
     faceAlignment := {| method := "ArcFace" |};
     faceEmbedding := {| method := "MobileFaceNet" |};
     faceClustering := {| method := "Hdbscan" |} |}.

Definition bad_config : MLSyncConfig :=
  {| faceDetection := {| method := "BlazeFace" |};
     faceCrop := {| method := "ArcFace" |};
     faceAlignment := {| method := "ArcFace" |};
     faceEmbedding := {| method := "FaceNet" |};
     faceClustering := {| method := "Hdbscan" |} |}.

Definition empty_world : World :=
  {| queues := []; workers := []; remotes := []; spawnOutcomes := [] |}.

(** A world in which the first attempt to spawn a worker fails. *)
Definition flaky_world : World :=
  {| queues := []; workers := []; remotes := [];
     spawnOutcomes := [Some (Error "worker script failed to load")] |}.

(** The context [new LocalMLSyncContext("token", demo_config, undefined, 2)]. *)
Definition demo_context (w : World) : St :=
  snd (construct (H := demo_imports) "token" demo_config None (Some 2) w).

(** Two runs of that context: task 1 gets its worker, then task 3 asks for
    one after task 0 got its own; and a run in the flaky world. *)
Definition demo_s0 : St := demo_context empty_world.

Definition demo_s1 : St := snd (getEnteWorker (H := demo_imports) 1 demo_s0).

Definition demo_s2 : St :=
  snd (getEnteWorker (H := demo_imports) 3
         (run_ops (H := demo_imports) [GetEnteWorker 0; AddTask] demo_s1)).

Definition demo_flaky : St := demo_context flaky_world.





(** For the file helpers: limits of four and two bytes, a sniffer that knows
    the JPEG signature, a worker that reads every blob and one that fails on
    a blob starting with the byte 4, and two files of five bytes. *)

Definition demo_upload_imports : UploadImports :=
  {| MULTIPART_PART_SIZE := 4;
     FILE_READER_CHUNK_SIZE := 2;
     FileType_fromBuffer := fun data =>
       match data with
       | Byte.xff :: Byte.xd8 :: Byte.xff :: _ =>
           Normal (Some {| ext := "jpg"; mime := "image/jpeg" |})
       | _ => Normal None
       end |}.

Definition demo_worker : FileWorker := {| getUint8ArrayView := Normal |}.

Definition failing_worker : FileWorker :=
  {| getUint8ArrayView := fun blob =>
       match blob with
       | Byte.x04 :: _ => Throw (Error "file reading has failed")
       | _ => Normal blob
       end |}.

Definition demo_file : File :=
  {| name := "IMG_0001-edited";
     bytes := [Byte.xff; Byte.xd8; Byte.xff; Byte.xe0; Byte.x04] |}.

Definition demo_photo : File :=
  {| name := "IMG_0001-edited.jpg";
     bytes := [Byte.xff; Byte.xd8; Byte.xff; Byte.xe0; Byte.x04] |}.

Definition demo_chunks : list (list Byte.byte) :=
  [[Byte.xff; Byte.xd8]; [Byte.xff; Byte.xe0]; [Byte.x04]].

(** For the collection helpers: two collections that share an id. *)

Definition demo_album : Collections.Collection :=
  {| Collections.id := 7;
     Collections.owner := {| Collections.user_id := 1 |};
     Collections.type := Collections.favorites |}.

Definition demo_collections : list Collections.Collection :=
  [ {| Collections.id := 5;
       Collections.owner := {| Collections.user_id := 1 |};
       Collections.type := Collections.other "album" |};
    demo_album;
    {| Collections.id := 7;
       Collections.owner := {| Collections.user_id := 2 |};
       Collections.type := Collections.other "folder" |} ].

(** A world that holds a queue, a worker and a remote of another owner, and
    the context constructed in it. *)
Definition busy_world : World :=
  {| queues := [{| pq_concurrency := 1; pq_pending := 2; pq_listeners := ["other"] |}];
     workers := [true];
     remotes := [0%nat];
     spawnOutcomes := [] |}.

Definition demo_busy : St := demo_context busy_world.

(** For the collection operations: files that are the number of their
    collection, a selection that is the list of the files selected, a
    service that accepts every call and three local files. *)
Definition demo_collection_imports : CollectionOps.Imports :=
  {| CollectionOps.EnteFile := Z;
     CollectionOps.SelectedState := list Z;
     CollectionOps.MagicMetadata := Z;
     CollectionOps.file_collectionID := fun file => file;
     CollectionOps.selected_collectionID := fun _ => 5;
     CollectionOps.getSelectedFiles := fun selected _ => selected;
     CollectionOps.collection_key := fun _ => "key";
     CollectionOps.collection_magicMetadata := fun _ => None;
     CollectionOps.data_visibility := fun metadata => metadata;
     CollectionOps.error_status := fun _ => None;
     CollectionOps.NEW_COLLECTION_MAGIC_METADATA := 0;
     CollectionOps.VISIBLE := 0;
     CollectionOps.ARCHIVED := 1;
     CollectionOps.FORBIDDEN := "403";
     CollectionOps.INVALID_COLLECTION_OPERATION := "invalid collection operation";
     CollectionOps.ERROR := "Error";
     CollectionOps.DELETE_COLLECTION_FAILED := "Could not delete the collection";
     CollectionOps.NOT_FILE_OWNER := "Not the owner of the file";
     CollectionOps.UNKNOWN_ERROR := "Something went wrong" |}.

Definition demo_answers : CollectionOps.Answers (H := demo_collection_imports) :=
  @CollectionOps.Build_Answers demo_collection_imports
    (fun _ => Normal tt) (Normal ([5; 7; 5] : list Z)) (fun _ _ visibility => Normal visibility).

(** ** Facts about arrays *)

Section Arrays.
Context {A : Type}.
Implicit Types (arr : JsArray A) (key : option Z) (v : A).

Lemma array_get_set_eq arr key v : array_get (array_set arr key v) key = Some v.
Proof.
  unfold array_get, array_set. destruct key as [z|]; cbn [items props].
  - destruct (0 <=? z) eqn:Hz; cbn [items props]; [ | by rewrite lookup_insert_eq ].
    destruct (Z.to_nat z <? length (items arr))%nat eqn:Hlt; cbn [items props].
    + apply Nat.ltb_lt in Hlt. by rewrite list_lookup_insert_eq.
    + apply Nat.ltb_ge in Hlt.
      rewrite lookup_app_r by lia.
      rewrite lookup_app_r by (rewrite length_replicate; lia).
      rewrite length_replicate.
      by replace (Z.to_nat z - length (items arr) - (Z.to_nat z - length (items arr)))%nat
        with 0%nat by lia.
  - by rewrite lookup_insert_eq.
Qed.

Lemma mjoin_lookup_holes (l : list (option A)) (n i : nat) (x : option A) :
  mjoin ((l ++ replicate n None ++ [x]) !! i)
  = if decide (i = (length l + n)%nat) then x else mjoin (l !! i).
Proof.
  destruct (decide (i < length l)%nat) as [Hlt|Hge].
  { rewrite lookup_app_l by done. case_decide; [lia | done]. }
  rewrite lookup_app_r by lia. rewrite (lookup_ge_None_2 l i) by lia.
  destruct (decide (i - length l < n)%nat) as [Hlt|Hge'].
  { rewrite lookup_app_l by (by rewrite length_replicate).
    rewrite lookup_replicate_2 by done. case_decide; [lia | done]. }
  rewrite lookup_app_r by (rewrite length_replicate; lia).
  rewrite length_replicate. case_decide as Hi.
  - by replace (i - length l - n)%nat with 0%nat by lia.
  - replace (i - length l - n)%nat with (S (i - length l - n - 1))%nat by lia. done.
Qed.

Lemma array_get_set_ne arr key key' v :
  key <> key' -> array_get (array_set arr key v) key' = array_get arr key'.
Proof.
  intros Hne. unfold array_get, array_set.
  destruct key as [z|]; destruct key' as [z'|]; cbn [items props];
    repeat match goal with
      | |- context [0 <=? ?x] => destruct (Z.leb_spec 0 x); cbn [items props]
      | |- context [(?a <? ?b)%nat] => destruct (Nat.ltb_spec a b); cbn [items props]
      end;
    try done; try (by rewrite lookup_insert_ne).
  - rewrite list_lookup_insert_ne; [done|]. intros Heq. apply Hne. f_equal. lia.
  - rewrite mjoin_lookup_holes. case_decide as Heq; [ | done ].
    exfalso. apply Hne. f_equal. lia.
Qed.

Lemma array_get_set arr key key' v :
  array_get (array_set arr key v) key'
  = if decide (key = key') then Some v else array_get arr key'.
Proof.
  case_decide as Hk; [subst; apply array_get_set_eq | by apply array_get_set_ne].
Qed.

(** A key computed by [% length] never lies past the end: the array keeps
    its length. *)
Lemma array_length_set_rem arr (id : Z) v :
  array_length (array_set arr (js_rem id (array_length arr)) v) = array_length arr.
Proof.
  unfold js_rem, array_set, array_length.
  destruct (Z.eqb_spec (Z.of_nat (length (items arr))) 0) as [|Hlen]; [done|]; cbn [items props].
  destruct (Z.leb_spec 0 (Z.rem id (Z.of_nat (length (items arr))))) as [Hz|]; [ | done ].
  assert (Z.abs (Z.rem id (Z.of_nat (length (items arr))))
          < Z.abs (Z.of_nat (length (items arr)))) by (apply Z.rem_bound_abs; lia).
  destruct (Nat.ltb_spec (Z.to_nat (Z.rem id (Z.of_nat (length (items arr)))))
                         (length (items arr))); cbn [items props]; [ | lia ].
  by rewrite length_insert.
Qed.

Lemma populated_le_length arr : (Z.of_nat (populated arr) <= array_length arr)%Z.
Proof.
  unfold populated, array_length.
  induction (items arr) as [|[x|] l IH]; cbn [omap list_omap id length] in *; lia.
Qed.

Lemma array_get_new (n : Z) arr key :
  new_Array n = Normal arr -> array_get arr key = None.
Proof.
  unfold new_Array. destruct (_ || _); [discriminate|]. intros [= <-].
  unfold array_get; cbn [items props]. destruct key as [z|]; [ | done ].
  destruct (0 <=? z); [ | done ].
  destruct (replicate (Z.to_nat n) None !! Z.to_nat z) as [o|] eqn:E; [ | done ].
  apply lookup_replicate in E as [-> _]. done.
Qed.

Lemma array_length_new (n : Z) arr :
  new_Array n = Normal arr -> array_length arr = n /\ 0 <= n.
Proof.
  unfold new_Array. destruct (Z.ltb_spec n 0); [discriminate|]; cbn [items props].
  destruct (_ <? _); [discriminate|]. intros [= <-].
  unfold array_length; cbn [items props]. rewrite length_replicate. lia.
Qed.

End Arrays.

(** ** Running a body one statement at a time *)

Section Steps.
Context `{Imports}.

Lemma bind_assign {B} f upd (k : unit -> Js B) (s : St) :
  bind (assign f upd) k s
  = k tt {| this := upd (this s); world := world s; trace := trace s ++ [Assign f] |}.
Proof. reflexivity. Qed.

Lemma bind_read {A B} f (get : LocalMLSyncContext -> option A) (k : A -> Js B)
    (s : St) (a : A) :
  get (this s) = Some a -> bind (read f get) k s = k a s.
Proof. intros Hget. unfold bind, read. by rewrite Hget. Qed.

Lemma bind_lift_Normal {A B} (a : A) (k : A -> Js B) (s : St) :
  bind (lift (Normal a)) k s = k a s.
Proof. reflexivity. Qed.

Lemma bind_lift_Throw {A B} (e : JsError) (k : A -> Js B) (s : St) :
  bind (lift (Throw e)) k s = (Throw e, s).
Proof. reflexivity. Qed.

Lemma bind_console_log {B} text n (k : unit -> Js B) (s : St) :
  bind (console_log text n) k s
  = k tt {| this := this s; world := world s;
            trace := trace s ++ [ConsoleLog text n] |}.
Proof. reflexivity. Qed.

Lemma bind_new_PQueue {B} c (k : nat -> Js B) (s : St) :
  PQueue_rejects c = None ->
  bind (new_PQueue c) k s
  = k (length (queues (world s)))
      {| this := this s;
         world := (world s) <| queues :=
           queues (world s)
           ++ [{| pq_concurrency := c; pq_pending := 0; pq_listeners := [] |}] |>;
         trace := trace s ++ [NewPQueue (length (queues (world s)))] |}.
Proof. intros Hok. unfold bind, new_PQueue. by rewrite Hok. Qed.

Lemma bind_new_PQueue_rejected {B} c e (k : nat -> Js B) (s : St) :
  PQueue_rejects c = Some e -> bind (new_PQueue c) k s = (Throw e, s).
Proof. intros Hno. unfold bind, new_PQueue. by rewrite Hno. Qed.

Lemma bind_with_queue {B} q g e (k : unit -> Js B) (s : St) pq :
  queues (world s) !! q = Some pq ->
  bind (with_queue q g e) k s
  = k tt {| this := this s;
            world := (world s) <| queues := <[q := g pq]> (queues (world s)) |>;
            trace := trace s ++ [e] |}.
Proof. intros Hq. unfold bind, with_queue. by rewrite Hq. Qed.

End Steps.

Ltac js_norm := cbn beta iota delta [this world trace app].

Ltac js_assign := rewrite bind_assign; js_norm.

Ltac js_read := erewrite bind_read by reflexivity; js_norm.

Ltac js_lift_Normal := rewrite bind_lift_Normal; js_norm.

(** ** What the methods do, step by step *)

Section MethodFacts.
Context `{Imports}.

#[local] Arguments array_get : simpl never.
#[local] Arguments array_set : simpl never.
#[local] Arguments array_length : simpl never.
#[local] Arguments js_rem : simpl never.
#[local] Arguments js_or : simpl never.
#[local] Arguments new_Array : simpl never.
#[local] Arguments MLFactory.getFaceDetectionService : simpl never.
#[local] Arguments MLFactory.getFaceCropService : simpl never.
#[local] Arguments MLFactory.getFaceAlignmentService : simpl never.
#[local] Arguments MLFactory.getFaceEmbeddingService : simpl never.
#[local] Arguments MLFactory.getClusteringService : simpl never.

(** Two instances with the same fields are the same. *)
Lemma LocalMLSyncContext_ext (a b : LocalMLSyncContext) :
  token a = token b ->
  config a = config b ->
  shouldUpdateMLVersion a = shouldUpdateMLVersion b ->
  faceDetectionService a = faceDetectionService b ->
  faceCropService a = faceCropService b ->
  faceAlignmentService a = faceAlignmentService b ->
  faceEmbeddingService a = faceEmbeddingService b ->
  faceClusteringService a = faceClusteringService b ->
  localFilesMap a = localFilesMap b ->
  outOfSyncFiles a = outOfSyncFiles b ->
  nSyncedFiles a = nSyncedFiles b ->
  nSyncedFaces a = nSyncedFaces b ->
  allSyncedFacesMap a = allSyncedFacesMap b ->
  tsne a = tsne b ->
  error a = error b ->
  mlLibraryData a = mlLibraryData b ->
  syncQueue a = syncQueue b ->
  concurrency a = concurrency b ->
  enteComlinkWorkers a = enteComlinkWorkers b ->
  enteWorkers a = enteWorkers b ->
  a = b.
Proof. destruct a, b; cbn; intros; by subst. Qed.

Lemma St_ext (a b : St) :
  this a = this b -> world a = world b -> trace a = trace b -> a = b.
Proof. destruct a, b; cbn; intros; by subst. Qed.

Lemma getEnteWorker_spec (id : Z) (s : St) :
  getEnteWorker_run id s (fst (getEnteWorker id s)) (snd (getEnteWorker id s)).
Proof.
  unfold getEnteWorker, bind, read.
  destruct (enteWorkers (this s)) as [ws|] eqn:Ews; cbn [fst snd].
  2:{ by apply gew_no_array. }
  destruct (array_get ws (js_rem id (array_length ws))) as [h|] eqn:Eh.
  { cbn. rewrite Ews, Eh. cbn. by eapply gew_hit. }
  unfold getDedicatedCryptoWorker.
  destruct (spawnOutcomes (world s)) as [|[e|] rest] eqn:Esp.
  2:{ cbn. by eapply gew_spawn_fails. }
  all: assert (Hnext : next_spawn_error (world s) = None)
         by (unfold next_spawn_error; by rewrite Esp).
  all: unfold store, bind, read; cbn.
  all: destruct (enteComlinkWorkers (this s)) as [cws|] eqn:Ecws; cbn.
  all: try (pose proof (gew_no_pool id s ws Ews Eh Hnext Ecws) as Hrun;
            unfold spawn_world in Hrun; rewrite Esp in Hrun;
            destruct s as [c w tr]; exact Hrun).
  all: rewrite array_get_set_eq; cbn; rewrite Ews; cbn; rewrite array_get_set_eq.
  all: pose proof (gew_creates id s ws cws Ews Eh Hnext Ecws) as Hrun;
       unfold spawn_world in Hrun; rewrite Esp in Hrun;
       destruct s as [c w tr]; cbn in Hrun |- *;
       rewrite <- !app_assoc; exact Hrun.
Qed.

Lemma for_of_terminate (slots : list (option ComlinkWorker)) (s : St) :
  for_of slots
    (fun enteComlinkWorker =>
       match enteComlinkWorker with
       | Some cw => terminate (worker cw)
       | None => ret tt
       end) s
  = (Normal tt,
     {| this := this s;
        world := (world s)
          <| workers := terminate_all (worker <$> omap id slots) (workers (world s)) |>;
        trace := trace s ++ (Terminate <$> (worker <$> omap id slots)) |}).
Proof.
  revert s. induction slots as [|[cw|] slots IH]; intros s.
  - destruct s as [c [] tr]. cbn. by rewrite app_nil_r.
  - cbn [for_of]. unfold bind at 1. unfold terminate at 1. rewrite IH.
    destruct s as [c [] tr]. cbn. by rewrite <- app_assoc.
  - cbn [for_of]. unfold bind at 1. cbn [ret]. apply IH.
Qed.

Lemma dispose_spec (s : St) :
  dispose_run s (fst (dispose s)) (snd (dispose s)).
Proof.
  unfold dispose, bind, assign, read, onIdle, await_promise, ret. cbn.
  destruct (syncQueue (this s)) as [q|] eqn:Eq; cbn.
  2:{ exact (dis_no_queue s Eq). }
  destruct (queues (world s) !! q) as [pq|] eqn:Epq; cbn.
  2:{ exact (dis_not_a_queue s q Eq Epq). }
  rewrite <- app_assoc. exact (dis_suspended s q pq Eq Epq).
Qed.

Lemma teardown_spec (s : St) :
  teardown_run s (fst (teardown s)) (snd (teardown s)).
Proof.
  unfold teardown, bind, read, removeAllListeners, with_queue.
  destruct (syncQueue (this s)) as [q|] eqn:Eq; cbn.
  2:{ by apply td_no_queue. }
  destruct (queues (world s) !! q) as [pq|] eqn:Epq; cbn.
  2:{ by eapply td_not_a_queue. }
  destruct (enteComlinkWorkers (this s)) as [cws|] eqn:Ecws; cbn.
  2:{ exact (td_no_pool s q pq Eq Epq Ecws). }
  rewrite for_of_terminate. cbn.
  pose proof (td_done s q pq cws Eq Epq Ecws) as Hrun.
  destruct s as [c [] tr]. cbn in *. unfold const.
  by rewrite <- !app_assoc.
Qed.

(** The promise of a suspended [dispose] settles exactly when its queue
    holds no task, and then by running the statements after the [await]. *)
Lemma dispose_rest_spec (q : nat) (s : St) :
  match queues (world s) !! q with
  | Some pq =>
      if decide (pq_pending pq = 0%nat)
      then dispose_rest q s = Some (teardown (idled q s))
      else dispose_rest q s = None
  | None => dispose_rest q s = None
  end.
Proof.
  unfold dispose_rest, and_then, queue_idle.
  destruct (queues (world s) !! q) as [pq|]; [ | done ].
  case_decide as Hp.
  - rewrite Hp. reflexivity.
  - by destruct (pq_pending pq).
Qed.

(** A constructor that returns has resolved all five services, was given
    a concurrency the queue and the arrays accept, and leaves exactly this
    state. *)
Lemma construct_returns
    (token_ : string) (config_ : MLSyncConfig)
    (shouldUpdate_ : option bool) (concurrency_ : option Z) (w : World) (s : St) :
  construct token_ config_ shouldUpdate_ concurrency_ w = (Normal tt, s) ->
  let c := js_or concurrency_ CONCURRENCY in
  exists detection crop alignment embedding clustering,
    MLFactory.getFaceDetectionService (method (faceDetection config_)) = Normal detection
    /\ MLFactory.getFaceCropService (method (faceCrop config_)) = Normal crop
    /\ MLFactory.getFaceAlignmentService (method (faceAlignment config_)) = Normal alignment
    /\ MLFactory.getFaceEmbeddingService (method (faceEmbedding config_)) = Normal embedding
    /\ MLFactory.getClusteringService (method (faceClustering config_)) = Normal clustering
    /\ PQueue_rejects c = None
    /\ 1 <= c <= 2 ^ 32 - 1
    /\ s = {| this :=
                {| token := Some token_; config := Some config_;
                   shouldUpdateMLVersion := Some (default true shouldUpdate_);
                   faceDetectionService := Some detection;
                   faceCropService := Some crop;
                   faceAlignmentService := Some alignment;
                   faceEmbeddingService := Some embedding;
                   faceClusteringService := Some clustering;
                   localFilesMap := None; outOfSyncFiles := Some [];
                   nSyncedFiles := Some 0; nSyncedFaces := Some 0;
                   allSyncedFacesMap := None; tsne := None; error := None;
                   mlLibraryData := None;
                   syncQueue := Some (length (queues w));
                   concurrency := Some c;
                   enteComlinkWorkers := Some (mkArray (replicate (Z.to_nat c) None) ∅);
                   enteWorkers := Some (mkArray (replicate (Z.to_nat c) None) ∅) |};
              world := w <| queues := queues w ++ [fresh_queue c] |>;
              trace := constructor_trace c (length (queues w)) |}.
Proof.
  unfold construct, new_LocalMLSyncContext.
  do 3 js_assign. js_read.
  destruct (MLFactory.getFaceDetectionService _) as [detection|e] eqn:E1;
    [ js_lift_Normal | rewrite bind_lift_Throw; discriminate ].
  js_assign. js_read.
  destruct (MLFactory.getFaceCropService _) as [crop|e] eqn:E2;
    [ js_lift_Normal | rewrite bind_lift_Throw; discriminate ].
  js_assign. js_read.
  destruct (MLFactory.getFaceAlignmentService _) as [alignment|e] eqn:E3;
    [ js_lift_Normal | rewrite bind_lift_Throw; discriminate ].
  js_assign. js_read.
  destruct (MLFactory.getFaceEmbeddingService _) as [embedding|e] eqn:E4;
    [ js_lift_Normal | rewrite bind_lift_Throw; discriminate ].
  js_assign. js_read.
  destruct (MLFactory.getClusteringService _) as [clustering|e] eqn:E5;
    [ js_lift_Normal | rewrite bind_lift_Throw; discriminate ].
  do 5 js_assign. js_read. rewrite bind_console_log; js_norm. js_read.
  destruct (PQueue_rejects _) as [e|] eqn:E6;
    [ rewrite (bind_new_PQueue_rejected _ _ _ _ E6); discriminate
    | rewrite (bind_new_PQueue _ _ _ E6); js_norm ].
  js_assign. js_read. unfold log_queue_stats.
  erewrite bind_with_queue by (apply list_lookup_middle; reflexivity). js_norm.
  js_read.
  destruct (@new_Array ComlinkWorker (js_or concurrency_ CONCURRENCY)) as [arr|e] eqn:E7;
    [ js_lift_Normal | rewrite bind_lift_Throw; discriminate ].
  js_assign. js_read.
  destruct (@new_Array nat (js_or concurrency_ CONCURRENCY)) as [arr'|e] eqn:E8;
    [ js_lift_Normal | rewrite bind_lift_Throw; discriminate ].
  unfold assign. js_norm. intros [= <-].
  destruct (array_length_new _ _ E7) as [_ Hpos].
  unfold new_Array in E7, E8.
  destruct (_ || _) eqn:E9; [ discriminate | ].
  injection E7 as <-. injection E8 as <-.
  apply orb_false_elim in E9 as [_ E9]. apply Z.ltb_ge in E9.
  assert (js_or concurrency_ CONCURRENCY <> 0).
  { unfold js_or. pose proof CONCURRENCY_pos.
    destruct concurrency_ as [n|]; [ | lia ]. destruct (Z.eqb_spec n 0); lia. }
  exists detection, crop, alignment, embedding, clustering.
  do 6 (split; [reflexivity | ]). split; [lia | ].
  apply St_ext; cbn [this world trace].
  - apply LocalMLSyncContext_ext; reflexivity.
  - rewrite insert_app_r_alt by reflexivity. rewrite Nat.sub_diag.
    by destruct w.
  - reflexivity.
Qed.

End MethodFacts.

(** Case analysis on a call, by the relations above. *)
Ltac getEnteWorker_cases id s :=
  let Hrun := fresh "Hrun" in
  pose proof (getEnteWorker_spec id s) as Hrun;
  destruct (getEnteWorker id s) as [? ?]; cbn [fst snd] in *;
  destruct Hrun as [ Ews | ws h Ews Eh | ws e rest Ews Eh Esp
                   | ws Ews Eh Hnext Ecws | ws cws Ews Eh Hnext Ecws ];
  cbn [this world trace] in *.

Ltac dispose_cases s :=
  let Hrun := fresh "Hrun" in
  pose proof (dispose_spec s) as Hrun;
  destruct (dispose s) as [? ?]; cbn [fst snd] in *;
  destruct Hrun as [ Eq | q Eq Epq | q pq Eq Epq ];
  unfold cleared in *; cbn [this world trace] in *.

Ltac teardown_cases s :=
  let Hrun := fresh "Hrun" in
  pose proof (teardown_spec s) as Hrun;
  destruct (teardown s) as [? ?]; cbn [fst snd] in *;
  destruct Hrun as [ Eq | q Eq Epq | q pq Eq Epq Ecws | q pq cws Eq Epq Ecws ];
  unfold idled in *; cbn [this world trace] in *.

(** ** Construction *)

Section Construction.
Context `{Imports}.

Lemma registered_false_cases (config_ : MLSyncConfig) :
  (exists st, registered st (stage_method config_ st) = false) ->
  registered FaceDetectionStage (stage_method config_ FaceDetectionStage) = false
  \/ registered FaceCropStage (stage_method config_ FaceCropStage) = false
  \/ registered FaceAlignmentStage (stage_method config_ FaceAlignmentStage) = false
  \/ registered FaceEmbeddingStage (stage_method config_ FaceEmbeddingStage) = false
  \/ registered ClusteringStage (stage_method config_ ClusteringStage) = false.
Proof. intros [[] Hst]; auto 6. Qed.

Lemma detection_throws m :
  registered FaceDetectionStage m = false ->
  MLFactory.getFaceDetectionService m
  = Throw (Error ("Unknon " +:+ stage_words FaceDetectionStage +:+ " method: " +:+ m)).
Proof.
  cbn. unfold MLFactory.getFaceDetectionService.
  destruct (String.eqb m _); [discriminate | reflexivity].
Qed.

Lemma crop_throws m :
  registered FaceCropStage m = false ->
  MLFactory.getFaceCropService m
  = Throw (Error ("Unknon " +:+ stage_words FaceCropStage +:+ " method: " +:+ m)).
Proof.
  cbn. unfold MLFactory.getFaceCropService.
  destruct (String.eqb m _); [discriminate | reflexivity].
Qed.

Lemma alignment_throws m :
  registered FaceAlignmentStage m = false ->
  MLFactory.getFaceAlignmentService m
  = Throw (Error ("Unknon " +:+ stage_words FaceAlignmentStage +:+ " method: " +:+ m)).
Proof.
  cbn. unfold MLFactory.getFaceAlignmentService.
  destruct (String.eqb m _); [discriminate | reflexivity].
Qed.

Lemma embedding_throws m :
  registered FaceEmbeddingStage m = false ->
  MLFactory.getFaceEmbeddingService m
  = Throw (Error ("Unknon " +:+ stage_words FaceEmbeddingStage +:+ " method: " +:+ m)).
Proof.
  cbn. unfold MLFactory.getFaceEmbeddingService.
  destruct (String.eqb m _); [discriminate | reflexivity].
Qed.

Lemma clustering_throws m :
  registered ClusteringStage m = false ->
  MLFactory.getClusteringService m
  = Throw (Error ("Unknon " +:+ stage_words ClusteringStage +:+ " method: " +:+ m)).
Proof.
  cbn. unfold MLFactory.getClusteringService.
  do 2 (destruct (String.eqb m _); [discriminate | ]). reflexivity.
Qed.

Lemma detection_returns m :
  registered FaceDetectionStage m = true ->
  exists svc, MLFactory.getFaceDetectionService m = Normal svc.
Proof. cbn. destruct (MLFactory.getFaceDetectionService m); [eauto | discriminate]. Qed.

Lemma crop_returns m :
  registered FaceCropStage m = true ->
  exists svc, MLFactory.getFaceCropService m = Normal svc.
Proof. cbn. destruct (MLFactory.getFaceCropService m); [eauto | discriminate]. Qed.

Lemma alignment_returns m :
  registered FaceAlignmentStage m = true ->
  exists svc, MLFactory.getFaceAlignmentService m = Normal svc.
Proof. cbn. destruct (MLFactory.getFaceAlignmentService m); [eauto | discriminate]. Qed.

Lemma embedding_returns m :
  registered FaceEmbeddingStage m = true ->
  exists svc, MLFactory.getFaceEmbeddingService m = Normal svc.
Proof. cbn. destruct (MLFactory.getFaceEmbeddingService m); [eauto | discriminate]. Qed.

Lemma clustering_returns m :
  registered ClusteringStage m = true ->
  exists svc, MLFactory.getClusteringService m = Normal svc.
Proof. cbn. destruct (MLFactory.getClusteringService m); [eauto | discriminate]. Qed.

(** The constructor returns whenever every stage names a registered method
    and the concurrency is one the queue and the arrays accept. *)
Lemma construct_succeeds
    (token_ : string) (config_ : MLSyncConfig)
    (shouldUpdate_ : option bool) (concurrency_ : option Z) (w : World) :
  (forall st, registered st (stage_method config_ st) = true) ->
  PQueue_rejects (js_or concurrency_ CONCURRENCY) = None ->
  0 <= js_or concurrency_ CONCURRENCY <= 2 ^ 32 - 1 ->
  exists s, construct token_ config_ shouldUpdate_ concurrency_ w = (Normal tt, s).
Proof.
  intros Hreg Hqueue Hrange.
  destruct (detection_returns _ (Hreg FaceDetectionStage)) as [det E1].
  destruct (crop_returns _ (Hreg FaceCropStage)) as [crop E2].
  destruct (alignment_returns _ (Hreg FaceAlignmentStage)) as [al E3].
  destruct (embedding_returns _ (Hreg FaceEmbeddingStage)) as [emb E4].
  destruct (clustering_returns _ (Hreg ClusteringStage)) as [clu E5].
  cbn [stage_method] in *.
  assert (Hnew : forall A, @new_Array A (js_or concurrency_ CONCURRENCY)
                           = Normal (mkArray (replicate (Z.to_nat (js_or concurrency_ CONCURRENCY))
                                                None) ∅)).
  { intros A. unfold new_Array.
    destruct (Z.ltb_spec (js_or concurrency_ CONCURRENCY) 0); [lia|].
    destruct (Z.ltb_spec (2 ^ 32 - 1) (js_or concurrency_ CONCURRENCY)); [lia|]. done. }
  unfold construct, new_LocalMLSyncContext.
  do 3 js_assign. js_read. rewrite E1. js_lift_Normal.
  js_assign. js_read. rewrite E2. js_lift_Normal.
  js_assign. js_read. rewrite E3. js_lift_Normal.
  js_assign. js_read. rewrite E4. js_lift_Normal.
  js_assign. js_read. rewrite E5. js_lift_Normal.
  do 5 js_assign. js_read. rewrite bind_console_log; js_norm. js_read.
  rewrite (bind_new_PQueue _ _ _ Hqueue); js_norm.
  js_assign. js_read. unfold log_queue_stats.
  erewrite bind_with_queue by (apply list_lookup_middle; reflexivity). js_norm.
  js_read. rewrite Hnew. js_lift_Normal.
  js_assign. js_read. rewrite Hnew. js_lift_Normal.
  unfold assign. by eexists.
Qed.

Ltac stage_fails st lem E :=
  exists st; eexists;
  cbn [stage_method] in E |- *;
  rewrite (lem _ E), bind_lift_Throw;
  split; [ reflexivity | ];
  split; [ exact E | ];
  split; [ repeat split; reflexivity | ];
  split; [ reflexivity | repeat constructor; eauto ].

Ltac stage_passes lem E :=
  apply lem in E; destruct E as [? E]; cbn [stage_method] in E;
  rewrite E; js_lift_Normal; js_assign; js_read.

(** C1.  When some stage names a method that its category does not know,
    [new LocalMLSyncContext] throws at once.  The error is the one of a
    stage whose method is unknown; its message holds the words of that
    category and the method name.  At the throw nothing past the services
    has been set up: no counter, no concurrency, no queue, no pool array;
    no queue or worker has been created in the world, and the trace shows
    assignments only. *)
Theorem constructor_unknown_method
    (token_ : string) (config_ : MLSyncConfig)
    (shouldUpdate_ : option bool) (concurrency_ : option Z) (w : World) :
  (exists st, registered st (stage_method config_ st) = false) ->
  exists st s,
    construct token_ config_ shouldUpdate_ concurrency_ w
      = (Throw (Error ("Unknon " +:+ stage_words st +:+ " method: "
                       +:+ stage_method config_ st)), s)
    /\ registered st (stage_method config_ st) = false
    /\ nothing_set_up (this s)
    /\ world s = w
    /\ Forall (fun e => exists f, e = Assign f) (trace s).
Proof.
  intros Hbad. apply registered_false_cases in Hbad.
  unfold construct, new_LocalMLSyncContext, nothing_set_up.
  do 3 js_assign. js_read.
  destruct (registered FaceDetectionStage (stage_method config_ FaceDetectionStage)) eqn:E1;
    [ | stage_fails FaceDetectionStage detection_throws E1 ].
  stage_passes detection_returns E1.
  destruct (registered FaceCropStage (stage_method config_ FaceCropStage)) eqn:E2;
    [ | stage_fails FaceCropStage crop_throws E2 ].
  stage_passes crop_returns E2.
  destruct (registered FaceAlignmentStage (stage_method config_ FaceAlignmentStage)) eqn:E3;
    [ | stage_fails FaceAlignmentStage alignment_throws E3 ].
  stage_passes alignment_returns E3.
  destruct (registered FaceEmbeddingStage (stage_method config_ FaceEmbeddingStage)) eqn:E4;
    [ | stage_fails FaceEmbeddingStage embedding_throws E4 ].
  stage_passes embedding_returns E4.
  destruct (registered ClusteringStage (stage_method config_ ClusteringStage)) eqn:E5;
    [ | stage_fails ClusteringStage clustering_throws E5 ].
  exfalso. intuition discriminate.
Qed.

(** C7, as amended.  When the constructor returns, the concurrency of the
    context is the explicit argument if one was given and is not zero (it
    is then positive), and the default [CONCURRENCY] if the argument is
    absent or zero; both counters are zero and [outOfSyncFiles] is the
    empty list.  [localFilesMap] and [allSyncedFacesMap] are not
    initialised: they are left [undefined]. *)
Theorem constructor_initial_state
    (token_ : string) (config_ : MLSyncConfig)
    (shouldUpdate_ : option bool) (concurrency_ : option Z) (w : World) (s : St) :
  construct token_ config_ shouldUpdate_ concurrency_ w = (Normal tt, s) ->
  (forall n, concurrency_ = Some n -> n <> 0 ->
             concurrency (this s) = Some n /\ 0 < n)
  /\ (concurrency_ = None \/ concurrency_ = Some 0 ->
      concurrency (this s) = Some CONCURRENCY)
  /\ nSyncedFiles (this s) = Some 0
  /\ nSyncedFaces (this s) = Some 0
  /\ outOfSyncFiles (this s) = Some []
  /\ localFilesMap (this s) = None
  /\ allSyncedFacesMap (this s) = None.
Proof.
  intros Hrun. apply construct_returns in Hrun.
  destruct Hrun as (det & crop & al & emb & clu & _ & _ & _ & _ & _ & _ & Hc & ->).
  cbn [this concurrency nSyncedFiles nSyncedFaces outOfSyncFiles localFilesMap
       allSyncedFacesMap].
  split; [ | split; [ | done ] ].
  - intros n -> Hn. unfold js_or in *. destruct (Z.eqb_spec n 0); [done|].
    split; [done | lia].
  - intros [-> | ->]; reflexivity.
Qed.

End Construction.

(** ** The pool along a run *)

Section Pool.
Context `{Imports}.

Lemma length_terminate_all (ws : list nat) (running : list bool) :
  length (terminate_all ws running) = length running.
Proof.
  revert running. induction ws as [|w ws IH]; intros running; cbn; [done|].
  by rewrite IH, length_insert.
Qed.

Lemma lookup_terminate_all (ws : list nat) (running : list bool) (i : nat) :
  terminate_all ws running !! i
  = (fun b => if bool_decide (i ∈ ws) then false else b) <$> running !! i.
Proof.
  revert running. induction ws as [|w ws IH]; intros running; cbn.
  - destruct (running !! i); cbn; [ | done ].
    by rewrite bool_decide_eq_false_2 by apply not_elem_of_nil.
  - rewrite IH. destruct (decide (w = i)) as [->|Hne].
    + destruct (running !! i) as [b|] eqn:Eb.
      * rewrite list_lookup_insert_eq by (by eapply lookup_lt_Some). cbn.
        rewrite (bool_decide_eq_true_2 (i ∈ i :: ws)) by (apply elem_of_cons; by left).
        by destruct (bool_decide (i ∈ ws)).
      * rewrite list_insert_ge by (by apply lookup_ge_None). by rewrite Eb.
    + rewrite list_lookup_insert_ne by done.
      destruct (running !! i); cbn; [ | done ]. f_equal.
      destruct (decide (i ∈ ws)) as [Hin|Hout].
      * rewrite !bool_decide_eq_true_2; [done | by apply elem_of_cons; right | done].
      * rewrite !bool_decide_eq_false_2; [done | | done].
        apply not_elem_of_cons. by split.
Qed.



(** *** What the steps of the callers touch *)

Lemma add_task_spec (s : St) :
  snd (add_task s) = s
  \/ exists q pq,
       syncQueue (this s) = Some q /\ queues (world s) !! q = Some pq
       /\ snd (add_task s)
          = {| this := this s;
               world := (world s)
                 <| queues := <[q := pq <| pq_pending := S (pq_pending pq) |>]>
                                (queues (world s)) |>;
               trace := trace s ++ [TaskAdded q] |}.
Proof.
  unfold add_task, bind, read, with_queue.
  destruct (syncQueue (this s)) as [q|] eqn:Eq; [ | by left ].
  destruct (queues (world s) !! q) as [pq|] eqn:Epq; [ | by left ].
  right. by exists q, pq.
Qed.

Lemma finish_task_spec (s : St) :
  snd (finish_task s) = s
  \/ exists q pq,
       syncQueue (this s) = Some q /\ queues (world s) !! q = Some pq
       /\ snd (finish_task s)
          = {| this := this s;
               world := (world s)
                 <| queues := <[q := pq <| pq_pending := pred (pq_pending pq) |>]>
                                (queues (world s)) |>;
               trace := trace s ++ [TaskFinished q] |}.
Proof.
  unfold finish_task, bind, read, with_queue.
  destruct (syncQueue (this s)) as [q|] eqn:Eq; [ | by left ].
  destruct (queues (world s) !! q) as [pq|] eqn:Epq; [ | by left ].
  right. by exists q, pq.
Qed.

(** *** Runs, and what every step of a run keeps *)

Lemma Op_nested_ind (P : Op -> Prop) :
  (forall id, P (GetEnteWorker id)) ->
  (forall during, Forall P during -> P (Dispose during)) ->
  P AddTask -> P FinishTask -> (forall w, P (SetField w)) ->
  forall op, P op.
Proof.
  intros Hget Hdis Hadd Hfin Hwr. fix IH 1. intros [id|during| | |w].
  - apply Hget.
  - apply Hdis. revert during. fix IHd 1. intros [|op during]; constructor.
    + apply IH.
    + apply IHd.
  - apply Hadd.
  - apply Hfin.
  - apply Hwr.
Qed.

Lemma run_ops_app (ops ops' : list Op) (s : St) :
  run_ops (ops ++ ops') s = run_ops ops' (run_ops ops s).
Proof. apply fold_left_app. Qed.

(** A call of [dispose] in a run: the call, the steps made while it is
    suspended, and the statements after the [await] if the queue is idle
    by then. *)
Lemma run_op_Dispose (during : list Op) (s : St) :
  run_op (Dispose during) s
  = match dispose s with
    | (Normal p, s1) =>
        match p (run_ops during s1) with
        | Some (_, s3) => s3
        | None => run_ops during s1
        end
    | (Throw _, s1) => s1
    end.
Proof. reflexivity. Qed.

Lemma run_op_Dispose_async (during : list Op) (s : St) :
  run_op (Dispose during) s
  = match run_async dispose (run_ops during) s with
    | Some (_, s') => s'
    | None => run_ops during (snd (dispose s))
    end.
Proof.
  rewrite run_op_Dispose. unfold run_async.
  destruct (dispose s) as [[p|e] s1]; reflexivity.
Qed.

(** A property that each step keeps, for the task ids that are [ok], holds
    along every run with such ids. *)
Lemma run_ops_invariant_ids (ok : Z -> Prop) (P : St -> Prop) :
  (forall id s, ok id -> P s -> P (snd (getEnteWorker id s))) ->
  (forall s, P s -> P (snd (dispose s))) ->
  (forall q s, P s -> P (snd (teardown (idled q s)))) ->
  (forall s, P s -> P (snd (add_task s))) ->
  (forall s, P s -> P (snd (finish_task s))) ->
  (forall w s, P s -> P (snd (write_field w s))) ->
  forall ops s, Forall ok (flat_map task_ids ops) -> P s -> P (run_ops ops s).
Proof.
  intros Hget Hcall Hrest Hadd Hfin Hwr.
  assert (Hlist : forall ops,
             Forall (fun op => forall s, Forall ok (task_ids op) -> P s -> P (run_op op s)) ops ->
             forall s, Forall ok (flat_map task_ids ops) -> P s -> P (run_ops ops s)).
  { induction 1 as [|op ops Hop _ IH]; intros s Hids Hs; [done|].
    cbn [flat_map] in Hids. apply Forall_app in Hids as [Hid Hids].
    cbn [run_ops fold_left]. apply IH; [done|]. by apply Hop. }
  intros ops. apply Hlist. apply Forall_forall. intros op _. clear ops.
  induction op as [id|during IH| | |w] using Op_nested_ind; intros s Hids Hs; cbn [run_op].
  - apply Hget; [ | done ]. by apply Forall_inv in Hids.
  - change (P (run_op (Dispose during) s)). rewrite run_op_Dispose.
    specialize (Hcall s Hs). pose proof (dispose_spec s) as Hrun.
    destruct (dispose s) as [r s1]. cbn [fst snd] in *.
    destruct Hrun as [ Eq | q Eq Epq | q pq Eq Epq ]; [done | done | ].
    assert (Hs2 : P (run_ops during (cleared s [AwaitIdle q]))) by (by apply Hlist).
    pose proof (dispose_rest_spec q (run_ops during (cleared s [AwaitIdle q]))) as Hspec.
    destruct (queues (world (run_ops during (cleared s [AwaitIdle q]))) !! q) as [pq'|];
      [ | by rewrite Hspec ].
    case_decide; rewrite Hspec; [ | done ].
    specialize (Hrest q _ Hs2). by destruct (teardown _).
  - by apply Hadd.
  - by apply Hfin.
  - by apply Hwr.
Qed.

Lemma run_ops_invariant (P : St -> Prop) :
  (forall id s, P s -> P (snd (getEnteWorker id s))) ->
  (forall s, P s -> P (snd (dispose s))) ->
  (forall q s, P s -> P (snd (teardown (idled q s)))) ->
  (forall s, P s -> P (snd (add_task s))) ->
  (forall s, P s -> P (snd (finish_task s))) ->
  (forall w s, P s -> P (snd (write_field w s))) ->
  forall ops s, P s -> P (run_ops ops s).
Proof.
  intros Hget Hcall Hrest Hadd Hfin Hwr ops s.
  apply (run_ops_invariant_ids (fun _ => True) P); auto.
  by apply Forall_forall.
Qed.

(** *** The fields no method writes *)

Lemma run_ops_immutable (ops : list Op) (s : St) :
  immutable_part (this (run_ops ops s)) = immutable_part (this s).
Proof.
  apply (run_ops_invariant (fun s' => immutable_part (this s') = immutable_part (this s)));
    [ | | | | | | done ].
  - intros id s' <-. getEnteWorker_cases id s'; reflexivity.
  - intros s' <-. dispose_cases s'; reflexivity.
  - intros q0 s' <-. teardown_cases (idled q0 s'); reflexivity.
  - intros s' <-. destruct (add_task_spec s') as [-> | (q & pq & _ & _ & ->)]; reflexivity.
  - intros s' <-. destruct (finish_task_spec s') as [-> | (q & pq & _ & _ & ->)]; reflexivity.
  - intros w s' <-. by destruct w.
Qed.

(** *** A populated slot stays as it is *)

Lemma run_ops_slot_kept (ops : list Op) (s : St) (key : option Z) (handle : nat) :
  slot_handle s key = Some handle ->
  slot_handle (run_ops ops s) key = Some handle
  /\ slot_worker (run_ops ops s) key = slot_worker s key.
Proof.
  intros Hh.
  apply (run_ops_invariant
           (fun s' => slot_handle s' key = Some handle
                      /\ slot_worker s' key = slot_worker s key)); [ | | | | | | done ].
  - intros id s' [Hh' <-]. unfold slot_handle, slot_worker in *.
    getEnteWorker_cases id s'; try done.
    cbn. rewrite Ews in Hh'. rewrite Ecws.
    destruct (decide (js_rem id (array_length ws) = key)) as [<-|Hne]; [congruence|].
    by rewrite !array_get_set_ne.
  - intros s' [Hh' <-]. dispose_cases s'; done.
  - intros q0 s' [Hh' <-]. teardown_cases (idled q0 s'); done.
  - intros s' [Hh' <-]. by destruct (add_task_spec s') as [-> | (q & pq & _ & _ & ->)].
  - intros s' [Hh' <-]. by destruct (finish_task_spec s') as [-> | (q & pq & _ & _ & ->)].
  - intros w s' [Hh' <-]. by destruct w.
Qed.

Lemma run_op_slot_kept (op : Op) (s : St) (key : option Z) (handle : nat) :
  slot_handle s key = Some handle ->
  slot_handle (run_op op s) key = Some handle
  /\ slot_worker (run_op op s) key = slot_worker s key.
Proof. apply (run_ops_slot_kept [op]). Qed.

(** *** A call leaves the slots of the other keys alone *)

Lemma getEnteWorker_other_slots (id : Z) (s : St) (key : option Z) :
  slot_of s id <> key ->
  slot_handle (snd (getEnteWorker id s)) key = slot_handle s key
  /\ slot_worker (snd (getEnteWorker id s)) key = slot_worker s key.
Proof.
  unfold slot_of, slot_handle, slot_worker. intros Hne.
  getEnteWorker_cases id s; try done.
  cbn. rewrite Ews in Hne. rewrite Ews, Ecws. by rewrite !array_get_set_ne.
Qed.

(** *** The cases of a call, as equations *)

Lemma getEnteWorker_hit_eq (id : Z) (s : St) (handle : nat) :
  slot_handle s (slot_of s id) = Some handle ->
  getEnteWorker id s = (Normal (Some handle), s).
Proof.
  unfold slot_handle, slot_of. intros Hh.
  getEnteWorker_cases id s; rewrite Ews in Hh; congruence.
Qed.

Lemma getEnteWorker_fails_eq (id : Z) (s : St) (err : JsError) :
  is_Some (enteWorkers (this s)) ->
  slot_handle s (slot_of s id) = None ->
  next_spawn_error (world s) = Some err ->
  getEnteWorker id s
  = (Throw err,
     {| this := this s;
        world := (world s) <| spawnOutcomes := tail (spawnOutcomes (world s)) |>;
        trace := trace s ++ [SpawnFailed err] |}).
Proof.
  unfold slot_handle, slot_of. intros [ws0 Hws] Hh Hnx.
  getEnteWorker_cases id s; rewrite Ews in Hh; try congruence.
  unfold next_spawn_error in Hnx. rewrite Esp in Hnx |- *. by injection Hnx as ->.
Qed.

Lemma getEnteWorker_creates_eq (id : Z) (s : St)
    (ws0 : JsArray nat) (cws0 : JsArray ComlinkWorker) :
  enteWorkers (this s) = Some ws0 ->
  enteComlinkWorkers (this s) = Some cws0 ->
  array_get ws0 (js_rem id (array_length ws0)) = None ->
  next_spawn_error (world s) = None ->
  getEnteWorker id s
  = (Normal (Some (length (remotes (world s)))),
     {| this := (this s)
          <| enteComlinkWorkers :=
               Some (array_set cws0 (js_rem id (array_length ws0))
                       {| comlink := length (workers (world s));
                          worker := length (workers (world s)) |}) |>
          <| enteWorkers :=
               Some (array_set ws0 (js_rem id (array_length ws0))
                       (length (remotes (world s)))) |>;
        world := (spawn_world (world s))
          <| remotes := remotes (world s) ++ [length (workers (world s))] |>;
        trace := trace s
                 ++ [SpawnWorker (length (workers (world s)));
                     Store "enteComlinkWorkers" (js_rem id (array_length ws0));
                     NewRemote (length (workers (world s))) (length (remotes (world s)));
                     Store "enteWorkers" (js_rem id (array_length ws0))] |}).
Proof.
  intros Hws Hcws Hh Hnx.
  getEnteWorker_cases id s; try congruence.
  unfold next_spawn_error in Hnx. rewrite Esp in Hnx. discriminate.
Qed.

(** The two halves of a call of [dispose] on a context that has its queue
    and its pool. *)
Lemma dispose_suspends_eq (s : St) (q0 : nat) (pq0 : PQueue) :
  syncQueue (this s) = Some q0 ->
  queues (world s) !! q0 = Some pq0 ->
  dispose s = (Normal (dispose_rest q0), cleared s [AwaitIdle q0]).
Proof.
  intros Hq Hpq. dispose_cases s; congruence.
Qed.

Lemma teardown_done_eq (s : St) (q0 : nat) (pq0 : PQueue) (cws0 : JsArray ComlinkWorker) :
  syncQueue (this s) = Some q0 ->
  queues (world s) !! q0 = Some pq0 ->
  enteComlinkWorkers (this s) = Some cws0 ->
  teardown s
  = (Normal tt,
     {| this := this s;
        world := (world s)
          <| queues := <[q0 := silenced pq0]> (queues (world s)) |>
          <| workers := terminate_all (pool_workers cws0) (workers (world s)) |>;
        trace := trace s ++ [RemoveAllListeners q0] ++ (Terminate <$> pool_workers cws0) |}).
Proof.
  intros Hq Hpq Hcws. teardown_cases s; congruence.
Qed.

(** On [C >= 1] slots the key of a non-negative id is its residue. *)
Lemma js_rem_mod (id C : Z) : 0 <= id -> 1 <= C -> js_rem id C = Some (id mod C).
Proof.
  intros Hid HC. unfold js_rem. destruct (Z.eqb_spec C 0); [lia|].
  by rewrite Z.rem_mod_nonneg by lia.
Qed.

End Pool.

Section PoolInvariant.
Context `{Imports}.

Lemma construct_pool_inv
    (token_ : string) (config_ : MLSyncConfig)
    (shouldUpdate_ : option bool) (concurrency_ : option Z) (w : World) (s : St) :
  construct token_ config_ shouldUpdate_ concurrency_ w = (Normal tt, s) ->
  pool_inv (js_or concurrency_ CONCURRENCY) s
  /\ (forall key, slot_handle s key = None /\ slot_worker s key = None)
  /\ workers (world s) = workers w.
Proof.
  intros Hrun. apply construct_returns in Hrun.
  destruct Hrun as (det & crop & al & emb & clu & _ & _ & _ & _ & _ & _ & Hc & ->).
  set (c := js_or concurrency_ CONCURRENCY) in *.
  assert (Hnew : forall A, @new_Array A c = Normal (mkArray (replicate (Z.to_nat c) None) ∅)).
  { intros A. unfold new_Array.
    destruct (Z.ltb_spec c 0); [lia|]. destruct (Z.ltb_spec (2 ^ 32 - 1) c); [lia|]. done. }
  assert (Hempty : forall A key,
             array_get (@mkArray A (replicate (Z.to_nat c) None) ∅) key = None)
    by (intros A key; eapply array_get_new, Hnew).
  assert (Hlen : forall A, array_length (@mkArray A (replicate (Z.to_nat c) None) ∅) = c)
    by (intros A; eapply array_length_new, Hnew).
  unfold pool_inv, slot_handle, slot_worker;
    cbn [this world enteWorkers enteComlinkWorkers concurrency syncQueue].
  split; [ | split; [ intros key; by rewrite !Hempty | by destruct w ] ].
  split; [lia|]. split; [done|]. split.
  - eexists _, _. do 4 (split; [done|]). intros key. by rewrite !Hempty.
  - eexists. split; [done|]. destruct w; cbn. rewrite length_app; cbn. lia.
Qed.

(** The invariant looks at four fields of the instance, at the remotes and
    at the number of workers and of queues. *)
Lemma pool_inv_ext (C : Z) (s s' : St) :
  concurrency (this s') = concurrency (this s) ->
  enteWorkers (this s') = enteWorkers (this s) ->
  enteComlinkWorkers (this s') = enteComlinkWorkers (this s) ->
  syncQueue (this s') = syncQueue (this s) ->
  remotes (world s') = remotes (world s) ->
  length (workers (world s')) = length (workers (world s)) ->
  length (queues (world s')) = length (queues (world s)) ->
  pool_inv C s -> pool_inv C s'.
Proof.
  unfold pool_inv. intros -> -> -> -> -> -> ->. done.
Qed.

Lemma getEnteWorker_pool_inv (C : Z) (id : Z) (s : St) :
  pool_inv C s -> pool_inv C (snd (getEnteWorker id s)).
Proof.
  intros Hinv.
  pose proof Hinv as
    (HC & Hconc & (ws0 & cws0 & Hws & Hcws & Hlw & Hlc & Hslots) & (q0 & Hq & Hqlt)).
  getEnteWorker_cases id s; [ congruence | done | | congruence | ].
  - split; [done|]. split; [done|]. split; [ | by exists q0 ].
    by exists ws0, cws0.
  - assert (ws = ws0) as -> by congruence. assert (cws = cws0) as -> by congruence.
    split; [done|]. split; [done|]. split; [ | by exists q0 ].
    eexists _, _. split; [done|]. split; [done|].
    split; [by rewrite array_length_set_rem|].
    split; [ rewrite Hlw, <- Hlc; apply array_length_set_rem | ].
    intros key. rewrite !array_get_set. case_decide as Hk.
    + eexists. split; [done|]. cbn.
      rewrite list_lookup_middle by done. split; [done|].
      rewrite length_app; cbn; lia.
    + specialize (Hslots key). destruct (array_get ws0 key) as [h0|]; [ | done ].
      destruct Hslots as (cw & Hcw & Hrem & Hlt). exists cw. split; [done|].
      cbn. split; [by apply lookup_app_l_Some|]. rewrite length_app; cbn; lia.
Qed.

Lemma dispose_pool_inv (C : Z) (s : St) :
  pool_inv C s -> pool_inv C (snd (dispose s)).
Proof.
  apply pool_inv_ext; dispose_cases s; reflexivity.
Qed.

Lemma teardown_pool_inv (C : Z) (s : St) :
  pool_inv C s -> pool_inv C (snd (teardown s)).
Proof.
  apply pool_inv_ext; teardown_cases s; cbn;
    rewrite ?length_insert, ?length_terminate_all; reflexivity.
Qed.

Lemma add_task_pool_inv (C : Z) (s : St) :
  pool_inv C s -> pool_inv C (snd (add_task s)).
Proof.
  apply pool_inv_ext; destruct (add_task_spec s) as [-> | (q & pq & _ & _ & ->)]; cbn;
    rewrite ?length_insert; reflexivity.
Qed.

Lemma finish_task_pool_inv (C : Z) (s : St) :
  pool_inv C s -> pool_inv C (snd (finish_task s)).
Proof.
  apply pool_inv_ext; destruct (finish_task_spec s) as [-> | (q & pq & _ & _ & ->)]; cbn;
    rewrite ?length_insert; reflexivity.
Qed.

Lemma write_field_pool_inv (C : Z) (w : FieldWrite) (s : St) :
  pool_inv C s -> pool_inv C (snd (write_field w s)).
Proof.
  apply pool_inv_ext; destruct w; reflexivity.
Qed.

Lemma run_ops_pool_inv (C : Z) (ops : list Op) (s : St) :
  pool_inv C s -> pool_inv C (run_ops ops s).
Proof.
  apply (run_ops_invariant (pool_inv C)).
  - intros id s'. apply getEnteWorker_pool_inv.
  - intros s'. apply dispose_pool_inv.
  - intros q0 s' Hinv. apply teardown_pool_inv. revert Hinv. by apply pool_inv_ext.
  - intros s'. apply add_task_pool_inv.
  - intros s'. apply finish_task_pool_inv.
  - intros w s'. apply write_field_pool_inv.
Qed.

Lemma run_op_pool_inv (C : Z) (op : Op) (s : St) :
  pool_inv C s -> pool_inv C (run_op op s).
Proof. apply (run_ops_pool_inv C [op]). Qed.

Lemma constructed_pool_inv (C : Z) (s0 : St) (ops : list Op) :
  constructed C s0 -> pool_inv C (run_ops ops s0).
Proof.
  intros (t & cfg & upd & conc & w & Hrun & HC).
  apply run_ops_pool_inv.
  destruct (construct_pool_inv _ _ _ _ _ _ Hrun) as [Hinv _].
  destruct Hinv as (? & Hconc & ?). assert (C = js_or conc CONCURRENCY) as -> by congruence.
  done.
Qed.

(** The calls counted for a [dispose] are those made while it is
    suspended. *)
Lemma op_spawns_Dispose (key : option Z) (during : list Op) (s : St) :
  op_spawns key (Dispose during) s
  = match dispose s with
    | (Normal _, s1) => slot_spawns key during s1
    | (Throw _, _) => 0%nat
    end.
Proof.
  cbn [op_spawns]. destruct (dispose s) as [[p|e] s1]; [ | done ].
  revert s1. induction during as [|op during IH]; intros s1; [done|].
  cbn [slot_spawns]. by rewrite <- IH.
Qed.

(** Along a run, the calls served under one key spawn at most one worker,
    and none once the slot is populated; a call that has spawned one has
    populated the slot. *)
Lemma slot_spawns_facts (C : Z) (key : option Z) (ops : list Op) (s : St) :
  pool_inv C s ->
  (slot_spawns key ops s <= 1)%nat
  /\ (is_Some (slot_handle s key) -> slot_spawns key ops s = 0%nat)
  /\ (slot_spawns key ops s <> 0%nat -> is_Some (slot_handle (run_ops ops s) key)).
Proof.
  assert (Hkept : forall ops s, is_Some (slot_handle s key) ->
                                is_Some (slot_handle (run_ops ops s) key)).
  { intros ops' s' [h0 Hh0]. destruct (run_ops_slot_kept ops' s' key h0 Hh0) as [-> _].
    by eexists. }
  assert (Hlist : forall ops,
             Forall (fun op => forall s, pool_inv C s ->
                       (op_spawns key op s <= 1)%nat
                       /\ (is_Some (slot_handle s key) -> op_spawns key op s = 0%nat)
                       /\ (op_spawns key op s <> 0%nat ->
                           is_Some (slot_handle (run_op op s) key))) ops ->
             forall s, pool_inv C s ->
               (slot_spawns key ops s <= 1)%nat
               /\ (is_Some (slot_handle s key) -> slot_spawns key ops s = 0%nat)
               /\ (slot_spawns key ops s <> 0%nat ->
                   is_Some (slot_handle (run_ops ops s) key))).
  { induction 1 as [|op ops' Hop _ IH]; intros s' Hinv; cbn [slot_spawns].
    { split; [lia|]. split; [done|]. lia. }
    destruct (Hop s' Hinv) as (Hle & Hzero & Hpop).
    destruct (IH _ (run_op_pool_inv C op s' Hinv)) as (IHle & IHzero & IHpop).
    cbn [run_ops fold_left]. change (fold_left _ ops' ?x) with (run_ops ops' x).
    split; [ | split ].
    - destruct (decide (op_spawns key op s' = 0%nat)) as [->|Hne]; [done|].
      rewrite IHzero by auto. lia.
    - intros Hsome. rewrite Hzero by done.
      rewrite IHzero; [done|]. by apply (Hkept [op]).
    - intros Hne. destruct (decide (op_spawns key op s' = 0%nat)) as [Hz|Hnz].
      + apply IHpop. lia.
      + by apply Hkept, Hpop. }
  revert s. apply Hlist. apply Forall_forall. intros op _. clear ops.
  induction op as [id|during IH| | |w] using Op_nested_ind; intros s Hinv.
  2:{ rewrite op_spawns_Dispose, run_op_Dispose.
      pose proof (dispose_pool_inv C s Hinv) as Hinv1.
      pose proof (dispose_spec s) as Hrun.
      destruct (dispose s) as [r s1]. cbn [fst snd] in *.
      assert (Hsame : slot_handle s1 key = slot_handle s key)
        by (destruct Hrun; reflexivity).
      destruct Hrun as [ Hq0 | q0 Hq0 Hpq0 | q0 pq0 Hq0 Hpq0 ].
      1,2: split; [lia|]; split; [done|]; lia.
      destruct (Hlist during IH _ Hinv1) as (Hle & Hzero & Hpop).
      split; [done|]. split; [ by rewrite <- Hsame | ].
      intros Hne. specialize (Hpop Hne).
      pose proof (dispose_rest_spec q0 (run_ops during (cleared s [AwaitIdle q0]))) as Hspec.
      destruct (queues (world (run_ops during (cleared s [AwaitIdle q0]))) !! q0) as [pq'|];
        [ | by rewrite Hspec ].
      case_decide; rewrite Hspec; [ | done ].
      teardown_cases (idled q0 (run_ops during (cleared s [AwaitIdle q0]))); exact Hpop. }
  2,3,4: cbn [op_spawns]; split; [lia|]; split; [done|]; lia.
  cbn [op_spawns run_op].
  unfold slot_of, spawned_between, slot_handle in *.
  destruct Hinv as (_ & _ & (ws0 & cws0 & Hws & Hcws & _) & _).
  rewrite Hws in *.
  getEnteWorker_cases id s; try congruence.
  - rewrite Ews, Nat.sub_diag. case_decide; (split; [lia|]; split; [done|]; lia).
  - cbn. rewrite Ews, Nat.sub_diag. case_decide; (split; [lia|]; split; [done|]; lia).
  - assert (ws = ws0) as -> by congruence.
    cbn. rewrite length_app. cbn [length].
    case_decide as Hk.
    + subst key. rewrite array_get_set_eq. split; [lia|].
      split; [ | by eexists ]. rewrite Eh. by intros [? ?].
    + split; [lia|]. split; [done|]. lia.
Qed.

Lemma slot_spawns_bound (C : Z) (key : option Z) (ops : list Op) (s : St) :
  pool_inv C s ->
  (slot_spawns key ops s <= 1)%nat
  /\ (is_Some (slot_handle s key) -> slot_spawns key ops s = 0%nat).
Proof.
  intros Hinv. destruct (slot_spawns_facts C key ops s Hinv) as (? & ? & _). done.
Qed.

End PoolInvariant.

(** ** The worker pool *)

Section WorkerPool.
Context `{Imports}.

(** C9.  No call made on a context after its construction changes the
    token, the configuration, the update flag, the five resolved services
    or the concurrency: whatever the sequence of calls of [getEnteWorker]
    (with any id) and [dispose], of the steps made while a [dispose] is
    suspended, of tasks added to the queue or finished and of writes of the
    sync state, these fields are afterwards what they were before. *)
Theorem fields_immutable_after_construction (ops : list Op) (s : St) :
  let s' := run_ops ops s in
  token (this s') = token (this s)
  /\ config (this s') = config (this s)
  /\ shouldUpdateMLVersion (this s') = shouldUpdateMLVersion (this s)
  /\ faceDetectionService (this s') = faceDetectionService (this s)
  /\ faceCropService (this s') = faceCropService (this s)
  /\ faceAlignmentService (this s') = faceAlignmentService (this s)
  /\ faceEmbeddingService (this s') = faceEmbeddingService (this s)
  /\ faceClusteringService (this s') = faceClusteringService (this s)
  /\ concurrency (this s') = concurrency (this s).
Proof.
  intros s'. pose proof (run_ops_immutable ops s) as Heq.
  unfold immutable_part in Heq. fold s' in Heq.
  injection Heq as -> -> -> -> -> -> -> -> ->. repeat split.
Qed.

(** C5.  In a context constructed with concurrency [C] both pool arrays
    have length [C], at construction and after any sequence of calls; so at
    most [C] of their elements are populated. *)
Theorem pool_length_is_concurrency (C : Z) (s0 : St) (ops : list Op) :
  constructed C s0 ->
  exists ws cws,
    enteWorkers (this (run_ops ops s0)) = Some ws
    /\ enteComlinkWorkers (this (run_ops ops s0)) = Some cws
    /\ array_length ws = C /\ array_length cws = C
    /\ Z.of_nat (populated ws) <= C /\ Z.of_nat (populated cws) <= C.
Proof.
  intros Hnew.
  destruct (constructed_pool_inv C s0 ops Hnew)
    as (_ & _ & (ws & cws & Hws & Hcws & Hlw & Hlc & _) & _).
  exists ws, cws. do 4 (split; [done|]).
  rewrite <- Hlw at 1. rewrite <- Hlc. split; apply populated_le_length.
Qed.

(** C4.  In a constructed context, whatever the order in which racing
    callers of [getEnteWorker] are served (a call has no suspension point,
    so it runs to completion before the next one starts), the calls mapped
    to one key of the pool create at most one worker between them, those
    made while a call of [dispose] is suspended included. *)
Theorem worker_created_at_most_once
    (C : Z) (s0 : St) (key : option Z) (ops : list Op) :
  constructed C s0 ->
  (slot_spawns key ops s0 <= 1)%nat.
Proof.
  intros Hnew. eapply slot_spawns_bound.
  apply (constructed_pool_inv C s0 [] Hnew).
Qed.

(** In a constructed context a call that returns hands out the handle
    stored under the key of its id. *)
Lemma getEnteWorker_returns (C : Z) (id : Z) (s s' : St) (r : option nat) :
  pool_inv C s ->
  getEnteWorker id s = (Normal r, s') ->
  exists handle, r = Some handle /\ slot_handle s' (js_rem id C) = Some handle.
Proof.
  intros (_ & _ & (ws0 & cws0 & Hws & Hcws & Hlw & _) & _) Hcall.
  unfold slot_handle.
  destruct (array_get ws0 (js_rem id (array_length ws0))) as [h0|] eqn:Eh.
  - rewrite (getEnteWorker_hit_eq id s h0) in Hcall
      by (unfold slot_handle, slot_of; by rewrite Hws).
    injection Hcall as <- <-. exists h0. by rewrite Hws, <- Hlw.
  - destruct (next_spawn_error (world s)) as [err|] eqn:Hnx.
    + rewrite (getEnteWorker_fails_eq id s err) in Hcall;
        [ discriminate | by eexists | unfold slot_handle, slot_of; by rewrite Hws | done ].
    + rewrite (getEnteWorker_creates_eq id s ws0 cws0) in Hcall by done.
      injection Hcall as <- <-. eexists. split; [done|]. cbn.
      by rewrite <- Hlw, array_get_set_eq.
Qed.

(** C2.  In a context constructed with concurrency [C], let [i] and [j]
    be task ids, both at least 0, with [i mod C = j mod C].  Whenever a call
    for [i] returns and, any number of calls later, a call for [j] returns,
    both return the same handle.  The slot of that handle was empty when the
    constructor returned, holds a worker once the first call has returned,
    and neither its handle nor its worker is replaced by any later call. *)
Theorem same_slot_same_handle
    (C : Z) (s0 : St) (i j : Z) (ops1 ops2 : list Op)
    (hi hj : option nat) (s1 s2 : St) :
  constructed C s0 ->
  0 <= i -> 0 <= j -> i mod C = j mod C ->
  getEnteWorker i (run_ops ops1 s0) = (Normal hi, s1) ->
  getEnteWorker j (run_ops ops2 s1) = (Normal hj, s2) ->
  (exists handle, hi = Some handle /\ hj = Some handle)
  /\ slot_handle s0 (js_rem i C) = None /\ slot_worker s0 (js_rem i C) = None
  /\ is_Some (slot_worker s1 (js_rem i C))
  /\ forall ops3,
       slot_handle (run_ops ops3 s1) (js_rem i C) = hi
       /\ slot_worker (run_ops ops3 s1) (js_rem i C) = slot_worker s1 (js_rem i C).
Proof.
  intros Hnew Hi Hj Hij Hcall1 Hcall2.
  pose proof (constructed_pool_inv C s0 ops1 Hnew) as Hinv.
  assert (Hinv1 : pool_inv C s1).
  { replace s1 with (run_op (GetEnteWorker i) (run_ops ops1 s0))
      by (cbn; by rewrite Hcall1).
    by apply run_op_pool_inv. }
  assert (HC : 1 <= C) by apply Hinv.
  assert (Hkey : js_rem j C = js_rem i C) by (rewrite !js_rem_mod by done; by f_equal).
  destruct (getEnteWorker_returns C i _ _ _ Hinv Hcall1) as (h1 & -> & Hslot1).
  pose proof (run_ops_slot_kept ops2 s1 _ h1 Hslot1) as [Hslot2 _].
  assert (Hhit : getEnteWorker j (run_ops ops2 s1) = (Normal (Some h1), run_ops ops2 s1)).
  { apply getEnteWorker_hit_eq. unfold slot_of.
    pose proof (run_ops_pool_inv C ops2 s1 Hinv1)
      as (_ & _ & (ws & cws & Hws & _ & Hlw & _) & _).
    by rewrite Hws, Hlw, Hkey. }
  rewrite Hhit in Hcall2. injection Hcall2 as <- <-.
  split; [by exists h1|].
  destruct Hnew as (t & cfg & upd & conc & w & Hrun & _).
  destruct (construct_pool_inv _ _ _ _ _ _ Hrun) as (_ & Hempty & _).
  split; [apply Hempty|]. split; [apply Hempty|]. split.
  - destruct Hinv1 as (_ & _ & (ws & cws & Hws & Hcws & _ & _ & Hslots) & _).
    unfold slot_handle, slot_worker in *. rewrite Hws in Hslot1. rewrite Hcws.
    specialize (Hslots (js_rem i C)). rewrite Hslot1 in Hslots.
    destruct Hslots as (cw & -> & _). by eexists.
  - intros ops3. by apply run_ops_slot_kept.
Qed.

(** C6.  In a constructed context, when the slot for [id] is empty and
    spawning the worker fails with an error, [getEnteWorker id] fails with
    that very error.  The instance is left as it was, so the slot is still
    empty in both arrays and all other slots are untouched; no worker,
    remote or queue has changed.  A later call for the same id, once
    spawning succeeds, creates the worker and returns its handle. *)
Theorem worker_init_failure
    (C : Z) (s0 : St) (ops : list Op) (id : Z) (err : JsError) :
  constructed C s0 ->
  slot_handle (run_ops ops s0) (js_rem id C) = None ->
  next_spawn_error (world (run_ops ops s0)) = Some err ->
  exists s',
    getEnteWorker id (run_ops ops s0) = (Throw err, s')
    /\ this s' = this (run_ops ops s0)
    /\ slot_handle s' (js_rem id C) = None
    /\ slot_worker s' (js_rem id C) = None
    /\ workers (world s') = workers (world (run_ops ops s0))
    /\ remotes (world s') = remotes (world (run_ops ops s0))
    /\ queues (world s') = queues (world (run_ops ops s0))
    /\ (next_spawn_error (world s') = None ->
        exists handle w s'',
          getEnteWorker id s' = (Normal (Some handle), s'')
          /\ slot_handle s'' (js_rem id C) = Some handle
          /\ slot_worker s'' (js_rem id C) = Some {| comlink := w; worker := w |}
          /\ remotes (world s'') !! handle = Some w
          /\ workers (world s'') !! w = Some true).
Proof.
  intros Hnew. set (s := run_ops ops s0). intros Hempty Hnx.
  pose proof (constructed_pool_inv C s0 ops Hnew) as Hinv. fold s in Hinv.
  pose proof Hinv as (_ & _ & (ws0 & cws0 & Hws & Hcws & Hlw & Hlc & Hslots) & _).
  assert (Hfail := getEnteWorker_fails_eq id s err).
  unfold slot_of in Hfail. rewrite Hws, Hlw in Hfail.
  specialize (Hfail ltac:(by eexists) Hempty Hnx).
  eexists. split; [exact Hfail|]. cbn [this world].
  split; [done|].
  assert (Hcw : array_get cws0 (js_rem id C) = None).
  { specialize (Hslots (js_rem id C)). unfold slot_handle in Hempty.
    rewrite Hws in Hempty. by rewrite Hempty in Hslots. }
  unfold slot_handle, slot_worker in *; cbn [this world]. rewrite Hcws.
  split; [done|]. split; [done|].
  destruct (world s) as [qs wk rm sp] eqn:Ew. cbn.
  do 3 (split; [done|]). intros Hnx'.
  rewrite Hws in Hempty. rewrite <- Hlw in Hempty, Hcw.
  erewrite getEnteWorker_creates_eq; [ | exact Hws | exact Hcws | exact Hempty | exact Hnx' ].
  cbn. eexists _, _, _. split; [done|]. cbn.
  rewrite <- Hlw, !array_get_set_eq. split; [done|]. split; [done|].
  by rewrite !list_lookup_middle.
Qed.

End WorkerPool.

(** ** Disposal *)

Section Disposal.
Context `{Imports}.

Lemma pool_workers_elem (cws : JsArray ComlinkWorker) (w : nat) :
  w ∈ pool_workers cws ->
  exists (n : nat) cw, array_get cws (Some (Z.of_nat n)) = Some cw /\ worker cw = w.
Proof.
  unfold pool_workers. intros Hin.
  apply list_elem_of_fmap in Hin as (cw & -> & Hin).
  apply list_elem_of_omap in Hin as (slot & Hin & Hslot). cbn in Hslot. subst slot.
  apply list_elem_of_lookup in Hin as [n Hn].
  exists n, cw. split; [ | done ]. unfold array_get.
  destruct (Z.leb_spec 0 (Z.of_nat n)); [ | lia ]. by rewrite Nat2Z.id, Hn.
Qed.




Lemma terminate_all_others (ws : list nat) (running : list bool) (w : nat) :
  w ∉ ws -> terminate_all ws running !! w = running !! w.
Proof.
  intros Hout. rewrite lookup_terminate_all.
  destruct (running !! w); cbn; [ | done ]. by rewrite bool_decide_eq_false_2.
Qed.

(** *** What a run never undoes *)

Lemma run_ops_grows (ops : list Op) (s : St) :
  syncQueue (this (run_ops ops s)) = syncQueue (this s)
  /\ exists added, trace (run_ops ops s) = trace s ++ added.
Proof.
  apply (run_ops_invariant
           (fun s' => syncQueue (this s') = syncQueue (this s)
                      /\ exists added, trace s' = trace s ++ added)).
  - intros id s' [<- [added Hadded]].
    getEnteWorker_cases id s'; (split; [done|]); rewrite Hadded, <- ?app_assoc; by eexists.
  - intros s' [<- [added Hadded]].
    dispose_cases s'; (split; [done|]); rewrite Hadded, <- ?app_assoc; by eexists.
  - intros q0 s' [<- [added Hadded]].
    teardown_cases (idled q0 s'); (split; [done|]); rewrite Hadded, <- ?app_assoc;
      by eexists.
  - intros s' [<- [added Hadded]].
    destruct (add_task_spec s') as [-> | (q & pq & _ & _ & ->)]; (split; [done|]); cbn;
      rewrite Hadded, <- ?app_assoc; by eexists.
  - intros s' [<- [added Hadded]].
    destruct (finish_task_spec s') as [-> | (q & pq & _ & _ & ->)]; (split; [done|]); cbn;
      rewrite Hadded, <- ?app_assoc; by eexists.
  - intros w s' [<- [added Hadded]].
    destruct w; (split; [done|]); cbn; rewrite Hadded, <- ?app_assoc; by eexists.
  - split; [done|]. exists []. by rewrite app_nil_r.
Qed.

(** *** The two halves of a call, in a constructed context *)

(** A call of [dispose] clears [localFilesMap], asks the queue of the
    context for the promise of its idleness and is suspended on it. *)
Lemma dispose_suspends (C : Z) (s : St) :
  pool_inv C s ->
  exists q pq,
    syncQueue (this s) = Some q
    /\ queues (world s) !! q = Some pq
    /\ dispose s = (Normal (dispose_rest q), cleared s [AwaitIdle q]).
Proof.
  intros (_ & _ & _ & (q & Hq & Hqlt)).
  destruct (lookup_lt_is_Some_2 _ _ Hqlt) as [pq Hpq].
  exists q, pq. do 2 (split; [done|]). by eapply dispose_suspends_eq.
Qed.


(** Once no task is left it settles, by these steps. *)
Lemma dispose_settles (C : Z) (q : nat) (s : St) :
  pool_inv C s ->
  syncQueue (this s) = Some q ->
  pending_tasks s = Some 0%nat ->
  exists pq cws,
    queues (world s) !! q = Some pq
    /\ pq_pending pq = 0%nat
    /\ enteComlinkWorkers (this s) = Some cws
    /\ dispose_rest q s
       = Some (Normal tt,
               {| this := this s;
                  world := (world s)
                    <| queues := <[q := silenced pq]> (queues (world s)) |>
                    <| workers := terminate_all (pool_workers cws) (workers (world s)) |>;
                  trace := trace s ++ [QueueIdle q; RemoveAllListeners q]
                                   ++ (Terminate <$> pool_workers cws) |}).
Proof.
  intros (_ & _ & (ws & cws & _ & Hcws & _) & _) Hq Hidle.
  unfold pending_tasks in Hidle. rewrite Hq in Hidle.
  pose proof (dispose_rest_spec q s) as Hspec.
  destruct (queues (world s) !! q) as [pq|] eqn:Hpq; [ | done ].
  injection Hidle as Hidle. rewrite decide_True in Hspec by done.
  exists pq, cws. do 3 (split; [done|]).
  rewrite Hspec, (teardown_done_eq (idled q s) q pq cws) by done.
  unfold idled. cbn [this world trace]. by rewrite <- !app_assoc.
Qed.




End Disposal.

(** ** The model at work in the concrete setting *)

Example registry_knows_BlazeFace :
  MLFactory.getFaceDetectionService "BlazeFace" = Normal blazeFaceDetectionService.
Proof. reflexivity. Qed.

Example registry_rejects_Kmeans :
  MLFactory.getClusteringService "Kmeans" = Throw (Error "Unknon clustering method: Kmeans").
Proof. reflexivity. Qed.

Example rem_of_negative_id : js_rem (-3) 2 = Some (-1).
Proof. reflexivity. Qed.

Example demo_pool_after_two_workers :
  slot_handle demo_s2 (Some 0) = Some 1%nat
  /\ slot_handle demo_s2 (Some 1) = Some 0%nat
  /\ workers (world demo_s2) = [true; true].
Proof. vm_compute. done. Qed.

Lemma demo_s0_constructed : constructed (H := demo_imports) 2 demo_s0.
Proof.
  exists "token", demo_config, None, (Some 2), empty_world.
  split; vm_compute; reflexivity.
Qed.

Lemma demo_flaky_constructed : constructed (H := demo_imports) 2 demo_flaky.
Proof.
  exists "token", demo_config, None, (Some 2), flaky_world.
  split; vm_compute; reflexivity.
Qed.

(** C7 as the spec states it fails: after a successful construction
    [localFilesMap] and [allSyncedFacesMap] are not empty collections, they
    are [undefined]. *)
Lemma constructor_leaves_maps_undefined :
  exists s,
    construct (H := demo_imports) "token" demo_config None (Some 2) empty_world
    = (Normal tt, s)
    /\ localFilesMap (this s) <> Some ∅
    /\ allSyncedFacesMap (this s) <> Some ∅.
Proof.
  exists demo_s0. split; [vm_compute; reflexivity|].
  split; vm_compute; discriminate.
Qed.

Lemma constructor_unknown_method_witness :
  (exists st, registered st (stage_method bad_config st) = false)
  /\ exists st s,
       construct (H := demo_imports) "token" bad_config None None empty_world
       = (Throw (Error ("Unknon " +:+ stage_words st +:+ " method: "
                        +:+ stage_method bad_config st)), s)
       /\ registered st (stage_method bad_config st) = false
       /\ nothing_set_up (this s)
       /\ world s = empty_world
       /\ Forall (fun e => exists f, e = Assign f) (trace s).
Proof.
  assert (Hbad : exists st, registered st (stage_method bad_config st) = false)
    by (exists FaceEmbeddingStage; vm_compute; reflexivity).
  split; [exact Hbad|].
  exact (constructor_unknown_method (H := demo_imports)
           "token" bad_config None None empty_world Hbad).
Defined.

Lemma constructor_initial_state_witness :
  construct (H := demo_imports) "token" demo_config None (Some 2) empty_world
  = (Normal tt, demo_s0)
  /\ concurrency (this demo_s0) = Some 2
  /\ nSyncedFiles (this demo_s0) = Some 0
  /\ nSyncedFaces (this demo_s0) = Some 0
  /\ outOfSyncFiles (this demo_s0) = Some []
  /\ localFilesMap (this demo_s0) = None
  /\ allSyncedFacesMap (this demo_s0) = None.
Proof.
  assert (Hrun : construct (H := demo_imports) "token" demo_config None (Some 2) empty_world
                 = (Normal tt, demo_s0)) by (vm_compute; reflexivity).
  split; [exact Hrun|].
  destruct (constructor_initial_state (H := demo_imports) _ _ _ _ _ _ Hrun)
    as (Hgiven & _ & Hrest).
  split; [ | exact Hrest ].
  apply (Hgiven 2); [reflexivity | discriminate].
Defined.

Lemma same_slot_same_handle_witness :
  (exists handle, Some 0%nat = Some handle /\ Some 0%nat = Some handle)
  /\ slot_handle demo_s0 (js_rem 1 2) = None
  /\ slot_worker demo_s0 (js_rem 1 2) = None
  /\ is_Some (slot_worker demo_s1 (js_rem 1 2))
  /\ forall ops3,
       slot_handle (run_ops (H := demo_imports) ops3 demo_s1) (js_rem 1 2) = Some 0%nat
       /\ slot_worker (run_ops (H := demo_imports) ops3 demo_s1) (js_rem 1 2)
          = slot_worker demo_s1 (js_rem 1 2).
Proof.
  apply (same_slot_same_handle (H := demo_imports) 2 demo_s0 1 3
           [] [GetEnteWorker 0; AddTask] (Some 0%nat) (Some 0%nat) demo_s1 demo_s2).
  - exact demo_s0_constructed.
  - lia.
  - lia.
  - reflexivity.
  - vm_compute. reflexivity.
  - vm_compute. reflexivity.
Defined.

Lemma worker_created_at_most_once_witness :
  (slot_spawns (H := demo_imports) (Some 1%Z)
     [GetEnteWorker 1%Z; GetEnteWorker 3%Z; GetEnteWorker 0%Z; GetEnteWorker 5%Z] demo_s0
   <= 1)%nat.
Proof.
  apply (worker_created_at_most_once (H := demo_imports) 2). exact demo_s0_constructed.
Defined.

Lemma pool_length_is_concurrency_witness :
  exists ws cws,
    enteWorkers (this (run_ops (H := demo_imports) [GetEnteWorker 1; GetEnteWorker 4] demo_s0))
    = Some ws
    /\ enteComlinkWorkers
         (this (run_ops (H := demo_imports) [GetEnteWorker 1; GetEnteWorker 4] demo_s0))
       = Some cws
    /\ array_length ws = 2 /\ array_length cws = 2
    /\ Z.of_nat (populated ws) <= 2 /\ Z.of_nat (populated cws) <= 2.
Proof.
  apply (pool_length_is_concurrency (H := demo_imports) 2). exact demo_s0_constructed.
Defined.

Lemma worker_init_failure_witness :
  exists s' handle w s'',
    getEnteWorker (H := demo_imports) 1 (run_ops (H := demo_imports) [] demo_flaky)
    = (Throw (Error "worker script failed to load"), s')
    /\ this s' = this (run_ops (H := demo_imports) [] demo_flaky)
    /\ slot_handle s' (js_rem 1 2) = None
    /\ slot_worker s' (js_rem 1 2) = None
    /\ getEnteWorker (H := demo_imports) 1 s' = (Normal (Some handle), s'')
    /\ slot_handle s'' (js_rem 1 2) = Some handle
    /\ remotes (world s'') !! handle = Some w
    /\ workers (world s'') !! w = Some true.
Proof.
  destruct (worker_init_failure (H := demo_imports) 2 demo_flaky [] 1
              (Error "worker script failed to load"))
    as (s' & Hfail & Hthis & Hh & Hw & _ & _ & _ & Hretry).
  - exact demo_flaky_constructed.
  - vm_compute. reflexivity.
  - vm_compute. reflexivity.
  - destruct Hretry as (handle & w & s'' & Hcall & Hslot & _ & Hrem & Hrun).
    + apply (f_equal snd) in Hfail. cbn [snd] in Hfail. subst s'.
      vm_compute. reflexivity.
    + exists s', handle, w, s''. repeat split; assumption.
Defined.





(** ** The file helpers *)

Section Slices.
Context {A : Type}.
Implicit Types (xs : list A).

(** A slice between two offsets that are not negative. *)
Lemma js_slice_chunk xs (offset chunkSize : Z) :
  0 <= offset -> 0 <= chunkSize ->
  js_slice xs offset (chunkSize + offset)
  = take (Z.to_nat chunkSize) (drop (Z.to_nat offset) xs).
Proof.
  intros Ho Hc. unfold js_slice, slice_index.
  destruct (Z.ltb_spec offset 0); [lia|]. destruct (Z.ltb_spec (chunkSize + offset) 0); [lia|].
  destruct (Z.le_gt_cases (Z.of_nat (length xs)) offset) as [Hge|Hlt].
  { rewrite !drop_ge by lia. by rewrite !take_nil. }
  rewrite (Z.min_l offset) by lia.
  destruct (Z.le_gt_cases (chunkSize + offset) (Z.of_nat (length xs))) as [Hin|Hout].
  - rewrite Z.min_l by lia. f_equal. lia.
  - rewrite Z.min_r by lia. rewrite !take_ge; [done | | ]; rewrite length_drop; lia.
Qed.

(** A slice from the start. *)
Lemma js_slice_head xs (n : Z) : 0 <= n -> js_slice xs 0 n = take (Z.to_nat n) xs.
Proof.
  intros Hn. replace n with (n + 0) at 1 by lia. by rewrite js_slice_chunk.
Qed.

(** A slice that drops the last [k] elements. *)
Lemma js_slice_drop_last xs (k : nat) :
  (0 < k <= length xs)%nat ->
  js_slice xs 0 (-1 * Z.of_nat k) = take (length xs - k) xs.
Proof.
  intros Hk. unfold js_slice, slice_index.
  destruct (Z.ltb_spec 0 0); [lia|]. destruct (Z.ltb_spec (-1 * Z.of_nat k) 0); [ | lia ].
  rewrite Z.min_l by lia. rewrite Z.max_l by lia. cbn [Z.to_nat drop]. f_equal. lia.
Qed.

End Slices.

Lemma list_ascii_of_string_app (a b : string) :
  list_ascii_of_string (a +:+ b) = list_ascii_of_string a ++ list_ascii_of_string b.
Proof. induction a as [|c a IH]; simpl; [done | by f_equal]. Qed.

Lemma length_list_ascii_of_string (s : string) :
  length (list_ascii_of_string s) = String.length s.
Proof. induction s as [|c s IH]; simpl; [done | by f_equal]. Qed.

Lemma string_of_list_ascii_app (a b : list ascii) :
  string_of_list_ascii (a ++ b) = string_of_list_ascii a +:+ string_of_list_ascii b.
Proof. induction a as [|c a IH]; simpl; [done | by rewrite IH]. Qed.

(** [endsWith] holds of the strings that are something followed by the
    suffix. *)
Lemma endsWith_spec (s suffix : string) :
  endsWith s suffix = true <-> exists base, s = base +:+ suffix.
Proof.
  unfold endsWith. rewrite andb_true_iff, Nat.leb_le, bool_decide_eq_true. split.
  - intros [Hlen Hdrop].
    exists (string_of_list_ascii
              (take (length (list_ascii_of_string s) - length (list_ascii_of_string suffix))
                 (list_ascii_of_string s))).
    rewrite <- (string_of_list_ascii_of_string s) at 1.
    rewrite <- (take_drop (length (list_ascii_of_string s)
                           - length (list_ascii_of_string suffix)) (list_ascii_of_string s)) at 1.
    by rewrite Hdrop, string_of_list_ascii_app, string_of_list_ascii_of_string.
  - intros [base ->]. rewrite list_ascii_of_string_app, length_app. split; [lia|].
    rewrite drop_app_length'; [done | lia].
Qed.

(** X1.  The name of an edited file, a base name followed by ["-edited"],
    is mapped to that base name: the marker is cut off, once, and nothing
    else of the name is touched. *)
Theorem getFileOriginalName_strips_marker (file : File) (base : string) :
  name file = base +:+ EDITED_FILE_SUFFIX ->
  getFileOriginalName file = base.
Proof.
  intros Hname. unfold getFileOriginalName.
  rewrite (proj2 (endsWith_spec _ _)) by (by exists base).
  unfold string_slice. rewrite Hname, list_ascii_of_string_app.
  rewrite js_slice_drop_last by (rewrite length_app; cbn; lia).
  rewrite length_app. cbn [EDITED_FILE_SUFFIX list_ascii_of_string length String.length].
  rewrite take_app_length' by lia.
  apply string_of_list_ascii_of_string.
Qed.

(** X2.  A name that does not end with ["-edited"] is returned as it is;
    so is, in particular, a name that carries an extension after the
    marker. *)
Theorem getFileOriginalName_keeps_other_names (file : File) :
  (forall base, name file <> base +:+ EDITED_FILE_SUFFIX) ->
  getFileOriginalName file = name file.
Proof.
  intros Hname. unfold getFileOriginalName.
  destruct (endsWith (name file) EDITED_FILE_SUFFIX) eqn:E; [ | done ].
  apply endsWith_spec in E as [base E]. by destruct (Hname base).
Qed.

(** *** Reading a file in chunks *)

Section ChunkReading.
Implicit Types (worker : FileWorker) (file : File) (chunks : list (list Byte.byte)).

Lemma read_stream_step (reads : nat) worker file (chunkSize offset : Z) :
  0 <= offset -> 0 <= chunkSize ->
  read_stream (S reads) (reader_at worker file chunkSize offset)
  = if offset <? file_size file then
      match getUint8ArrayView worker
              (take (Z.to_nat chunkSize) (drop (Z.to_nat offset) (bytes file))) with
      | Normal chunk =>
          let (chunks, fin) :=
            read_stream reads (reader_at worker file chunkSize (offset + chunkSize)) in
          (chunk :: chunks, fin)
      | Throw e => ([], Errored e)
      end
    else ([], Closed).
Proof.
  intros Ho Hc. cbn [read_stream]. unfold next, reader_at.
  cbn [cr_finished cr_offset cr_file cr_worker cr_chunkSize].
  destruct (offset <? file_size file); [ | done ].
  rewrite js_slice_chunk by done.
  by destruct (getUint8ArrayView worker _).
Qed.

Lemma take_length_take {A} (xs : list A) (n : nat) :
  take (length (take n xs)) xs = take n xs.
Proof.
  rewrite length_take. destruct (Nat.le_ge_cases n (length xs)).
  - by rewrite Nat.min_l.
  - rewrite Nat.min_r by done. by rewrite !take_ge.
Qed.

(** What a stream that closes has delivered. *)
Lemma read_stream_closed worker file (chunkSize : Z) :
  reads_every_blob worker -> 0 < chunkSize ->
  forall (reads : nat) (offset : Z) chunks,
    0 <= offset ->
    read_stream reads (reader_at worker file chunkSize offset) = (chunks, Closed) ->
    concat chunks = drop (Z.to_nat offset) (bytes file)
    /\ forall i : nat,
         chunks !! i
         = if offset + Z.of_nat i * chunkSize <? file_size file
           then Some (js_slice (bytes file) (offset + Z.of_nat i * chunkSize)
                        (chunkSize + (offset + Z.of_nat i * chunkSize)))
           else None.
Proof.
  intros Hworker Hc. induction reads as [|reads IH]; intros offset chunks Ho Hrun.
  { discriminate. }
  rewrite read_stream_step in Hrun by lia.
  destruct (Z.ltb_spec offset (file_size file)) as [Hlt|Hge].
  - rewrite Hworker in Hrun.
    destruct (read_stream reads _) as [chunks' fin] eqn:Hrest.
    injection Hrun as <- ->.
    destruct (IH (offset + chunkSize) chunks' ltac:(lia) Hrest) as [Hcat Hlook].
    split.
    + cbn [concat]. rewrite Hcat.
      replace (Z.to_nat (offset + chunkSize))
        with (Z.to_nat offset + Z.to_nat chunkSize)%nat by lia.
      rewrite <- drop_drop. apply take_drop.
    + intros [|i].
      * rewrite Z.mul_0_l, Z.add_0_r.
        destruct (Z.ltb_spec offset (file_size file)); [ | lia ].
        cbn. by rewrite js_slice_chunk by lia.
      * rewrite lookup_cons, Hlook.
        by replace (offset + chunkSize + Z.of_nat i * chunkSize)
          with (offset + Z.of_nat (S i) * chunkSize) by lia.
  - injection Hrun as <-. split.
    + cbn. rewrite drop_ge; [done|]. unfold file_size in Hge. lia.
    + intros i. cbn. destruct (Z.ltb_spec (offset + Z.of_nat i * chunkSize) (file_size file));
        [ nia | done ].
Qed.

(** A stream over a worker that reads every blob closes, within one read
    more than there are chunks. *)
Lemma read_stream_closes worker file (chunkSize : Z) :
  reads_every_blob worker -> 0 < chunkSize ->
  forall (reads : nat) (offset : Z),
    0 <= offset ->
    file_size file - offset <= Z.of_nat reads * chunkSize ->
    exists chunks,
      read_stream (S reads) (reader_at worker file chunkSize offset) = (chunks, Closed).
Proof.
  intros Hworker Hc. induction reads as [|reads IH]; intros offset Ho Hfuel.
  - rewrite read_stream_step by lia.
    destruct (Z.ltb_spec offset (file_size file)); [lia|]. by eexists.
  - rewrite read_stream_step by lia.
    destruct (Z.ltb_spec offset (file_size file)); [ | by eexists ].
    rewrite Hworker.
    destruct (IH (offset + chunkSize) ltac:(lia) ltac:(lia)) as [chunks ->].
    by eexists.
Qed.

(** What a stream has delivered at any time, over a worker that may
    fail. *)
Lemma read_stream_delivered worker file (chunkSize : Z) :
  reads_truly worker -> 0 < chunkSize ->
  forall (reads : nat) (offset : Z) chunks fin,
    0 <= offset ->
    read_stream reads (reader_at worker file chunkSize offset) = (chunks, fin) ->
    concat chunks
    = take (length (concat chunks)) (drop (Z.to_nat offset) (bytes file))
    /\ (fin = Closed -> concat chunks = drop (Z.to_nat offset) (bytes file))
    /\ forall e, fin = Errored e ->
         offset + Z.of_nat (length (concat chunks)) < file_size file
         /\ getUint8ArrayView worker
              (js_slice (bytes file) (offset + Z.of_nat (length (concat chunks)))
                 (chunkSize + (offset + Z.of_nat (length (concat chunks)))))
            = Throw e.
Proof.
  intros Hworker Hc. induction reads as [|reads IH]; intros offset chunks fin Ho Hrun.
  { injection Hrun as <- <-. by split. }
  rewrite read_stream_step in Hrun by lia.
  destruct (Z.ltb_spec offset (file_size file)) as [Hlt|Hge].
  2:{ injection Hrun as <- <-. split; [done|]. split; [ | done ].
      intros _. cbn. rewrite drop_ge; [done|]. unfold file_size in Hge. lia. }
  destruct (getUint8ArrayView worker _) as [chunk|e0] eqn:Hread.
  2:{ injection Hrun as <- <-. split; [done|]. split; [done|]. intros e [= ->].
      cbn [concat length]. rewrite Z.add_0_r. split; [done|].
      by rewrite js_slice_chunk by lia. }
  apply Hworker in Hread. subst chunk.
  destruct (read_stream reads _) as [chunks' fin'] eqn:Hrest.
  injection Hrun as <- <-.
  destruct (IH (offset + chunkSize) chunks' fin' ltac:(lia) Hrest) as (Hcat & Hclosed & Herr).
  replace (Z.to_nat (offset + chunkSize))
    with (Z.to_nat offset + Z.to_nat chunkSize)%nat in Hcat, Hclosed by lia.
  rewrite <- drop_drop in Hcat, Hclosed.
  set (rest := drop (Z.to_nat offset) (bytes file)) in *.
  set (n := Z.to_nat chunkSize) in *.
  assert (Hall : concat (take n rest :: chunks')
                 = take (n + length (concat chunks')) rest).
  { cbn [concat]. rewrite Hcat at 1. apply take_take_drop. }
  split; [ | split ].
  - rewrite Hall at 2. rewrite take_length_take. exact Hall.
  - intros Hfin. cbn [concat]. rewrite (Hclosed Hfin). apply take_drop.
  - intros e Hfin. destruct (Herr e Hfin) as [Hlt' Hread'].
    assert (Hlen : Z.of_nat (length (concat (take n rest :: chunks')))
                   = chunkSize + Z.of_nat (length (concat chunks'))).
    { cbn [concat]. rewrite length_app, length_take.
      subst rest n. rewrite length_drop. unfold file_size in *. lia. }
    rewrite Hlen.
    replace (offset + (chunkSize + Z.of_nat (length (concat chunks'))))
      with (offset + chunkSize + Z.of_nat (length (concat chunks'))) by lia.
    by split.
Qed.

(** Whatever the worker does, a stream has closed or failed within one read
    more than there are chunks. *)
Lemma read_stream_ends worker file (chunkSize : Z) :
  0 < chunkSize ->
  forall (reads : nat) (offset : Z),
    0 <= offset ->
    file_size file - offset <= Z.of_nat reads * chunkSize ->
    snd (read_stream (S reads) (reader_at worker file chunkSize offset)) <> StillOpen.
Proof.
  intros Hc. induction reads as [|reads IH]; intros offset Ho Hfuel.
  - rewrite read_stream_step by lia.
    destruct (Z.ltb_spec offset (file_size file)); [lia | done].
  - rewrite read_stream_step by lia.
    destruct (Z.ltb_spec offset (file_size file)); [ | done ].
    destruct (getUint8ArrayView worker _); [ | done ].
    specialize (IH (offset + chunkSize) ltac:(lia) ltac:(lia)).
    by destruct (read_stream (S reads) _).
Qed.

(** The number of chunks a closed stream has delivered. *)
Lemma read_stream_count worker file (chunkSize : Z) (reads : nat) chunks :
  reads_every_blob worker -> 0 < chunkSize ->
  read_stream reads (reader_at worker file chunkSize 0) = (chunks, Closed) ->
  file_size file <= Z.of_nat (length chunks) * chunkSize
  /\ ceil_div (file_size file) chunkSize = Some (Z.of_nat (length chunks)).
Proof.
  intros Hworker Hc Hrun.
  destruct (read_stream_closed worker file chunkSize Hworker Hc reads 0 chunks
              ltac:(lia) Hrun) as [_ Hlook].
  assert (Hend : file_size file <= Z.of_nat (length chunks) * chunkSize).
  { pose proof (Hlook (length chunks)) as Hn.
    rewrite lookup_ge_None_2 in Hn by lia.
    destruct (Z.ltb_spec (0 + Z.of_nat (length chunks) * chunkSize) (file_size file));
      [discriminate | lia]. }
  split; [exact Hend|].
  unfold ceil_div. destruct (Z.eqb_spec chunkSize 0); [lia|]. f_equal.
  assert (Hlast : Z.of_nat (length chunks) * chunkSize < file_size file + chunkSize).
  { destruct chunks as [|chunk chunks' _] using rev_ind.
    - cbn. unfold file_size. lia.
    - rewrite length_app in *. cbn [length] in *.
      pose proof (Hlook (length chunks')) as Hn.
      rewrite lookup_app_r, Nat.sub_diag in Hn by lia. cbn in Hn.
      destruct (Z.ltb_spec (0 + Z.of_nat (length chunks') * chunkSize) (file_size file));
        [nia | discriminate]. }
  symmetry. apply Z.opp_inj. rewrite Z.opp_involutive.
  apply Z.div_unique with (r := Z.of_nat (length chunks) * chunkSize - file_size file); lia.
Qed.

(** However many reads it took, a closed stream has delivered the same
    chunks. *)
Lemma read_stream_closed_unique worker file (chunkSize : Z) (reads reads' : nat)
    chunks chunks' :
  reads_every_blob worker -> 0 < chunkSize ->
  read_stream reads (reader_at worker file chunkSize 0) = (chunks, Closed) ->
  read_stream reads' (reader_at worker file chunkSize 0) = (chunks', Closed) ->
  chunks = chunks'.
Proof.
  intros Hworker Hc Hrun Hrun'.
  destruct (read_stream_closed worker file chunkSize Hworker Hc reads 0 chunks
              ltac:(lia) Hrun) as [_ Hlook].
  destruct (read_stream_closed worker file chunkSize Hworker Hc reads' 0 chunks'
              ltac:(lia) Hrun') as [_ Hlook'].
  apply list_eq. intros i. by rewrite Hlook, Hlook'.
Qed.

(** X3.  Round trip of the chunked read.  With a positive chunk size and
    a worker that reads every blob, the stream of a file closes, and the
    chunks it delivers, put end to end, are the contents of the file:
    nothing is lost, repeated or reordered.  It closes within one read more
    than [reads] whenever [reads] chunks of that size can hold the file. *)
Theorem file_stream_round_trip
    (worker : FileWorker) (file : File) (chunkSize : Z) (reads : nat) :
  reads_every_blob worker ->
  0 < chunkSize ->
  file_size file <= Z.of_nat reads * chunkSize ->
  exists chunks,
    read_stream (S reads) (stream (getFileStream worker file chunkSize)) = (chunks, Closed)
    /\ concat chunks = bytes file.
Proof.
  intros Hworker Hc Hfuel.
  destruct (read_stream_closes worker file chunkSize Hworker Hc reads 0) as [chunks Hrun];
    [ lia | lia | ].
  exists chunks. split; [exact Hrun|].
  by destruct (read_stream_closed worker file chunkSize Hworker Hc (S reads) 0 chunks
                 ltac:(lia) Hrun) as [-> _].
Qed.

(** X4.  The [chunkCount] that [getFileStream] announces is the number
    of chunks its stream delivers before it closes, for every positive
    chunk size; for an empty file both are zero. *)
Theorem file_stream_chunk_count
    (worker : FileWorker) (file : File) (chunkSize : Z) (reads : nat)
    (chunks : list (list Byte.byte)) :
  reads_every_blob worker ->
  0 < chunkSize ->
  read_stream reads (stream (getFileStream worker file chunkSize)) = (chunks, Closed) ->
  chunkCount (getFileStream worker file chunkSize) = Some (Z.of_nat (length chunks)).
Proof.
  intros Hworker Hc Hrun.
  by destruct (read_stream_count worker file chunkSize reads chunks Hworker Hc Hrun).
Qed.

(** X5.  The chunks are cut at the multiples of the chunk size: the
    [i]-th chunk delivered is the slice of the file from [i * chunkSize] to
    [(i + 1) * chunkSize].  So no chunk is empty, none is longer than the
    chunk size, and every chunk but the last has exactly that size. *)
Theorem file_stream_chunks
    (worker : FileWorker) (file : File) (chunkSize : Z) (reads : nat)
    (chunks : list (list Byte.byte)) (i : nat) (chunk : list Byte.byte) :
  reads_every_blob worker ->
  0 < chunkSize ->
  read_stream reads (stream (getFileStream worker file chunkSize)) = (chunks, Closed) ->
  chunks !! i = Some chunk ->
  chunk = js_slice (bytes file) (Z.of_nat i * chunkSize) ((Z.of_nat i + 1) * chunkSize)
  /\ 0 < Z.of_nat (length chunk) <= chunkSize
  /\ ((S i < length chunks)%nat -> Z.of_nat (length chunk) = chunkSize).
Proof.
  intros Hworker Hc Hrun Hi.
  destruct (read_stream_closed worker file chunkSize Hworker Hc reads 0 chunks
              ltac:(lia) Hrun) as [_ Hlook].
  pose proof (Hlook i) as Hchunk. rewrite Hi in Hchunk.
  destruct (Z.ltb_spec (0 + Z.of_nat i * chunkSize) (file_size file)) as [Hlt|];
    [ | discriminate ].
  injection Hchunk as ->. rewrite Z.add_0_l in *.
  replace ((Z.of_nat i + 1) * chunkSize) with (chunkSize + Z.of_nat i * chunkSize) by lia.
  split; [done|].
  rewrite js_slice_chunk by lia. rewrite length_take, length_drop.
  unfold file_size in *. split; [lia|].
  intros Hnext. pose proof (Hlook (S i)) as Hn.
  destruct (lookup_lt_is_Some_2 chunks (S i) Hnext) as [chunk' Hsome]. rewrite Hsome in Hn.
  destruct (Z.ltb_spec (0 + Z.of_nat (S i) * chunkSize) (Z.of_nat (length (bytes file))));
    [lia | discriminate].
Qed.

(** X6.  A stream over a worker that may fail.  What the stream has
    delivered, at any time, is a prefix of the contents of the file, in
    order.  When it closes, the prefix is the whole file.  When it fails,
    it fails with the error of the worker, and the read that failed is the
    one of the chunk that follows the prefix: no chunk is skipped.  And it
    has closed or failed once it was read one time more than there are
    chunks. *)
Theorem file_stream_read_failure
    (worker : FileWorker) (file : File) (chunkSize : Z) (reads : nat)
    (chunks : list (list Byte.byte)) (fin : StreamEnd) :
  reads_truly worker ->
  0 < chunkSize ->
  read_stream reads (stream (getFileStream worker file chunkSize)) = (chunks, fin) ->
  concat chunks = take (length (concat chunks)) (bytes file)
  /\ (fin = Closed -> concat chunks = bytes file)
  /\ (forall e, fin = Errored e ->
        Z.of_nat (length (concat chunks)) < file_size file
        /\ getUint8ArrayView worker
             (js_slice (bytes file) (Z.of_nat (length (concat chunks)))
                (chunkSize + Z.of_nat (length (concat chunks))))
           = Throw e)
  /\ (file_size file + chunkSize <= Z.of_nat reads * chunkSize -> fin <> StillOpen).
Proof.
  intros Hworker Hc Hrun.
  destruct (read_stream_delivered worker file chunkSize Hworker Hc reads 0 chunks fin
              ltac:(lia) Hrun) as (Hcat & Hclosed & Herr).
  split; [exact Hcat|]. split; [exact Hclosed|]. split.
  - intros e Hfin. destruct (Herr e Hfin) as [Hlt Hread].
    by rewrite !Z.add_0_l in *.
  - intros Hfuel. destruct reads as [|reads]; [unfold file_size in Hfuel; lia|].
    pose proof (read_stream_ends worker file chunkSize Hc reads 0 ltac:(lia) ltac:(lia))
      as Hends.
    cbn [getFileStream stream] in Hrun.
    change (fileChunkReaderMaker worker file chunkSize)
      with (reader_at worker file chunkSize 0) in Hrun.
    by rewrite Hrun in Hends.
Qed.

End ChunkReading.

Section FileHelperFacts.
Context `{UploadImports}.

(** X7.  [getFileData] hands back the contents of the file, whole or in
    chunks.  With a worker that reads every blob and a positive
    [FILE_READER_CHUNK_SIZE] it never fails; a file of at most
    [MULTIPART_PART_SIZE] bytes is read in one piece, a larger one comes as
    a stream that announces its number of chunks, closes after that many,
    and whose chunks add up to the contents. *)
Theorem getFileData_returns_the_file (worker : FileWorker) (file : File) :
  reads_every_blob worker ->
  0 < FILE_READER_CHUNK_SIZE ->
  match getFileData worker file with
  | Normal (Whole data) =>
      file_size file <= MULTIPART_PART_SIZE /\ data = bytes file
  | Normal (Streamed s) =>
      MULTIPART_PART_SIZE < file_size file
      /\ exists count chunks,
           chunkCount s = Some count
           /\ read_stream (S (Z.to_nat count)) (stream s) = (chunks, Closed)
           /\ Z.of_nat (length chunks) = count
           /\ concat chunks = bytes file
  | Throw _ => False
  end.
Proof.
  intros Hworker Hc. unfold getFileData.
  destruct (Z.ltb_spec MULTIPART_PART_SIZE (file_size file)) as [Hbig|Hsmall].
  2:{ unfold await. by rewrite Hworker. }
  split; [done|]. cbn [getFileStream stream chunkCount].
  change (fileChunkReaderMaker worker file FILE_READER_CHUNK_SIZE)
    with (reader_at worker file FILE_READER_CHUNK_SIZE 0).
  destruct (read_stream_closes worker file FILE_READER_CHUNK_SIZE Hworker Hc
              (Z.to_nat (file_size file)) 0) as [chunks Hrun];
    [ lia | unfold file_size; nia | ].
  destruct (read_stream_count worker file _ _ chunks Hworker Hc Hrun) as [Hend Hcount].
  destruct (read_stream_closes worker file FILE_READER_CHUNK_SIZE Hworker Hc
              (length chunks) 0) as [chunks' Hrun']; [ lia | lia | ].
  assert (chunks' = chunks) as ->
    by (by eapply read_stream_closed_unique).
  exists (Z.of_nat (length chunks)), chunks.
  rewrite Nat2Z.id. do 3 (split; [done|]).
  by destruct (read_stream_closed worker file _ Hworker Hc _ 0 chunks ltac:(lia) Hrun)
    as [-> _].
Qed.

(** X8.  The type of a file is decided by its first 4100 bytes: two
    files that agree on them get the same file type and the same mime type
    from [getFileType], or fail with the same error, whatever else they
    contain and whatever their names. *)
Theorem getFileType_reads_the_head (worker : FileWorker) (file1 file2 : File) :
  take 4100 (bytes file1) = take 4100 (bytes file2) ->
  getFileType worker file1 = getFileType worker file2.
Proof.
  intros Hhead. unfold getFileType, getMimeType.
  rewrite !js_slice_head by done.
  replace (Z.to_nat CHUNK_SIZE_FOR_TYPE_DETECTION) with 4100%nat by reflexivity.
  by rewrite Hhead.
Qed.

Lemma lower_code_unit_letter (c l : ascii) :
  (97 <= N_of_ascii l <= 122)%N ->
  lower_code_unit c = l <-> c = l \/ c = upper_of l.
Proof.
  intros Hl. unfold lower_code_unit, upper_of.
  pose proof (N_ascii_bounded c) as Hc.
  assert (Hup : N_of_ascii (ascii_of_N (N_of_ascii l - 32)) = (N_of_ascii l - 32)%N)
    by (apply N_ascii_embedding; lia).
  destruct (_ || _) eqn:E.
  - rewrite !orb_true_iff, !andb_true_iff, !N.leb_le in E. split.
    + intros Heq. right. apply (f_equal N_of_ascii) in Heq.
      rewrite N_ascii_embedding in Heq by lia.
      rewrite <- (ascii_N_embedding c). f_equal. lia.
    + intros [-> | ->]; [lia|].
      rewrite Hup. rewrite <- (ascii_N_embedding l) at 2. f_equal. lia.
  - rewrite !orb_false_iff, !andb_false_iff, !N.leb_gt in E. split.
    + by left.
    + intros [-> | ->]; [done|]. rewrite Hup in E. lia.
Qed.

Lemma toLowerCase_spells (word s : string) :
  lower_case_word word -> toLowerCase s = word <-> spells word s.
Proof.
  revert s. induction word as [|l word IH]; intros [|c s] Hword; cbn; try done.
  destruct Hword as [Hl Hword]. rewrite <- (IH s Hword), <- lower_code_unit_letter by done.
  split; [ by intros [= -> ->] | by intros [-> ->] ].
Qed.

(** What comes before the first slash of a string that spells a word and
    goes on, if it does, with a slash. *)
Lemma split_head_spells (word major rest : string) :
  lower_case_word word ->
  spells word major ->
  rest = "" \/ (exists r, rest = String "/" r) ->
  split_head "/" (major +:+ rest) = major.
Proof.
  intros Hword Hspells Hrest. revert major Hword Hspells.
  induction word as [|l word IH]; intros [|c major] Hword Hspells;
    cbn [spells lower_case_word] in *; try done.
  - destruct Hrest as [-> | [r ->]]; reflexivity.
  - destruct Hword as [Hl Hword]. destruct Hspells as [Hc Hspells].
    assert (Hne : Ascii.eqb c "/" = false).
    { apply Ascii.eqb_neq. intros ->. unfold upper_of in Hc.
      destruct Hc as [<- | Hc]; [ cbn in Hl; lia | ].
      apply (f_equal N_of_ascii) in Hc.
      rewrite N_ascii_embedding in Hc by lia. cbn in Hc. lia. }
    change (String c major +:+ rest) with (String c (major +:+ rest)).
    cbn [split_head]. rewrite Hne. f_equal. by apply IH.
Qed.

(** A string is what comes before its first slash, followed by nothing or
    by a slash and more. *)
Lemma split_head_rest (m : string) :
  exists rest, m = split_head "/" m +:+ rest /\ (rest = "" \/ exists r, rest = String "/" r).
Proof.
  induction m as [|c m (rest & IH & Hrest)]; cbn [split_head].
  - exists "". by split; [ | left ].
  - destruct (Ascii.eqb_spec c "/") as [->|Hne].
    + exists (String "/" m). split; [done|]. right. by eexists.
    + exists rest. split; [ | done ].
      change (String c (split_head "/" m) +:+ rest)
        with (String c (split_head "/" m +:+ rest)).
      by rewrite <- IH.
Qed.

(** X9.  [getFileType] classifies by the major type of the mime type,
    whatever the case of its letters: the file type is [IMAGE] exactly when
    the mime type reads, in upper- or lower-case letters, [image], alone or
    followed by a slash and anything; [VIDEO] exactly when it so reads
    [video]; and [OTHERS] for every other mime type and when no mime type
    was found.  The mime type is handed back as it was found. *)
Theorem getFileType_by_major_type
    (worker : FileWorker) (file : File) (info : FileTypeInfo) :
  getFileType worker file = Normal info ->
  let reads word :=
    exists major rest,
      mimeType info = Some (major +:+ rest)
      /\ spells word major
      /\ (rest = "" \/ exists r, rest = String "/" r) in
  getMimeType worker file = Normal (mimeType info)
  /\ (fileType info = IMAGE <-> reads "image")
  /\ (fileType info = VIDEO <-> reads "video")
  /\ (fileType info = OTHERS <-> ~ reads "image" /\ ~ reads "video").
Proof.
  unfold getFileType, await.
  destruct (getMimeType worker file) as [mimeType_|e]; [ | discriminate ].
  intros [= <-]. cbn [fileType mimeType]. split; [done|].
  assert (Hword : forall word m,
             lower_case_word word ->
             String.eqb (toLowerCase (split_head "/" m)) word = true
             <-> exists major rest,
                   Some m = Some (major +:+ rest) /\ spells word major
                   /\ (rest = "" \/ exists r, rest = String "/" r)).
  { intros word m Hlower. rewrite String.eqb_eq, toLowerCase_spells by done. split.
    - intros Hspells. destruct (split_head_rest m) as (rest & Hm & Hrest).
      exists (split_head "/" m), rest. split; [by f_equal|]. by split.
    - intros (major & rest & [= ->] & Hspells & Hrest).
      by rewrite (split_head_spells word). }
  assert (Himage : lower_case_word "image") by (cbn; lia).
  assert (Hvideo : lower_case_word "video") by (cbn; lia).
  destruct mimeType_ as [m|]; cbn [fmap option_fmap option_map].
  2:{ split; [ | split ].
      - split; [done|]. by intros (? & ? & ? & _).
      - split; [done|]. by intros (? & ? & ? & _).
      - split; [ | done ]. intros _. split; by intros (? & ? & ? & _). }
  pose proof (Hword "image" m Himage) as Hi. pose proof (Hword "video" m Hvideo) as Hv.
  unfold TYPE_IMAGE, TYPE_VIDEO.
  destruct (String.eqb (toLowerCase (split_head "/" m)) "image") eqn:Ei.
  { assert (Hnv : String.eqb (toLowerCase (split_head "/" m)) "video" = false).
    { apply String.eqb_eq in Ei. rewrite Ei. done. }
    rewrite Hnv in Hv.
    split; [ | split ].
    - split; [intros _; by apply Hi | done].
    - split; [done|]. intros Hr. apply Hv in Hr. discriminate.
    - split; [done|]. intros [Hno _]. destruct Hno. by apply Hi. }
  destruct (String.eqb (toLowerCase (split_head "/" m)) "video") eqn:Ev.
  { split; [ | split ].
    - split; [done|]. intros Hr. apply Hi in Hr. discriminate.
    - split; [intros _; by apply Hv | done].
    - split; [done|]. intros [_ Hno]. destruct Hno. by apply Hv. }
  split; [ | split ].
  - split; [done|]. intros Hr. apply Hi in Hr. discriminate.
  - split; [done|]. intros Hr. apply Hv in Hr. discriminate.
  - split; [ | done ]. intros _.
    split; intros Hr; [apply Hi in Hr | apply Hv in Hr]; discriminate.
Qed.

End FileHelperFacts.

(** ** More on the pool *)

Section PoolFacts.
Context `{Imports}.

Lemma populated_insert_hole {A} (l : list (option A)) (n : nat) (v : A) :
  l !! n = Some None ->
  length (omap id (<[n := Some v]> l)) = S (length (omap id l)).
Proof.
  revert n. induction l as [|x l IH]; intros [|n] Hn; try done.
  - by injection Hn as ->.
  - change (l !! n = Some None) in Hn. specialize (IH n Hn).
    change (<[S n:=Some v]> (x :: l)) with (x :: <[n:=Some v]> l).
    destruct x as [a|]; [ | exact IH ].
    change (length (a :: omap id (<[n:=Some v]> l)) = S (length (a :: omap id l))).
    cbn [length]. by rewrite IH.
Qed.

(** Storing under the key of an id, where nothing was stored, adds one
    value; the key of an id that is not negative is an index. *)
Lemma stored_set_rem {A} (arr : JsArray A) (id : Z) (v : A) :
  array_get arr (js_rem id (array_length arr)) = None ->
  stored (array_set arr (js_rem id (array_length arr)) v) = S (stored arr)
  /\ (0 <= id -> array_length arr <> 0 ->
      props (array_set arr (js_rem id (array_length arr)) v) = props arr).
Proof.
  unfold js_rem, array_get, array_set, array_length, stored, populated.
  destruct (Z.eqb_spec (Z.of_nat (length (items arr))) 0) as [Hlen|Hlen]; cbn [items props].
  { intros Hget. split.
    - rewrite map_size_insert_None by done. lia.
    - intros Hid Hne. done. }
  destruct (Z.leb_spec 0 (Z.rem id (Z.of_nat (length (items arr))))) as [Hz|Hz].
  - assert (Z.abs (Z.rem id (Z.of_nat (length (items arr))))
            < Z.abs (Z.of_nat (length (items arr)))) by (apply Z.rem_bound_abs; lia).
    destruct (Nat.ltb_spec (Z.to_nat (Z.rem id (Z.of_nat (length (items arr)))))
                (length (items arr))) as [Hlt|]; [ | lia ].
    cbn [items props]. intros Hget.
    destruct (lookup_lt_is_Some_2 _ _ Hlt) as [[x|] Hx]; rewrite Hx in Hget; [done|].
    split; [ | done ]. by rewrite populated_insert_hole.
  - cbn [items props]. intros Hget. split.
    + rewrite map_size_insert_None by done. lia.
    + intros Hid _. pose proof (Z.rem_nonneg id (Z.of_nat (length (items arr)))). lia.
Qed.

Lemma is_index_rem (id C : Z) : 1 <= C -> Z.rem id C < 0 -> is_index (js_rem id C) = false.
Proof.
  intros HC Hneg. unfold js_rem, is_index. destruct (Z.eqb_spec C 0); [done|].
  by destruct (Z.leb_spec 0 (Z.rem id C)); [lia|].
Qed.

(** The facts about the pool look at the two pool arrays, at the remotes
    and at the workers. *)
Lemma pool_distinct_ext (s s' : St) :
  enteWorkers (this s') = enteWorkers (this s) ->
  enteComlinkWorkers (this s') = enteComlinkWorkers (this s) ->
  pool_distinct s -> pool_distinct s'.
Proof.
  unfold pool_distinct, slot_handle, slot_worker. intros -> ->. done.
Qed.

Lemma outside_running_ext (s s' : St) :
  enteComlinkWorkers (this s') = enteComlinkWorkers (this s) ->
  workers (world s') = workers (world s) ->
  outside_running s -> outside_running s'.
Proof.
  unfold outside_running, slot_worker. intros -> ->. done.
Qed.

Lemma pool_counted_ext (base : nat) (indexed : bool) (s s' : St) :
  enteComlinkWorkers (this s') = enteComlinkWorkers (this s) ->
  length (workers (world s')) = length (workers (world s)) ->
  pool_counted base indexed s -> pool_counted base indexed s'.
Proof.
  unfold pool_counted. intros -> ->. done.
Qed.

Lemma getEnteWorker_pool_distinct (C : Z) (id : Z) (s : St) :
  pool_inv C s -> pool_distinct s -> pool_distinct (snd (getEnteWorker id s)).
Proof.
  intros (_ & _ & (ws0 & cws0 & Hws & Hcws & _ & _ & Hslots) & _) Hdist.
  pose proof Hdist as [Hh Hw].
  getEnteWorker_cases id s; try done; try congruence.
  assert (ws = ws0) as -> by congruence. assert (cws = cws0) as -> by congruence.
  unfold pool_distinct, slot_handle, slot_worker in *.
  cbn. rewrite Hws, Hcws in *.
  assert (Hold_h : forall key h0, array_get ws0 key = Some h0 ->
                                  (h0 < length (remotes (world s)))%nat).
  { intros key h0 Hk. specialize (Hslots key). rewrite Hk in Hslots.
    destruct Hslots as (cw & _ & Hrem & _). by eapply lookup_lt_Some. }
  assert (Hold_w : forall key cw, array_get cws0 key = Some cw ->
                                  (worker cw < length (workers (world s)))%nat).
  { intros key cw Hk. specialize (Hslots key).
    destruct (array_get ws0 key); [ | congruence ].
    destruct Hslots as (cw' & Hcw' & _ & Hlt). congruence. }
  split.
  + intros key key' h0. rewrite !array_get_set.
    do 2 case_decide; subst; try done.
    * intros [= <-] Hk. apply Hold_h in Hk. lia.
    * intros Hk [= <-]. apply Hold_h in Hk. lia.
    * apply Hh.
  + intros key key' cw cw'. rewrite !array_get_set.
    do 2 case_decide; subst; try done.
    * intros [= <-] Hk. apply Hold_w in Hk. cbn. lia.
    * intros Hk [= <-]. apply Hold_w in Hk. cbn. lia.
    * apply Hw.
Qed.

Lemma getEnteWorker_outside_running (C : Z) (id : Z) (s : St) :
  pool_inv C s -> outside_running s -> outside_running (snd (getEnteWorker id s)).
Proof.
  intros (_ & _ & (ws0 & cws0 & Hws & Hcws & _ & _ & Hslots) & _) Hrun.
  getEnteWorker_cases id s; try done; try congruence.
  assert (ws = ws0) as -> by congruence. assert (cws = cws0) as -> by congruence.
  unfold outside_running, slot_worker in *.
  cbn. rewrite Hcws in *.
  intros key cw Hkey. rewrite array_get_set. case_decide.
  + intros [= <-]. cbn. by rewrite list_lookup_middle.
  + intros Hk. cbn. apply lookup_app_l_Some. by eapply Hrun.
Qed.

(** The statements after the [await] of [dispose] stop the workers of the
    elements of the pool array, and no worker kept outside them. *)
Lemma teardown_outside_running (C : Z) (s : St) :
  pool_inv C s -> pool_distinct s -> outside_running s ->
  outside_running (snd (teardown s)).
Proof.
  intros (_ & _ & (ws0 & cws0 & Hws & Hcws & _ & _ & Hslots) & _) [_ Hw] Hrun.
  teardown_cases s; try done.
  unfold outside_running, slot_worker in *.
  cbn. rewrite Hcws in *.
  assert (cws = cws0) as -> by congruence.
  intros key cw Hkey Hk. cbn. rewrite terminate_all_others; [by eapply Hrun|].
  intros Hin. apply pool_workers_elem in Hin as (n & cw' & Hcw' & Heq).
  rewrite (Hw key (Some (Z.of_nat n)) cw cw' Hk Hcw' (eq_sym Heq)) in Hkey.
  cbn in Hkey. destruct (Z.leb_spec 0 (Z.of_nat n)); [done | lia].
Qed.

Lemma getEnteWorker_pool_counted (C : Z) (base : nat) (indexed : bool) (id : Z) (s : St) :
  pool_inv C s ->
  (indexed = true -> 0 <= id) ->
  pool_counted base indexed s -> pool_counted base indexed (snd (getEnteWorker id s)).
Proof.
  intros Hinv Hid (cws1 & Hcws1 & Hcount & Hprops).
  pose proof Hinv as (_ & _ & (ws0 & cws0 & Hws & Hcws & Hlw & Hlc & Hslots) & _).
  assert (cws1 = cws0) as -> by congruence.
  getEnteWorker_cases id s; try congruence.
  - by exists cws0.
  - by exists cws0.
  - assert (ws = ws0) as -> by congruence. assert (cws = cws0) as -> by congruence.
    eexists. split; [reflexivity|]. cbn [world workers spawn_world set].
    assert (Hempty : array_get cws0 (js_rem id (array_length cws0)) = None).
    { specialize (Hslots (js_rem id (array_length ws0))). rewrite Eh in Hslots.
      by rewrite Hlc, <- Hlw. }
    rewrite Hlw, <- Hlc.
    destruct (stored_set_rem cws0 id
                {| comlink := length (workers (world s));
                   worker := length (workers (world s)) |} Hempty) as [-> Hkeep].
    cbn. rewrite length_app. cbn [length]. split; [lia|].
    intros Hi. rewrite Hkeep; auto. rewrite Hlc. destruct Hinv as [? _]. lia.
Qed.

Lemma run_ops_pool_facts (C : Z) (base : nat) (indexed : bool) (ops : list Op) (s : St) :
  (indexed = true -> nonneg_ids ops) ->
  pool_facts C base indexed s -> pool_facts C base indexed (run_ops ops s).
Proof.
  intros Hids.
  apply (run_ops_invariant_ids (fun id => indexed = true -> 0 <= id)
           (pool_facts C base indexed)).
  - intros id s' Hid (Hinv & Hdist & Hout & Hcount).
    split; [by apply getEnteWorker_pool_inv|].
    split; [by eapply getEnteWorker_pool_distinct|].
    split; [by eapply getEnteWorker_outside_running|].
    by eapply getEnteWorker_pool_counted.
  - intros s' (Hinv & Hdist & Hout & Hcount).
    split; [by apply dispose_pool_inv|].
    split; [ revert Hdist; apply pool_distinct_ext; dispose_cases s'; reflexivity | ].
    split; [ revert Hout; apply outside_running_ext; dispose_cases s'; reflexivity | ].
    revert Hcount; apply pool_counted_ext; dispose_cases s'; reflexivity.
  - intros q0 s' (Hinv & Hdist & Hout & Hcount).
    assert (Hinv' : pool_inv C (idled q0 s')) by (revert Hinv; by apply pool_inv_ext).
    split; [by apply teardown_pool_inv|].
    split; [ revert Hdist; apply pool_distinct_ext; teardown_cases (idled q0 s');
             reflexivity | ].
    split; [ by apply (teardown_outside_running C) | ].
    revert Hcount; apply pool_counted_ext; teardown_cases (idled q0 s'); cbn;
      rewrite ?length_terminate_all; reflexivity.
  - intros s' (Hinv & Hdist & Hout & Hcount).
    split; [by apply add_task_pool_inv|].
    split; [ revert Hdist; apply pool_distinct_ext;
             by destruct (add_task_spec s') as [-> | (q & pq & _ & _ & ->)] | ].
    split; [ revert Hout; apply outside_running_ext;
             by destruct (add_task_spec s') as [-> | (q & pq & _ & _ & ->)] | ].
    revert Hcount; apply pool_counted_ext;
      by destruct (add_task_spec s') as [-> | (q & pq & _ & _ & ->)].
  - intros s' (Hinv & Hdist & Hout & Hcount).
    split; [by apply finish_task_pool_inv|].
    split; [ revert Hdist; apply pool_distinct_ext;
             by destruct (finish_task_spec s') as [-> | (q & pq & _ & _ & ->)] | ].
    split; [ revert Hout; apply outside_running_ext;
             by destruct (finish_task_spec s') as [-> | (q & pq & _ & _ & ->)] | ].
    revert Hcount; apply pool_counted_ext;
      by destruct (finish_task_spec s') as [-> | (q & pq & _ & _ & ->)].
  - intros w s' (Hinv & Hdist & Hout & Hcount).
    split; [by apply write_field_pool_inv|].
    split; [ revert Hdist; apply pool_distinct_ext; by destruct w | ].
    split; [ revert Hout; apply outside_running_ext; by destruct w | ].
    revert Hcount; apply pool_counted_ext; by destruct w.
  - destruct indexed.
    + eapply Forall_impl; [ by apply Hids | ]. by intros id Hid _.
    + apply Forall_forall. by intros id _ ?.
Qed.

(** What holds of the pool of a context along its runs. *)
Lemma constructed_pool_facts (C : Z) (s0 : St) (ops : list Op) (indexed : bool) :
  constructed C s0 ->
  (indexed = true -> nonneg_ids ops) ->
  pool_facts C (length (workers (world s0))) indexed (run_ops ops s0).
Proof.
  intros Hnew Hids. apply run_ops_pool_facts; [done|].
  pose proof (constructed_pool_inv C s0 [] Hnew) as Hinv.
  destruct Hnew as (t & cfg & upd & conc & w & Hrun & _).
  destruct (construct_pool_inv _ _ _ _ _ _ Hrun) as (_ & Hempty & _).
  split; [exact Hinv|]. split; [ | split ].
  - split.
    + intros key key' h Hk. destruct (Hempty key). congruence.
    + intros key key' cw cw' Hk. destruct (Hempty key). congruence.
  - intros key cw _ Hk. destruct (Hempty key). congruence.
  - apply construct_returns in Hrun.
    destruct Hrun as (? & ? & ? & ? & ? & _ & _ & _ & _ & _ & _ & _ & ->).
    eexists. split; [reflexivity|]. unfold stored, populated. cbn [items props].
    split; [ | done ].
    assert (Hholes : forall n, omap id (replicate n (@None ComlinkWorker)) = [])
      by (induction n; [done | by cbn]).
    rewrite Hholes, map_size_empty. cbn. lia.
Qed.

(** X10.  Two different slots of a pool never hold the same handle, and
    the handles they hold are served by different web workers: the context
    creates a worker of its own for every slot it populates. *)
Theorem slots_never_share_a_worker
    (C : Z) (s0 : St) (ops : list Op) (key key' : option Z) (h h' : nat) :
  constructed C s0 ->
  key <> key' ->
  slot_handle (run_ops ops s0) key = Some h ->
  slot_handle (run_ops ops s0) key' = Some h' ->
  h <> h'
  /\ exists w w',
       remotes (world (run_ops ops s0)) !! h = Some w
       /\ remotes (world (run_ops ops s0)) !! h' = Some w'
       /\ w <> w'.
Proof.
  intros Hnew Hne Hk Hk'.
  destruct (constructed_pool_facts C s0 ops false Hnew ltac:(done))
    as (Hinv & [Hh Hw] & _ & _).
  split; [ intros <-; by apply Hne, (Hh key key' h) | ].
  destruct Hinv as (_ & _ & (ws & cws & Hws & Hcws & _ & _ & Hslots) & _).
  unfold slot_handle, slot_worker in *. rewrite Hws in *. rewrite Hcws in *.
  pose proof (Hslots key) as Hs. rewrite Hk in Hs. destruct Hs as (cw & Hcw & Hrem & _).
  pose proof (Hslots key') as Hs'. rewrite Hk' in Hs'.
  destruct Hs' as (cw' & Hcw' & Hrem' & _).
  exists (worker cw), (worker cw'). do 2 (split; [done|]).
  intros Heq. by apply Hne, (Hw key key' cw cw').
Qed.

(** X11.  No worker is created and then lost: the web workers a context
    has created, at any point of its life, are as many as the values its
    pool array holds, elements and other properties together. *)
Theorem spawned_workers_are_the_slots (C : Z) (s0 : St) (ops : list Op) :
  constructed C s0 ->
  exists cws,
    enteComlinkWorkers (this (run_ops ops s0)) = Some cws
    /\ spawned_between s0 (run_ops ops s0) = (populated cws + size (props cws))%nat.
Proof.
  intros Hnew.
  destruct (constructed_pool_facts C s0 ops false Hnew ltac:(done))
    as (_ & _ & _ & (cws & Hcws & Hcount & _)).
  exists cws. split; [done|]. unfold spawned_between, stored in *. lia.
Qed.

(** X12.  A context constructed with concurrency [C] never has more than
    [C] web workers created, however many tasks ask for one, as long as no
    task id is negative. *)
Theorem spawned_workers_bounded (C : Z) (s0 : St) (ops : list Op) :
  constructed C s0 ->
  nonneg_ids ops ->
  Z.of_nat (spawned_between s0 (run_ops ops s0)) <= C.
Proof.
  intros Hnew Hids.
  destruct (constructed_pool_facts C s0 ops true Hnew ltac:(done))
    as (Hinv & _ & _ & (cws & Hcws & Hcount & Hprops)).
  destruct Hinv as (_ & _ & (ws & cws' & _ & Hcws' & _ & Hlc & _) & _).
  assert (cws' = cws) as -> by congruence.
  unfold spawned_between, stored in *. rewrite Hprops, map_size_empty in Hcount by done.
  pose proof (populated_le_length cws). lia.
Qed.

(** X13.  A worker created for a negative id is kept outside the elements
    of the pool array, where [dispose] does not look.  When the key
    [id % C] of an id is negative and its slot holds a handle, the worker
    behind that handle is running, at any point of the life of the context;
    a call of [dispose], once the queue holds no task, returns and leaves
    it running, whatever was done while the call was suspended. *)
Theorem worker_of_negative_id_outlives_dispose
    (C : Z) (s0 : St) (ops during : list Op) (id : Z) (h : nat) :
  constructed C s0 ->
  Z.rem id C < 0 ->
  slot_handle (run_ops ops s0) (js_rem id C) = Some h ->
  exists w,
    remotes (world (run_ops ops s0)) !! h = Some w
    /\ workers (world (run_ops ops s0)) !! w = Some true
    /\ (pending_tasks (after_await during (run_ops ops s0)) = Some 0%nat ->
        exists s',
          run_async dispose (run_ops during) (run_ops ops s0) = Some (Normal tt, s')
          /\ slot_handle s' (js_rem id C) = Some h
          /\ remotes (world s') !! h = Some w
          /\ workers (world s') !! w = Some true).
Proof.
  intros Hnew Hneg Hk. set (s := run_ops ops s0) in *.
  destruct (constructed_pool_facts C s0 ops false Hnew ltac:(done))
    as (Hinv & Hdist & Hout & _). fold s in Hinv, Hdist, Hout.
  assert (Hkey : is_index (js_rem id C) = false).
  { apply is_index_rem; [ apply Hinv | done ]. }
  assert (Hbehind : forall s', pool_inv C s' -> outside_running s' ->
            slot_handle s' (js_rem id C) = Some h ->
            exists cw, slot_worker s' (js_rem id C) = Some cw
                       /\ remotes (world s') !! h = Some (worker cw)
                       /\ workers (world s') !! worker cw = Some true).
  { intros s' (_ & _ & (ws & cws & Hws & Hcws & _ & _ & Hslots) & _) Hout' Hk'.
    unfold slot_handle, slot_worker in *. rewrite Hws in Hk'. rewrite Hcws.
    specialize (Hslots (js_rem id C)). rewrite Hk' in Hslots.
    destruct Hslots as (cw & Hcw & Hrem & _). exists cw. do 2 (split; [done|]).
    apply (Hout' (js_rem id C)); [done|]. unfold slot_worker. by rewrite Hcws. }
  destruct (Hbehind s Hinv Hout Hk) as (cw & Hcw & Hrem & Hrunning).
  exists (worker cw). do 2 (split; [done|]).
  intros Hidle.
  destruct (dispose_suspends C s Hinv) as (q & pq & Hq & Hpq & Hcall).
  unfold after_await in Hidle. rewrite Hcall in Hidle. cbn [snd] in Hidle.
  set (s1 := cleared s [AwaitIdle q]) in *.
  assert (Hinv1 : pool_inv C s1) by (revert Hinv; by apply pool_inv_ext).
  pose proof (run_ops_pool_inv C during s1 Hinv1) as Hinv2.
  destruct (run_ops_grows during s1) as [Hq2 _].
  assert (Hq2' : syncQueue (this (run_ops during s1)) = Some q) by (by rewrite Hq2).
  destruct (dispose_settles C q _ Hinv2 Hq2' Hidle)
    as (pq2 & cws2 & Hpq2 & Hp2 & Hcws2 & Hrest).
  assert (Hend : run_op (Dispose during) s
                 = {| this := this (run_ops during s1);
                      world := (world (run_ops during s1))
                        <| queues := <[q := silenced pq2]>
                                       (queues (world (run_ops during s1))) |>
                        <| workers := terminate_all (pool_workers cws2)
                                        (workers (world (run_ops during s1))) |>;
                      trace := trace (run_ops during s1)
                               ++ [QueueIdle q; RemoveAllListeners q]
                               ++ (Terminate <$> pool_workers cws2) |}).
  { rewrite run_op_Dispose, Hcall. fold s1. by rewrite Hrest. }
  eexists. split; [ unfold run_async; rewrite Hcall; exact Hrest | ].
  rewrite <- Hend.
  destruct (constructed_pool_facts C s0 (ops ++ [Dispose during]) false Hnew ltac:(done))
    as (Hinv3 & _ & Hout3 & _).
  rewrite run_ops_app in Hinv3, Hout3. fold s in Hinv3, Hout3.
  change (run_ops [Dispose during] s) with (run_op (Dispose during) s) in Hinv3, Hout3.
  destruct (run_op_slot_kept (Dispose during) s _ h Hk) as [Hk3 Hw3].
  destruct (Hbehind _ Hinv3 Hout3 Hk3) as (cw3 & Hcw3 & Hrem3 & Hrunning3).
  assert (cw3 = cw) as -> by congruence. done.
Qed.

(** X14.  [dispose] does not retire the context.  After a call of it has
    ended, a call of [getEnteWorker] for an id whose slot is empty creates
    a worker as before: it returns a new handle, stored under the key of
    the id and served by a running worker, the one worker the call has
    created. *)
Theorem getEnteWorker_after_dispose (C : Z) (s0 : St) (ops during : list Op) (id : Z) :
  constructed C s0 ->
  pending_tasks (after_await during (run_ops ops s0)) = Some 0%nat ->
  slot_handle (after_await during (run_ops ops s0)) (js_rem id C) = None ->
  next_spawn_error (world (after_await during (run_ops ops s0))) = None ->
  exists s1 h w s2,
    run_async dispose (run_ops during) (run_ops ops s0) = Some (Normal tt, s1)
    /\ getEnteWorker id s1 = (Normal (Some h), s2)
    /\ slot_handle s2 (js_rem id C) = Some h
    /\ remotes (world s2) !! h = Some w
    /\ workers (world s2) !! w = Some true
    /\ spawned_between s1 s2 = 1%nat.
Proof.
  intros Hnew. set (s := run_ops ops s0) in *.
  pose proof (constructed_pool_inv C s0 ops Hnew) as Hinv. fold s in Hinv.
  destruct (dispose_suspends C s Hinv) as (q & pq & Hq & Hpq & Hcall).
  unfold after_await, run_async. rewrite Hcall. cbn [snd].
  set (s1 := cleared s [AwaitIdle q]) in *.
  intros Hidle Hempty Hnx.
  assert (Hinv1 : pool_inv C s1) by (revert Hinv; by apply pool_inv_ext).
  pose proof (run_ops_pool_inv C during s1 Hinv1) as Hinv2.
  destruct (run_ops_grows during s1) as [Hq2 _].
  assert (Hq2' : syncQueue (this (run_ops during s1)) = Some q) by (by rewrite Hq2).
  destruct (dispose_settles C q _ Hinv2 Hq2' Hidle)
    as (pq2 & cws & Hpq2 & Hp2 & Hcws & Hrest).
  pose proof Hinv2 as (_ & _ & (ws & cws' & Hws & Hcws' & Hlw & _ & _) & _).
  assert (cws' = cws) as -> by congruence.
  unfold slot_handle in Hempty. rewrite Hws in Hempty. rewrite <- Hlw in Hempty.
  eexists _, _, _, _. split; [exact Hrest|].
  split.
  { by apply (getEnteWorker_creates_eq id _ ws cws). }
  unfold slot_handle, spawned_between. cbn.
  rewrite <- Hlw, array_get_set_eq. split; [done|].
  split; [ by rewrite list_lookup_middle | ].
  split; [ by rewrite list_lookup_middle | ].
  rewrite length_app. cbn. lia.
Qed.

(** X15.  Nothing in the class restarts a worker.  A worker that is
    stopped stays stopped, whatever is done with the context afterwards:
    calls of [getEnteWorker] with any id, calls of [dispose] with whatever
    runs while they are suspended, tasks added to the queue or finished,
    writes of the sync state. *)
Theorem stopped_worker_stays_stopped (ops : list Op) (s : St) (w : nat) :
  workers (world s) !! w = Some false ->
  workers (world (run_ops ops s)) !! w = Some false.
Proof.
  apply (run_ops_invariant (fun s' => workers (world s') !! w = Some false)).
  - intros id s' Hw. getEnteWorker_cases id s'; try done; cbn; by apply lookup_app_l_Some.
  - intros s' Hw. dispose_cases s'; done.
  - intros q0 s' Hw. teardown_cases (idled q0 s'); try done.
    cbn. rewrite lookup_terminate_all, Hw. cbn. by destruct (bool_decide _).
  - intros s' Hw. by destruct (add_task_spec s') as [-> | (q & pq & _ & _ & ->)].
  - intros s' Hw. by destruct (finish_task_spec s') as [-> | (q & pq & _ & _ & ->)].
  - intros f s' Hw. by destruct f.
Qed.

(** X16.  A call of [getEnteWorker] touches the slot of its id and
    nothing else: every field of the instance other than the two pool
    arrays, every slot under another key, every queue, and every worker and
    remote that existed before the call are afterwards as they were.  This
    holds of every state, also when the call fails. *)
Theorem getEnteWorker_frame (id : Z) (s : St) :
  let s' := snd (getEnteWorker id s) in
  outside_pool (this s') = outside_pool (this s)
  /\ queues (world s') = queues (world s)
  /\ (forall key, key <> slot_of s id ->
        slot_handle s' key = slot_handle s key /\ slot_worker s' key = slot_worker s key)
  /\ (forall w, (w < length (workers (world s)))%nat ->
        workers (world s') !! w = workers (world s) !! w)
  /\ (forall h, (h < length (remotes (world s)))%nat ->
        remotes (world s') !! h = remotes (world s) !! h).
Proof.
  intros s'. subst s'.
  split; [ | split; [ | split ] ].
  - getEnteWorker_cases id s; reflexivity.
  - getEnteWorker_cases id s; reflexivity.
  - intros key Hne. by apply getEnteWorker_other_slots.
  - getEnteWorker_cases id s; try done.
    + split; intros x Hx; cbn; [ by rewrite lookup_app_l | done ].
    + split; intros x Hx; cbn; by rewrite lookup_app_l.
Qed.

(** X17.  In a constructed context a call of [getEnteWorker] ends in one
    of two ways.  It returns a handle, the one its slot holds afterwards:
    the handle the slot held already, or a new one when the slot was empty
    and a worker could be spawned.  Or it fails, with the error of the
    spawner, when the slot was empty and spawning failed; the instance is
    then unchanged.  It never returns [undefined] and never fails with an
    error of its own. *)
Theorem getEnteWorker_outcomes (C : Z) (s0 : St) (ops : list Op) (id : Z) :
  constructed C s0 ->
  match getEnteWorker id (run_ops ops s0) with
  | (Normal (Some h), s') =>
      slot_handle s' (js_rem id C) = Some h
      /\ (slot_handle (run_ops ops s0) (js_rem id C) = Some h
          \/ slot_handle (run_ops ops s0) (js_rem id C) = None
             /\ next_spawn_error (world (run_ops ops s0)) = None)
  | (Normal None, _) => False
  | (Throw e, s') =>
      slot_handle (run_ops ops s0) (js_rem id C) = None
      /\ next_spawn_error (world (run_ops ops s0)) = Some e
      /\ this s' = this (run_ops ops s0)
  end.
Proof.
  intros Hnew. set (s := run_ops ops s0).
  pose proof (constructed_pool_inv C s0 ops Hnew) as Hinv. fold s in Hinv.
  destruct Hinv as (_ & _ & (ws & cws & Hws & Hcws & Hlw & _ & _) & _).
  unfold slot_handle. rewrite Hws.
  destruct (array_get ws (js_rem id C)) as [h0|] eqn:Eh.
  - rewrite (getEnteWorker_hit_eq id s h0)
      by (unfold slot_handle, slot_of; by rewrite Hws, Hlw).
    rewrite Hws. split; [done | by left].
  - destruct (next_spawn_error (world s)) as [err|] eqn:Hnx.
    + rewrite (getEnteWorker_fails_eq id s err);
        [ done | by eexists | unfold slot_handle, slot_of; by rewrite Hws, Hlw | done ].
    + rewrite <- Hlw in Eh.
      rewrite (getEnteWorker_creates_eq id s ws cws) by done.
      cbn. rewrite <- Hlw, array_get_set_eq. split; [done | by right].
Qed.

End PoolFacts.

(** *** What a context leaves alone *)

Section IsolationFacts.
Context `{Imports}.

Lemma untouched_step (base queue : nat) (s0 s s' : St) :
  (length (remotes (world s0)) <= length (remotes (world s)))%nat
  /\ untouched base queue s0 s ->
  (length (remotes (world s)) <= length (remotes (world s')))%nat
  /\ untouched base queue s s' ->
  (length (remotes (world s0)) <= length (remotes (world s')))%nat
  /\ untouched base queue s0 s'.
Proof.
  intros (Hlen & Hw & Hr & Hqs) (Hlen' & Hw' & Hr' & Hqs').
  split; [lia|]. split; [ | split ].
  - intros w Hlt. by rewrite Hw', Hw.
  - intros h Hlt. rewrite Hr' by lia. by apply Hr.
  - intros q' Hne. by rewrite Hqs', Hqs.
Qed.

Lemma untouched_refl (base queue : nat) (s s' : St) :
  world s' = world s ->
  (length (remotes (world s)) <= length (remotes (world s')))%nat
  /\ untouched base queue s s'.
Proof.
  intros Hw. unfold untouched. rewrite Hw. split; [done|].
  split; [ | split ]; intros; reflexivity.
Qed.

Lemma pool_owned_ext (base : nat) (s s' : St) :
  enteComlinkWorkers (this s') = enteComlinkWorkers (this s) ->
  length (workers (world s')) = length (workers (world s)) ->
  pool_owned base s -> pool_owned base s'.
Proof.
  unfold pool_owned, slot_worker. intros -> ->. done.
Qed.

Lemma getEnteWorker_untouched (C : Z) (base queue : nat) (id : Z) (s : St) :
  pool_inv C s -> pool_owned base s ->
  pool_owned base (snd (getEnteWorker id s))
  /\ syncQueue (this (snd (getEnteWorker id s))) = syncQueue (this s)
  /\ (length (remotes (world s)) <= length (remotes (world (snd (getEnteWorker id s)))))%nat
  /\ untouched base queue s (snd (getEnteWorker id s)).
Proof.
  intros (_ & _ & (ws0 & cws0 & Hws & Hcws & _ & _ & Hslots) & _) [Hbase Hown].
  unfold pool_owned, untouched, slot_worker in *. rewrite Hcws in Hown.
  getEnteWorker_cases id s; try congruence; cbn; rewrite ?Hcws;
    try (by repeat split).
  assert (cws = cws0) as -> by congruence.
  rewrite !length_app. cbn [length].
  split; [ split; [lia|] | ].
  { intros key cw. rewrite array_get_set. case_decide.
    - intros [= <-]. cbn. lia.
    - apply Hown. }
  split; [done|]. split; [lia|].
  split; [ intros w Hw; apply lookup_app_l; lia | ].
  split; [ intros h0 Hh; by apply lookup_app_l | done ].
Qed.

Lemma teardown_untouched (C : Z) (base queue : nat) (s : St) :
  pool_inv C s -> pool_owned base s -> syncQueue (this s) = Some queue ->
  (length (remotes (world s)) <= length (remotes (world (snd (teardown s)))))%nat
  /\ untouched base queue s (snd (teardown s)).
Proof.
  intros (_ & _ & (ws0 & cws0 & Hws & Hcws & _ & _ & Hslots) & _) [Hbase Hown] Hqueue.
  unfold slot_worker in *. rewrite Hcws in Hown.
  teardown_cases s; try congruence; try (by apply untouched_refl).
  assert (cws = cws0) as -> by congruence. assert (q = queue) as -> by congruence.
  unfold untouched. cbn. split; [done|].
  split; [ | split; [ done | intros q' Hne; by rewrite list_lookup_insert_ne ] ].
  intros w Hw. apply terminate_all_others. intros Hin.
  apply pool_workers_elem in Hin as (n & cw & Hcw & <-).
  apply Hown in Hcw. lia.
Qed.

Lemma run_ops_untouched (C : Z) (base queue : nat) (ops : list Op) (s : St) :
  pool_inv C s -> pool_owned base s -> syncQueue (this s) = Some queue ->
  untouched base queue s (run_ops ops s).
Proof.
  intros Hinv Hown Hq.
  cut (pool_inv C (run_ops ops s) /\ pool_owned base (run_ops ops s)
       /\ syncQueue (this (run_ops ops s)) = Some queue
       /\ (length (remotes (world s)) <= length (remotes (world (run_ops ops s))))%nat
          /\ untouched base queue s (run_ops ops s)).
  { by intros (_ & _ & _ & _ & ?). }
  apply (run_ops_invariant
           (fun s' => pool_inv C s' /\ pool_owned base s'
                      /\ syncQueue (this s') = Some queue
                      /\ (length (remotes (world s)) <= length (remotes (world s')))%nat
                         /\ untouched base queue s s')).
  - intros id s' (Hinv' & Hown' & Hq' & Hunt).
    destruct (getEnteWorker_untouched C base queue id s' Hinv' Hown')
      as (Hown'' & Hq'' & Hstep).
    split; [by apply getEnteWorker_pool_inv|]. split; [done|].
    split; [by rewrite Hq''|]. by eapply untouched_step.
  - intros s' (Hinv' & Hown' & Hq' & Hunt).
    split; [by apply dispose_pool_inv|].
    split; [ revert Hown'; apply pool_owned_ext; dispose_cases s'; reflexivity | ].
    split; [ rewrite <- Hq'; dispose_cases s'; reflexivity | ].
    eapply untouched_step; [done|]. apply untouched_refl. dispose_cases s'; reflexivity.
  - intros q0 s' (Hinv' & Hown' & Hq' & Hunt).
    assert (Hinv'' : pool_inv C (idled q0 s')) by (revert Hinv'; by apply pool_inv_ext).
    split; [by apply teardown_pool_inv|].
    split; [ revert Hown'; apply pool_owned_ext; teardown_cases (idled q0 s'); cbn;
             rewrite ?length_terminate_all; reflexivity | ].
    split; [ rewrite <- Hq'; teardown_cases (idled q0 s'); reflexivity | ].
    eapply untouched_step; [done|].
    eapply untouched_step; [ by apply (untouched_refl base queue s' (idled q0 s')) | ].
    by apply (teardown_untouched C).
  - intros s' (Hinv' & Hown' & Hq' & Hunt).
    split; [by apply add_task_pool_inv|].
    destruct (add_task_spec s') as [-> | (q0 & pq & Hq0 & _ & ->)]; [done|].
    assert (q0 = queue) as -> by congruence.
    split; [done|]. split; [done|]. eapply untouched_step; [done|].
    split; [done|]. do 2 (split; [done|]).
    intros q' Hne. cbn. by rewrite list_lookup_insert_ne.
  - intros s' (Hinv' & Hown' & Hq' & Hunt).
    split; [by apply finish_task_pool_inv|].
    destruct (finish_task_spec s') as [-> | (q0 & pq & Hq0 & _ & ->)]; [done|].
    assert (q0 = queue) as -> by congruence.
    split; [done|]. split; [done|]. eapply untouched_step; [done|].
    split; [done|]. do 2 (split; [done|]).
    intros q' Hne. cbn. by rewrite list_lookup_insert_ne.
  - intros w s' (Hinv' & Hown' & Hq' & Hunt).
    split; [by apply write_field_pool_inv|].
    split; [ revert Hown'; apply pool_owned_ext; by destruct w | ].
    split; [ rewrite <- Hq'; by destruct w | ].
    eapply untouched_step; [done|]. apply untouched_refl. by destruct w.
  - do 3 (split; [done|]). by apply untouched_refl.
Qed.

(** X18.  A context touches nothing of the world that it did not make.
    The web workers and the remotes that exist when its constructor
    returns, and every queue but its own, are the same after any sequence
    of calls of [getEnteWorker] and [dispose], of steps made while a
    [dispose] is suspended and of tasks added or finished: [dispose] stops
    the workers of its own pool only. *)
Theorem context_touches_only_its_own (C : Z) (s0 : St) (ops : list Op) (q : nat) :
  constructed C s0 ->
  syncQueue (this s0) = Some q ->
  (forall w, (w < length (workers (world s0)))%nat ->
     workers (world (run_ops ops s0)) !! w = workers (world s0) !! w)
  /\ (forall h, (h < length (remotes (world s0)))%nat ->
        remotes (world (run_ops ops s0)) !! h = remotes (world s0) !! h)
  /\ (forall q', q' <> q ->
        queues (world (run_ops ops s0)) !! q' = queues (world s0) !! q').
Proof.
  intros Hnew Hq.
  apply (run_ops_untouched C (length (workers (world s0))) q ops s0); [ | | done ].
  - apply (constructed_pool_inv C s0 [] Hnew).
  - destruct Hnew as (t & cfg & upd & conc & w & Hrun & _).
    destruct (construct_pool_inv _ _ _ _ _ _ Hrun) as (_ & Hempty & _).
    split; [done|]. intros key cw Hk. destruct (Hempty key). congruence.
Qed.

End IsolationFacts.

(** ** More on construction *)

(** Runs the constructor up to the creation of the queue, given that every
    stage names a registered method. *)
Ltac construct_to_queue Hreg :=
  let det := fresh "det" in let crop := fresh "crop" in let al := fresh "al" in
  let emb := fresh "emb" in let clu := fresh "clu" in
  let E1 := fresh "E" in let E2 := fresh "E" in let E3 := fresh "E" in
  let E4 := fresh "E" in let E5 := fresh "E" in
  destruct (detection_returns _ (Hreg FaceDetectionStage)) as [det E1];
  destruct (crop_returns _ (Hreg FaceCropStage)) as [crop E2];
  destruct (alignment_returns _ (Hreg FaceAlignmentStage)) as [al E3];
  destruct (embedding_returns _ (Hreg FaceEmbeddingStage)) as [emb E4];
  destruct (clustering_returns _ (Hreg ClusteringStage)) as [clu E5];
  cbn [stage_method] in E1, E2, E3, E4, E5;
  unfold construct, new_LocalMLSyncContext;
  do 3 js_assign; js_read; rewrite E1; js_lift_Normal;
  js_assign; js_read; rewrite E2; js_lift_Normal;
  js_assign; js_read; rewrite E3; js_lift_Normal;
  js_assign; js_read; rewrite E4; js_lift_Normal;
  js_assign; js_read; rewrite E5; js_lift_Normal;
  do 5 js_assign; js_read; rewrite bind_console_log; js_norm; js_read.

Section ConstructionFacts.
Context `{Imports}.

#[local] Arguments array_get : simpl never.
#[local] Arguments array_set : simpl never.
#[local] Arguments array_length : simpl never.
#[local] Arguments js_rem : simpl never.
#[local] Arguments js_or : simpl never.
#[local] Arguments new_Array : simpl never.
#[local] Arguments MLFactory.getFaceDetectionService : simpl never.
#[local] Arguments MLFactory.getFaceCropService : simpl never.
#[local] Arguments MLFactory.getFaceAlignmentService : simpl never.
#[local] Arguments MLFactory.getFaceEmbeddingService : simpl never.
#[local] Arguments MLFactory.getClusteringService : simpl never.

(** X19.  The constructor returns exactly when each of the five stages
    names a method registered for its category, the queue accepts the
    concurrency, and the concurrency is an array length of at least one.
    It never fails for another reason, and never returns without these. *)
Theorem constructor_returns_iff
    (token_ : string) (config_ : MLSyncConfig)
    (shouldUpdate_ : option bool) (concurrency_ : option Z) (w : World) :
  (exists s, construct token_ config_ shouldUpdate_ concurrency_ w = (Normal tt, s))
  <-> (forall st, registered st (stage_method config_ st) = true)
      /\ PQueue_rejects (js_or concurrency_ CONCURRENCY) = None
      /\ 1 <= js_or concurrency_ CONCURRENCY <= 2 ^ 32 - 1.
Proof.
  split.
  - intros [s Hrun]. apply construct_returns in Hrun.
    destruct Hrun as (det & crop & al & emb & clu & E1 & E2 & E3 & E4 & E5 & Hq & Hc & _).
    split; [ | done ].
    intros []; cbn [registered stage_method]; by rewrite ?E1, ?E2, ?E3, ?E4, ?E5.
  - intros (Hreg & Hq & Hc). apply construct_succeeds; [done | done | lia].
Qed.

(** X20.  [MLFactory.getMLSyncContext] gives a context of the default
    concurrency: when it returns, the concurrency is [CONCURRENCY] and so
    is the length of both pool arrays; the token and the configuration are
    the ones given, and the update flag is the one given, or [true] when
    none was. *)
Theorem getMLSyncContext_defaults
    (token_ : string) (config_ : MLSyncConfig) (shouldUpdate_ : option bool)
    (w : World) (s : St) :
  getMLSyncContext token_ config_ shouldUpdate_ w = (Normal tt, s) ->
  constructed CONCURRENCY s
  /\ token (this s) = Some token_
  /\ config (this s) = Some config_
  /\ shouldUpdateMLVersion (this s) = Some (default true shouldUpdate_)
  /\ exists ws cws,
       enteWorkers (this s) = Some ws /\ enteComlinkWorkers (this s) = Some cws
       /\ array_length ws = CONCURRENCY /\ array_length cws = CONCURRENCY.
Proof.
  unfold getMLSyncContext. intros Hrun.
  pose proof (construct_returns _ _ _ _ _ _ Hrun)
    as (det & crop & al & emb & clu & _ & _ & _ & _ & _ & _ & Hc & Hs).
  change (js_or None CONCURRENCY) with CONCURRENCY in *.
  assert (Hnew : constructed CONCURRENCY s).
  { eexists _, _, _, _, _. split; [exact Hrun|]. by subst s. }
  split; [exact Hnew|].
  subst s. cbn [this token config shouldUpdateMLVersion enteWorkers enteComlinkWorkers].
  do 3 (split; [done|]).
  eexists _, _. do 2 (split; [reflexivity|]).
  split; unfold array_length; cbn [items]; rewrite length_replicate; lia.
Qed.

(** X21.  When the queue rejects the concurrency, the constructor fails
    with the error of the queue.  By then the services are resolved and the
    concurrency is set and logged, but nothing has been created: the world
    is untouched, and the queue and both pool arrays are [undefined]. *)
Theorem constructor_queue_rejects
    (token_ : string) (config_ : MLSyncConfig)
    (shouldUpdate_ : option bool) (concurrency_ : option Z) (w : World) (e : JsError) :
  (forall st, registered st (stage_method config_ st) = true) ->
  PQueue_rejects (js_or concurrency_ CONCURRENCY) = Some e ->
  exists s,
    construct token_ config_ shouldUpdate_ concurrency_ w = (Throw e, s)
    /\ world s = w
    /\ concurrency (this s) = Some (js_or concurrency_ CONCURRENCY)
    /\ syncQueue (this s) = None
    /\ enteComlinkWorkers (this s) = None
    /\ enteWorkers (this s) = None
    /\ last (trace s) = Some (ConsoleLog "Using concurrency: " (js_or concurrency_ CONCURRENCY)).
Proof.
  intros Hreg Hq. construct_to_queue Hreg.
  rewrite (bind_new_PQueue_rejected _ _ _ _ Hq).
  eexists. split; [reflexivity|]. cbn. done.
Qed.

(** X22.  When the queue accepts a concurrency that is no array length,
    the constructor fails with a [RangeError], and it fails late: the queue
    has been created and hooked to the statistics by then, and stays behind
    in the world, while both pool arrays are [undefined]. *)
Theorem constructor_array_rejects
    (token_ : string) (config_ : MLSyncConfig)
    (shouldUpdate_ : option bool) (concurrency_ : option Z) (w : World) :
  (forall st, registered st (stage_method config_ st) = true) ->
  PQueue_rejects (js_or concurrency_ CONCURRENCY) = None ->
  ~ (0 <= js_or concurrency_ CONCURRENCY <= 2 ^ 32 - 1) ->
  exists s,
    construct token_ config_ shouldUpdate_ concurrency_ w
    = (Throw (RangeError "Invalid array length"), s)
    /\ queues (world s) = queues w ++ [fresh_queue (js_or concurrency_ CONCURRENCY)]
    /\ syncQueue (this s) = Some (length (queues w))
    /\ enteComlinkWorkers (this s) = None
    /\ enteWorkers (this s) = None.
Proof.
  intros Hreg Hq Hc. construct_to_queue Hreg.
  rewrite (bind_new_PQueue _ _ _ Hq); js_norm.
  js_assign. js_read. unfold log_queue_stats.
  erewrite bind_with_queue by (apply list_lookup_middle; reflexivity). js_norm.
  js_read.
  assert (Hnew : @new_Array ComlinkWorker (js_or concurrency_ CONCURRENCY)
                 = Throw (RangeError "Invalid array length")).
  { unfold new_Array.
    destruct (Z.ltb_spec (js_or concurrency_ CONCURRENCY) 0); [done|].
    destruct (Z.ltb_spec (2 ^ 32 - 1) (js_or concurrency_ CONCURRENCY)); [done | lia]. }
  rewrite Hnew, bind_lift_Throw.
  eexists. split; [reflexivity|]. cbn [this world syncQueue enteComlinkWorkers enteWorkers].
  split; [ | done ].
  cbn. rewrite insert_app_r_alt by reflexivity. by rewrite Nat.sub_diag.
Qed.

End ConstructionFacts.

(** ** The collection helpers *)

(** X23.  [selectIntOptions n] lists the numbers from 1 to [n] in
    ascending order, each labelled with its decimal numeral: reversing the
    array of holes changes nothing.  It fails with a [RangeError] exactly
    when [n] is negative or above the greatest array length. *)
Theorem selectIntOptions_ascending (upperLimit : Z) :
  Collections.selectIntOptions upperLimit
  = if (upperLimit <? 0) || (2 ^ 32 - 1 <? upperLimit)
    then Throw (RangeError "Invalid array length")
    else Normal ((fun i => {| Collections.label := pretty i; Collections.value := i |})
                   <$> seqZ 1 upperLimit).
Proof.
  unfold Collections.selectIntOptions, new_Array.
  destruct (Z.ltb_spec upperLimit 0); [done|].
  destruct (_ <? _); cbn [orb]; [done|].
  unfold array_length. cbn [items props].
  rewrite length_reverse, length_replicate, Z2Nat.id by done.
  rewrite <- (fmap_add_seqZ 1 0), <- list_fmap_compose. f_equal.
  apply list_fmap_ext. intros _ i _. cbn. unfold Collections._intSelectOption.
  by rewrite Z.add_comm.
Qed.

(** X24.  Looking up an id that no collection has: [getSelectedCollection]
    finds nothing, and the collection counts neither as a favorite nor as
    shared, even when the local storage holds no user. *)
Theorem collection_lookup_misses
    (user : option Collections.User) (collectionID : Z)
    (collections : list Collections.Collection) :
  (forall collection, collection ∈ collections -> Collections.id collection <> collectionID) ->
  Collections.getSelectedCollection collectionID collections = None
  /\ Collections.isFavoriteCollection collectionID collections = false
  /\ Collections.isSharedCollection user collectionID collections = Normal false.
Proof.
  intros Hmiss.
  assert (Hnone : Collections.getSelectedCollection collectionID collections = None).
  { unfold Collections.getSelectedCollection.
    destruct (List.find _ collections) as [c|] eqn:Hfind; [ | done ].
    apply find_some in Hfind as [Hin Hid]. apply Z.eqb_eq in Hid.
    destruct (Hmiss c); [ by apply list_elem_of_In | done ]. }
  unfold Collections.isFavoriteCollection, Collections.isSharedCollection.
  by rewrite Hnone.
Qed.

(** X25.  Looking up an id that some collection has: the first collection
    with that id is the one found, whatever follows it in the list.  It is
    a favorite when its type is [favorites], and shared when its owner is
    not the user of the local storage. *)
Theorem collection_lookup_finds_first
    (user : Collections.User) (collectionID : Z)
    (before after : list Collections.Collection) (collection : Collections.Collection) :
  (forall c, c ∈ before -> Collections.id c <> collectionID) ->
  Collections.id collection = collectionID ->
  let collections := before ++ collection :: after in
  Collections.getSelectedCollection collectionID collections = Some collection
  /\ (Collections.isFavoriteCollection collectionID collections = true
      <-> Collections.type collection = Collections.favorites)
  /\ exists shared,
       Collections.isSharedCollection (Some user) collectionID collections = Normal shared
       /\ (shared = true
           <-> Collections.user_id (Collections.owner collection)
               <> Collections.user_id user).
Proof.
  intros Hbefore Hid collections.
  assert (Hsome : Collections.getSelectedCollection collectionID collections
                  = Some collection).
  { subst collections. unfold Collections.getSelectedCollection.
    induction before as [|c before IH]; cbn.
    - by rewrite (proj2 (Z.eqb_eq _ _) Hid).
    - destruct (Z.eqb_spec (Collections.id c) collectionID) as [Heq|_].
      + destruct (Hbefore c); [ by left | done ].
      + apply IH. intros c' Hin. apply Hbefore. by right. }
  unfold Collections.isFavoriteCollection, Collections.isSharedCollection.
  rewrite Hsome. split; [done|]. split; [ by rewrite bool_decide_eq_true | ].
  eexists. split; [reflexivity|].
  rewrite negb_true_iff, Z.eqb_neq. done.
Qed.

(** ** The collection operations *)

Section CollectionOpsFacts.
Context `{CollectionOps.Imports}.
Import CollectionOps.

(** X26.  An operation type outside the enum makes [handleCollectionOps]
    fail with [INVALID_COLLECTION_OPERATION].  The selector view has been
    closed by then; no collection is changed and the active collection is
    not set. *)
Theorem handleCollectionOps_invalid_type
    (answers : Answers) (type : Z) (selected : SelectedState) (files : list EnteFile)
    (collection : Collections.Collection) (calls : list Call) :
  ~ (0 <= type <= 3) ->
  handleCollectionOps answers type selected files collection calls
  = (Throw (Error INVALID_COLLECTION_OPERATION),
     calls ++ [SetCollectionSelectorView false]).
Proof.
  intros Htype. unfold handleCollectionOps, eff_bind, call, eff_throw.
  unfold COLLECTION_OPS_TYPE.ADD, COLLECTION_OPS_TYPE.MOVE,
    COLLECTION_OPS_TYPE.REMOVE, COLLECTION_OPS_TYPE.RESTORE.
  destruct (Z.eqb_spec type 0); [lia|]. destruct (Z.eqb_spec type 1); [lia|].
  destruct (Z.eqb_spec type 2); [lia|]. destruct (Z.eqb_spec type 3); [lia|]. done.
Qed.

(** X27.  Whatever the operation type and whatever the service answers,
    [handleCollectionOps] first closes the selector view, then makes at
    most one call of the collection service (exactly one when the type is
    one of the enum), for the given collection and the selected files, and
    ends as that call ends.  It sets the active collection, to the id of
    the given collection, last, and only if it does not fail. *)
Theorem handleCollectionOps_order
    (answers : Answers) (type : Z) (selected : SelectedState) (files : list EnteFile)
    (collection : Collections.Collection) (calls : list Call) :
  let run := handleCollectionOps answers type selected files collection calls in
  exists service,
    snd run
    = calls ++ [SetCollectionSelectorView false] ++ service
      ++ (if isNormal (fst run) then [SetActiveCollection (Collections.id collection)]
          else [])
    /\ (length service <= 1)%nat
    /\ (0 <= type <= 3 <-> length service = 1%nat)
    /\ Forall (fun c =>
                 service_target c = Some (collection, getSelectedFiles selected files)
                 /\ answer answers c = fst run) service.
Proof.
  intros run. subst run.
  unfold handleCollectionOps, eff_bind, call, eff_throw, await_call.
  unfold COLLECTION_OPS_TYPE.ADD, COLLECTION_OPS_TYPE.MOVE,
    COLLECTION_OPS_TYPE.REMOVE, COLLECTION_OPS_TYPE.RESTORE.
  destruct (Z.eqb_spec type 0);
    [ | destruct (Z.eqb_spec type 1);
        [ | destruct (Z.eqb_spec type 2); [ | destruct (Z.eqb_spec type 3) ] ] ].
  1-4: match goal with
       | |- context [answer ?a ?c] =>
           exists [c]; destruct (answer a c) as [[]|err] eqn:Hanswer;
           cbn [fst snd isNormal]
       end.
  1-8: split; [ by rewrite <- ?app_assoc | ]; split; [ done | ];
       split; [ split; [ done | lia ] | ];
       by repeat constructor.
  exists []. cbn [fst snd isNormal]. split; [ by rewrite app_nil_r | ].
  split; [ cbn; lia | ]. split; [ | done ]. split; [ lia | done ].
Qed.

(** X28.  [downloadCollection] never fails.  It asks for the local files
    first; the files it hands to the download are those of the given
    collection, in their order, and no others.  When listing and
    downloading succeed it logs nothing and shows no dialog; when one of
    them fails it logs the error and shows one dialog, with the text
    [DELETE_COLLECTION_FAILED]. *)
Theorem downloadCollection_never_fails
    (answers : Answers) (collectionID : Z) (calls : list Call) :
  let outcome :=
    match localFiles answers with
    | Normal allFiles =>
        answer answers
          (DownloadFiles (filter (fun file => file_collectionID file = collectionID) allFiles))
    | Throw e => Throw e
    end in
  exists made,
    downloadCollection answers collectionID calls = (Normal tt, calls ++ GetLocalFiles :: made)
    /\ (forall files, DownloadFiles files ∈ made ->
          exists allFiles,
            localFiles answers = Normal allFiles
            /\ files = filter (fun file => file_collectionID file = collectionID) allFiles
            /\ Forall (fun file => file_collectionID file = collectionID) files)
    /\ match outcome with
       | Normal _ => dialogs made = [] /\ (forall e msg, LogError e msg ∉ made)
       | Throw e =>
           LogError e "download collection failed " ∈ made
           /\ dialogs made
              = [ {| title := ERROR; staticBackdrop := None; close_variant := "danger";
                     content := DELETE_COLLECTION_FAILED |} ]
       end.
Proof.
  intros outcome. subst outcome.
  unfold downloadCollection, try_catch, eff_bind, await_call, await_value, call.
  destruct (localFiles answers) as [allFiles|e] eqn:Hlist.
  - assert (Hfiles : forall files,
               files = filter (fun file => file_collectionID file = collectionID) allFiles ->
               Forall (fun file => file_collectionID file = collectionID) files).
    { intros files ->. apply Forall_forall. intros file Hfile.
      by apply list_elem_of_filter in Hfile as [? _]. }
    destruct (answer answers (DownloadFiles _)) as [[]|e] eqn:Hdown.
    + eexists [_]. split; [ by rewrite <- app_assoc | ]. split.
      * intros files Hin. apply list_elem_of_singleton in Hin as [= ->].
        exists allFiles. split; [done|]. split; [done|]. by apply Hfiles.
      * split; [done|]. intros e msg Hin. by apply list_elem_of_singleton in Hin.
    + eexists [_; _; _]. split; [ by rewrite <- !app_assoc | ]. split.
      * intros files Hin.
        apply elem_of_cons in Hin as [[= ->] | Hin].
        2:{ apply elem_of_cons in Hin as [Hin | Hin]; [done|].
            by apply list_elem_of_singleton in Hin. }
        exists allFiles. split; [done|]. split; [done|]. by apply Hfiles.
      * split; [ right; by left | done ].
  - eexists [_; _]. split; [ by rewrite <- !app_assoc | ]. split.
    + intros files Hin. apply elem_of_cons in Hin as [Hin | Hin]; [done|].
      by apply list_elem_of_singleton in Hin.
    + split; [ by left | done ].
Qed.

(** X29.  [changeCollectionVisibilityHelper] brackets its work: it
    starts the loading indicator first, and whether the update succeeds or
    fails it syncs with the remote afterwards, once.  It fails only when
    that sync fails, with the error of the sync; otherwise it returns, and
    the last thing it does is to finish the loading indicator, which it
    does not do when the sync fails. *)
Theorem changeCollectionVisibilityHelper_brackets
    (answers : Answers) (collection : Collections.Collection) :
  let run := changeCollectionVisibilityHelper answers collection [] in
  exists work,
    fst run = answer answers SyncWithRemote
    /\ snd run
       = StartLoading :: work ++ SyncWithRemote
           :: (if isNormal (fst run) then [FinishLoading] else [])
    /\ (SyncWithRemote ∉ work) /\ (FinishLoading ∉ work) /\ (StartLoading ∉ work).
Proof.
  intros run. subst run.
  unfold changeCollectionVisibilityHelper, eff_bind, try_finally, try_catch, call,
    await_value, await_call.
  cbn [app].
  destruct (updatedMetadata answers _ _ _) as [magicMetadata|e].
  - destruct (answer answers (UpdateCollectionMagicMetadata _ _)) as [[]|e].
    + destruct (answer answers SyncWithRemote) as [[]|e] eqn:Hsync; cbn [fst snd isNormal].
      all: eexists [_; _]; split; [done|]; split; [done|].
      all: repeat split; intros Hin; repeat (apply elem_of_cons in Hin as [Hin|Hin]; [done|]);
        by apply elem_of_nil in Hin.
    + destruct (bool_decide _);
        destruct (answer answers SyncWithRemote) as [[]|e'] eqn:Hsync; cbn [fst snd isNormal].
      all: eexists [_; _; _; _]; split; [done|]; split; [done|].
      all: repeat split; intros Hin; repeat (apply elem_of_cons in Hin as [Hin|Hin]; [done|]);
        by apply elem_of_nil in Hin.
  - destruct (bool_decide _);
      destruct (answer answers SyncWithRemote) as [[]|e'] eqn:Hsync; cbn [fst snd isNormal].
    all: eexists [_; _; _]; split; [done|]; split; [done|].
    all: repeat split; intros Hin; repeat (apply elem_of_cons in Hin as [Hin|Hin]; [done|]);
      by apply elem_of_nil in Hin.
Qed.

(** X30.  [changeCollectionVisibilityHelper] asks for the other
    visibility, once: [VISIBLE] for a collection whose visibility is not
    zero, [ARCHIVED] otherwise.  It shows no dialog when both steps of the
    update succeed.  When one of them fails it logs the error, does not
    fail itself for that, and shows one dialog: [NOT_FILE_OWNER] if the
    status of the error is [FORBIDDEN], [UNKNOWN_ERROR] otherwise. *)
Theorem changeCollectionVisibilityHelper_dialogs
    (answers : Answers) (collection : Collections.Collection) :
  let run := snd (changeCollectionVisibilityHelper answers collection []) in
  let metadata :=
    default NEW_COLLECTION_MAGIC_METADATA (collection_magicMetadata collection) in
  let update :=
    match updatedMetadata answers metadata (collection_key collection)
            (toggled_visibility collection) with
    | Normal magicMetadata =>
        answer answers (UpdateCollectionMagicMetadata collection magicMetadata)
    | Throw e => Throw e
    end in
  run !! 1%nat
  = Some (UpdateMagicMetadataProps metadata (collection_key collection)
            (toggled_visibility collection))
  /\ match update with
     | Normal _ => dialogs run = [] /\ (forall e msg, LogError e msg ∉ run)
     | Throw e =>
         LogError e "change file visibility failed" ∈ run
         /\ dialogs run
            = [ {| title := ERROR; staticBackdrop := Some true; close_variant := "danger";
                   content := if bool_decide (error_status e = Some FORBIDDEN)
                              then NOT_FILE_OWNER else UNKNOWN_ERROR |} ]
     end.
Proof.
  intros run metadata update. subst run metadata update.
  unfold changeCollectionVisibilityHelper, eff_bind, try_finally, try_catch, call,
    await_value, await_call.
  cbn [app].
  destruct (updatedMetadata answers _ _ _) as [magicMetadata|e].
  - destruct (answer answers (UpdateCollectionMagicMetadata _ _)) as [[]|e].
    + destruct (answer answers SyncWithRemote) as [[]|e]; cbn [fst snd];
        (split; [done|]); (split; [done|]);
        intros e0 msg Hin; repeat (apply elem_of_cons in Hin as [Hin|Hin]; [done|]);
        by apply elem_of_nil in Hin.
    + destruct (bool_decide _);
        destruct (answer answers SyncWithRemote) as [[]|e']; cbn [fst snd];
        (split; [done|]); (split; [ | done ]); do 3 right; by left.
  - destruct (bool_decide _);
      destruct (answer answers SyncWithRemote) as [[]|e']; cbn [fst snd];
      (split; [done|]); (split; [ | done ]); do 2 right; by left.
Qed.

End CollectionOpsFacts.

(** ** The helpers at work in the concrete setting *)

Lemma demo_worker_reads_every_blob : reads_every_blob demo_worker.
Proof. intros blob. reflexivity. Qed.

Lemma failing_worker_reads_truly : reads_truly failing_worker.
Proof.
  intros blob data. unfold failing_worker. cbn [getUint8ArrayView].
  destruct blob as [|[] blob]; by intros [= <-].
Qed.

Lemma getFileOriginalName_strips_marker_witness :
  name demo_file = "IMG_0001" +:+ EDITED_FILE_SUFFIX
  /\ getFileOriginalName demo_file = "IMG_0001".
Proof.
  split; [reflexivity|].
  apply (getFileOriginalName_strips_marker demo_file "IMG_0001"). reflexivity.
Defined.

Lemma getFileOriginalName_keeps_other_names_witness :
  (forall base, name demo_photo <> base +:+ EDITED_FILE_SUFFIX)
  /\ getFileOriginalName demo_photo = "IMG_0001-edited.jpg".
Proof.
  assert (Hother : forall base, name demo_photo <> base +:+ EDITED_FILE_SUFFIX).
  { intros base Hname.
    assert (Hends : endsWith (name demo_photo) EDITED_FILE_SUFFIX = true)
      by (apply endsWith_spec; by exists base).
    vm_compute in Hends. discriminate. }
  split; [exact Hother|].
  exact (getFileOriginalName_keeps_other_names demo_photo Hother).
Defined.

Lemma file_stream_round_trip_witness :
  exists chunks,
    read_stream 4 (stream (getFileStream demo_worker demo_file 2)) = (chunks, Closed)
    /\ concat chunks = bytes demo_file.
Proof.
  apply (file_stream_round_trip demo_worker demo_file 2 3).
  - exact demo_worker_reads_every_blob.
  - lia.
  - vm_compute. discriminate.
Defined.

Lemma file_stream_chunk_count_witness :
  read_stream 4 (stream (getFileStream demo_worker demo_file 2)) = (demo_chunks, Closed)
  /\ chunkCount (getFileStream demo_worker demo_file 2) = Some 3.
Proof.
  assert (Hrun : read_stream 4 (stream (getFileStream demo_worker demo_file 2))
                 = (demo_chunks, Closed)) by (vm_compute; reflexivity).
  split; [exact Hrun|].
  apply (file_stream_chunk_count demo_worker demo_file 2 4 demo_chunks).
  - exact demo_worker_reads_every_blob.
  - lia.
  - exact Hrun.
Defined.

Lemma file_stream_chunks_witness :
  [Byte.x04] = js_slice (bytes demo_file) (Z.of_nat 2 * 2) ((Z.of_nat 2 + 1) * 2)
  /\ 0 < Z.of_nat (length [Byte.x04]) <= 2
  /\ ((3 < length demo_chunks)%nat -> Z.of_nat (length [Byte.x04]) = 2).
Proof.
  apply (file_stream_chunks demo_worker demo_file 2 4 demo_chunks 2 [Byte.x04]).
  - exact demo_worker_reads_every_blob.
  - lia.
  - vm_compute. reflexivity.
  - reflexivity.
Defined.

Lemma file_stream_read_failure_witness :
  read_stream 4 (stream (getFileStream failing_worker demo_file 2))
  = ([[Byte.xff; Byte.xd8]; [Byte.xff; Byte.xe0]],
     Errored (Error "file reading has failed"))
  /\ [Byte.xff; Byte.xd8; Byte.xff; Byte.xe0] = take 4 (bytes demo_file)
  /\ getUint8ArrayView failing_worker (js_slice (bytes demo_file) 4 (2 + 4))
     = Throw (Error "file reading has failed").
Proof.
  assert (Hrun : read_stream 4 (stream (getFileStream failing_worker demo_file 2))
                 = ([[Byte.xff; Byte.xd8]; [Byte.xff; Byte.xe0]],
                    Errored (Error "file reading has failed")))
    by (vm_compute; reflexivity).
  split; [exact Hrun|].
  destruct (file_stream_read_failure failing_worker demo_file 2 4 _ _
              failing_worker_reads_truly ltac:(lia) Hrun) as (Hprefix & _ & Herr & _).
  split; [exact Hprefix|].
  exact (proj2 (Herr _ eq_refl)).
Defined.

Lemma getFileData_returns_the_file_witness :
  match getFileData (H := demo_upload_imports) demo_worker demo_file with
  | Normal (Whole data) => file_size demo_file <= 4 /\ data = bytes demo_file
  | Normal (Streamed s) =>
      4 < file_size demo_file
      /\ exists count chunks,
           chunkCount s = Some count
           /\ read_stream (S (Z.to_nat count)) (stream s) = (chunks, Closed)
           /\ Z.of_nat (length chunks) = count
           /\ concat chunks = bytes demo_file
  | Throw _ => False
  end.
Proof.
  apply (getFileData_returns_the_file (H := demo_upload_imports) demo_worker demo_file).
  - exact demo_worker_reads_every_blob.
  - reflexivity.
Defined.

Lemma getFileType_reads_the_head_witness :
  take 4100 (bytes demo_file) = take 4100 (bytes demo_photo)
  /\ getFileType (H := demo_upload_imports) demo_worker demo_file
     = getFileType (H := demo_upload_imports) demo_worker demo_photo.
Proof.
  split; [reflexivity|].
  apply (getFileType_reads_the_head (H := demo_upload_imports) demo_worker
           demo_file demo_photo).
  reflexivity.
Defined.

Lemma getFileType_by_major_type_witness :
  getFileType (H := demo_upload_imports) demo_worker demo_file
  = Normal {| fileType := IMAGE; mimeType := Some "image/jpeg" |}
  /\ exists major rest,
       Some "image/jpeg" = Some (major +:+ rest)
       /\ spells "image" major
       /\ (rest = "" \/ exists r, rest = String "/" r).
Proof.
  assert (Hrun : getFileType (H := demo_upload_imports) demo_worker demo_file
                 = Normal {| fileType := IMAGE; mimeType := Some "image/jpeg" |})
    by (vm_compute; reflexivity).
  split; [exact Hrun|].
  destruct (getFileType_by_major_type (H := demo_upload_imports) _ _ _ Hrun)
    as (_ & Himage & _).
  apply Himage. reflexivity.
Defined.

Lemma slots_never_share_a_worker_witness :
  0%nat <> 1%nat
  /\ exists w w',
       remotes (world (run_ops (H := demo_imports) [GetEnteWorker 1; GetEnteWorker 0] demo_s0))
       !! 0%nat = Some w
       /\ remotes (world (run_ops (H := demo_imports)
                            [GetEnteWorker 1; GetEnteWorker 0] demo_s0))
          !! 1%nat = Some w'
       /\ w <> w'.
Proof.
  apply (slots_never_share_a_worker (H := demo_imports) 2 demo_s0
           [GetEnteWorker 1; GetEnteWorker 0] (Some 1%Z) (Some 0%Z)).
  - exact demo_s0_constructed.
  - discriminate.
  - vm_compute. reflexivity.
  - vm_compute. reflexivity.
Defined.

Lemma spawned_workers_are_the_slots_witness :
  exists cws,
    enteComlinkWorkers
      (this (run_ops (H := demo_imports) [GetEnteWorker 1; GetEnteWorker (-1)] demo_s0))
    = Some cws
    /\ spawned_between demo_s0
         (run_ops (H := demo_imports) [GetEnteWorker 1; GetEnteWorker (-1)] demo_s0)
       = (populated cws + size (props cws))%nat.
Proof.
  apply (spawned_workers_are_the_slots (H := demo_imports) 2). exact demo_s0_constructed.
Defined.

Lemma spawned_workers_bounded_witness :
  Z.of_nat (spawned_between demo_s0
              (run_ops (H := demo_imports)
                 [GetEnteWorker 1; AddTask; Dispose [GetEnteWorker 0; FinishTask];
                  GetEnteWorker 4; GetEnteWorker 7]
                 demo_s0))
  <= 2.
Proof.
  apply (spawned_workers_bounded (H := demo_imports) 2).
  - exact demo_s0_constructed.
  - unfold nonneg_ids. cbn. repeat constructor; lia.
Defined.

Lemma worker_of_negative_id_outlives_dispose_witness :
  Z.rem (-1) 2 < 0
  /\ exists w s',
       remotes (world (run_ops (H := demo_imports) [GetEnteWorker (-1); AddTask] demo_s0))
       !! 0%nat = Some w
       /\ workers (world (run_ops (H := demo_imports) [GetEnteWorker (-1); AddTask] demo_s0))
          !! w = Some true
       /\ run_async (dispose (H := demo_imports))
            (run_ops (H := demo_imports) [GetEnteWorker 1; FinishTask])
            (run_ops (H := demo_imports) [GetEnteWorker (-1); AddTask] demo_s0)
          = Some (Normal tt, s')
       /\ slot_handle s' (js_rem (-1) 2) = Some 0%nat
       /\ remotes (world s') !! 0%nat = Some w
       /\ workers (world s') !! w = Some true.
Proof.
  split; [reflexivity|].
  destruct (worker_of_negative_id_outlives_dispose (H := demo_imports) 2 demo_s0
              [GetEnteWorker (-1); AddTask] [GetEnteWorker 1; FinishTask] (-1) 0%nat)
    as (w & Hrem & Hrunning & Hdispose).
  - exact demo_s0_constructed.
  - reflexivity.
  - vm_compute. reflexivity.
  - destruct Hdispose as (s' & Hrun & Hrest); [ vm_compute; reflexivity | ].
    exists w, s'. split; [exact Hrem|]. split; [exact Hrunning|].
    split; [exact Hrun|]. exact Hrest.
Defined.

Lemma getEnteWorker_after_dispose_witness :
  exists s1 h w s2,
    run_async (dispose (H := demo_imports))
      (run_ops (H := demo_imports) [GetEnteWorker 1; FinishTask])
      (run_ops (H := demo_imports) [AddTask] demo_s0)
    = Some (Normal tt, s1)
    /\ getEnteWorker (H := demo_imports) 0 s1 = (Normal (Some h), s2)
    /\ slot_handle s2 (js_rem 0 2) = Some h
    /\ remotes (world s2) !! h = Some w
    /\ workers (world s2) !! w = Some true
    /\ spawned_between s1 s2 = 1%nat.
Proof.
  apply (getEnteWorker_after_dispose (H := demo_imports) 2 demo_s0
           [AddTask] [GetEnteWorker 1; FinishTask] 0).
  - exact demo_s0_constructed.
  - vm_compute. reflexivity.
  - vm_compute. reflexivity.
  - vm_compute. reflexivity.
Defined.

Lemma stopped_worker_stays_stopped_witness :
  workers (world (run_ops (H := demo_imports) [GetEnteWorker 0; Dispose []] demo_s0)) !! 0%nat
  = Some false
  /\ workers (world (run_ops (H := demo_imports)
                       [GetEnteWorker 0; GetEnteWorker 1; AddTask; Dispose [FinishTask]]
                       (run_ops (H := demo_imports) [GetEnteWorker 0; Dispose []] demo_s0)))
     !! 0%nat
     = Some false.
Proof.
  assert (Hstopped :
            workers (world (run_ops (H := demo_imports) [GetEnteWorker 0; Dispose []] demo_s0))
            !! 0%nat = Some false) by (vm_compute; reflexivity).
  split; [exact Hstopped|].
  exact (stopped_worker_stays_stopped (H := demo_imports) _ _ _ Hstopped).
Defined.

Lemma getEnteWorker_outcomes_witness :
  match getEnteWorker (H := demo_imports) 1
          (run_ops (H := demo_imports) [GetEnteWorker 0] demo_flaky) with
  | (Normal (Some h), s') =>
      slot_handle s' (js_rem 1 2) = Some h
      /\ (slot_handle (run_ops (H := demo_imports) [GetEnteWorker 0] demo_flaky) (js_rem 1 2)
          = Some h
          \/ slot_handle (run_ops (H := demo_imports) [GetEnteWorker 0] demo_flaky)
               (js_rem 1 2) = None
             /\ next_spawn_error
                  (world (run_ops (H := demo_imports) [GetEnteWorker 0] demo_flaky)) = None)
  | (Normal None, _) => False
  | (Throw e, s') =>
      slot_handle (run_ops (H := demo_imports) [GetEnteWorker 0] demo_flaky) (js_rem 1 2)
      = None
      /\ next_spawn_error (world (run_ops (H := demo_imports) [GetEnteWorker 0] demo_flaky))
         = Some e
      /\ this s' = this (run_ops (H := demo_imports) [GetEnteWorker 0] demo_flaky)
  end.
Proof.
  apply (getEnteWorker_outcomes (H := demo_imports) 2 demo_flaky [GetEnteWorker 0] 1).
  exact demo_flaky_constructed.
Defined.

Lemma demo_busy_constructed : constructed (H := demo_imports) 2 demo_busy.
Proof.
  exists "token", demo_config, None, (Some 2), busy_world.
  split; vm_compute; reflexivity.
Qed.

Lemma context_touches_only_its_own_witness :
  syncQueue (this demo_busy) = Some 1%nat
  /\ workers (world (run_ops (H := demo_imports)
                       [GetEnteWorker 0; AddTask; Dispose [GetEnteWorker 1; FinishTask]]
                       demo_busy))
     !! 0%nat = Some true
  /\ queues (world (run_ops (H := demo_imports)
                      [GetEnteWorker 0; AddTask; Dispose [GetEnteWorker 1; FinishTask]]
                      demo_busy))
     !! 0%nat = queues (world demo_busy) !! 0%nat.
Proof.
  assert (Hqueue : syncQueue (this demo_busy) = Some 1%nat) by (vm_compute; reflexivity).
  split; [exact Hqueue|].
  destruct (context_touches_only_its_own (H := demo_imports) 2 demo_busy
              [GetEnteWorker 0; AddTask; Dispose [GetEnteWorker 1; FinishTask]] 1%nat
              demo_busy_constructed Hqueue)
    as (Hworkers & _ & Hqueues).
  split.
  - rewrite Hworkers; [ vm_compute; reflexivity | vm_compute; lia ].
  - apply Hqueues. discriminate.
Defined.

Lemma getMLSyncContext_defaults_witness :
  exists s,
    getMLSyncContext (H := demo_imports) "token" demo_config None empty_world = (Normal tt, s)
    /\ constructed (H := demo_imports) 3 s
    /\ shouldUpdateMLVersion (this s) = Some true
    /\ exists ws cws,
         enteWorkers (this s) = Some ws /\ enteComlinkWorkers (this s) = Some cws
         /\ array_length ws = 3 /\ array_length cws = 3.
Proof.
  exists (snd (getMLSyncContext (H := demo_imports) "token" demo_config None empty_world)).
  assert (Hrun : getMLSyncContext (H := demo_imports) "token" demo_config None empty_world
                 = (Normal tt,
                    snd (getMLSyncContext (H := demo_imports) "token" demo_config None
                           empty_world)))
    by (vm_compute; reflexivity).
  split; [exact Hrun|].
  destruct (getMLSyncContext_defaults (H := demo_imports) _ _ _ _ _ Hrun)
    as (Hnew & _ & _ & Hflag & Hlen).
  split; [exact Hnew|]. split; [exact Hflag|]. exact Hlen.
Defined.

Lemma demo_config_registered (st : Stage) :
  registered st (stage_method demo_config st) = true.
Proof. by destruct st. Qed.

Lemma constructor_queue_rejects_witness :
  PQueue_rejects (Imports := demo_imports) (js_or (Some (-1)) 3)
  = Some (TypeError "Expected `concurrency` to be a number from 1 and up")
  /\ exists s,
       construct (H := demo_imports) "token" demo_config None (Some (-1)) empty_world
       = (Throw (TypeError "Expected `concurrency` to be a number from 1 and up"), s)
       /\ world s = empty_world
       /\ concurrency (this s) = Some (-1)
       /\ syncQueue (this s) = None
       /\ enteComlinkWorkers (this s) = None
       /\ enteWorkers (this s) = None
       /\ last (trace s) = Some (ConsoleLog "Using concurrency: " (-1)).
Proof.
  split; [reflexivity|].
  apply (constructor_queue_rejects (H := demo_imports) "token" demo_config None (Some (-1))
           empty_world).
  - exact demo_config_registered.
  - reflexivity.
Defined.

Lemma constructor_array_rejects_witness :
  ~ (0 <= js_or (Some (2 ^ 32)) 3 <= 2 ^ 32 - 1)
  /\ exists s,
       construct (H := demo_imports) "token" demo_config None (Some (2 ^ 32)) empty_world
       = (Throw (RangeError "Invalid array length"), s)
       /\ queues (world s) = queues empty_world ++ [fresh_queue (H := demo_imports) (2 ^ 32)]
       /\ syncQueue (this s) = Some (length (queues empty_world))
       /\ enteComlinkWorkers (this s) = None
       /\ enteWorkers (this s) = None.
Proof.
  assert (Hout : ~ (0 <= js_or (Some (2 ^ 32)) 3 <= 2 ^ 32 - 1))
    by (vm_compute; intros [_ Hle]; by apply Hle).
  split; [exact Hout|].
  apply (constructor_array_rejects (H := demo_imports) "token" demo_config None
           (Some (2 ^ 32)) empty_world).
  - exact demo_config_registered.
  - reflexivity.
  - exact Hout.
Defined.

Lemma collection_lookup_misses_witness :
  Collections.getSelectedCollection 9 demo_collections = None
  /\ Collections.isFavoriteCollection 9 demo_collections = false
  /\ Collections.isSharedCollection None 9 demo_collections = Normal false.
Proof.
  apply (collection_lookup_misses None 9 demo_collections).
  intros collection Hin. unfold demo_collections in Hin.
  repeat (apply elem_of_cons in Hin as [-> | Hin]; [discriminate|]).
  by apply elem_of_nil in Hin.
Defined.

Lemma collection_lookup_finds_first_witness :
  Collections.getSelectedCollection 7 demo_collections = Some demo_album
  /\ (Collections.isFavoriteCollection 7 demo_collections = true
      <-> Collections.type demo_album = Collections.favorites)
  /\ exists shared,
       Collections.isSharedCollection (Some {| Collections.user_id := 2 |}) 7 demo_collections
       = Normal shared
       /\ (shared = true
           <-> Collections.user_id (Collections.owner demo_album)
               <> Collections.user_id {| Collections.user_id := 2 |}).
Proof.
  apply (collection_lookup_finds_first {| Collections.user_id := 2 |} 7
           [ {| Collections.id := 5;
                Collections.owner := {| Collections.user_id := 1 |};
                Collections.type := Collections.other "album" |} ]
           [ {| Collections.id := 7;
                Collections.owner := {| Collections.user_id := 2 |};
                Collections.type := Collections.other "folder" |} ]
           demo_album).
  - intros c Hin. apply elem_of_cons in Hin as [-> | Hin]; [discriminate|].
    by apply elem_of_nil in Hin.
  - reflexivity.
Defined.

Lemma handleCollectionOps_invalid_type_witness :
  ~ (0 <= 7 <= 3)
  /\ CollectionOps.handleCollectionOps (H := demo_collection_imports) demo_answers
       7 [5] [5; 7] demo_album []
     = (Throw (Error "invalid collection operation"),
        [CollectionOps.SetCollectionSelectorView false]).
Proof.
  assert (Htype : ~ (0 <= 7 <= 3)) by lia.
  split; [exact Htype|].
  exact (handleCollectionOps_invalid_type (H := demo_collection_imports) demo_answers
           7 [5] [5; 7] demo_album [] Htype).
Defined.
